(** * py-github-stats: the request gatherer, the statistics aggregator
      and the image generator

    A shallow embedding of [src/github-stats.ts] (classes [Queries] and
    [Stats]) and of the script that generates the images from them
    ([main], [generateLanguages]), together with the properties of the
    bounded-concurrency gatherer, the REST retry loop, pagination,
    de-duplication, language proportions, the memoising accessors, the
    configuration read from the environment and the two generators
    running at the same time.

    Conventions of the embedding.
    - JavaScript numbers that count things (stars, forks, bytes, lines) are
      integers [Z]: their sums are the numbers JavaScript computes as long
      as they stay within 2^53 in absolute value, which the statements that
      depend on it assume.  The percentages of the languages are binary64
      numbers: a rational [Q] that the format holds, obtained by rounding
      to nearest, ties to even ([JS.round64]), or one of the non-finite
      results (see [JS.num]).  The sign of a zero is not kept.
    - A response has the type the interfaces of the source declare: an
      array the code walks through without a guard ([edges], [weeks],
      [views]) holds objects, not [null].
    - An optional or nullable field is an [option]; [x || d] is written out
      with the truthiness of the type of [x].
    - A [Set<string>] is the list of its members in insertion order, an
      object used as a dictionary is an association list in insertion order.
    - The network is a script: the outcomes the HTTP calls will have, in the
      order the calls are made.  A call made after the script is exhausted
      is rejected (transport failure).
    - An [async] method is a function from the state before the call to the
      result, the state after it and the events it performed, in order.
    - Two [async] calls that run at the same time take turns at their
      suspension points: what lies between two [await]s runs alone.
    - Text is ASCII: a character is one code unit, and white space is the
      ASCII white space. *)

From Stdlib Require Import ZArith QArith Qabs Qminmax Qpower Qround.
From Stdlib Require Import List String Ascii Bool Lia Lqa.
From Stdlib Require Import Permutation Sorted.
Import ListNotations.

Local Open Scope Z_scope.

(* ------------------------------------------------------------------ *)
(** ** JavaScript values used by the code *)

Module JS.

(** [x || d] for an optional number: [undefined], [null] and [0] are falsy. *)
Definition num_or (x : option Z) (d : Z) : Z :=
  match x with
  | Some v => if v =? 0 then d else v
  | None => d
  end.

(** Truthiness of an optional string: absent and the empty string are falsy. *)
Definition str_truthy (x : option string) : bool :=
  match x with
  | Some s => negb (String.eqb s EmptyString)
  | None => false
  end.

(** [x || y] for optional strings. *)
Definition str_or (x y : option string) : option string :=
  if str_truthy x then x else y.

(** A binary64 number: a rational the format holds, an infinity, or the
    result of an undefined operation. *)
Inductive num : Type :=
| Finite (q : Q)
| Infinite (positive : bool)
| NaN.

Definition pow2 (k : Z) : Q := Qpower 2 k.

(** The exponent of a positive rational: the [e] with [2^e <= q < 2^(e+1)]. *)
Definition ilog2 (q : Q) : Z :=
  let e := Z.log2 (Qnum q) - Z.log2 (Zpos (Qden q)) in
  if Qle_bool (pow2 e) q then e else e - 1.

(** The integer nearest to [x]; of two that are as near, the even one. *)
Definition nearest_even (x : Q) : Z :=
  let f := Qfloor x in
  match Qcompare (x - inject_Z f) (1 # 2) with
  | Lt => f
  | Gt => f + 1
  | Eq => if Z.even f then f else f + 1
  end.

(** The exponent of the unit in the last place of the binary64 numbers
    around [q]: 53 significant bits, and no exponent below -1074. *)
Definition ulp_exponent (q : Q) : Z := Z.max (ilog2 (Qabs q) - 52) (-1074).

(** The binary64 number an exact result is rounded to: the nearest
    multiple of the unit in the last place, ties to even, and an infinity
    from 2^1024 on. *)
Definition round64 (q : Q) : num :=
  if Qeq_bool q 0 then Finite 0
  else
    let c := ulp_exponent q in
    let r := (inject_Z (nearest_even (q / pow2 c)) * pow2 c)%Q in
    if Qle_bool (pow2 1024) (Qabs r) then Infinite (Qle_bool 0 q) else Finite (Qred r).

(** [a / b] on two integers that binary64 holds (up to 2^53 in absolute
    value), as IEEE 754 defines it: the quotient rounded, and the
    non-finite results at [b = 0]. *)
Definition div (a b : Z) : num :=
  if b =? 0 then
    (if a =? 0 then NaN else Infinite (0 <? a))
  else round64 (inject_Z a / inject_Z b).

(** [k * x] for a positive integer constant [k]. *)
Definition scale (k : positive) (x : num) : num :=
  match x with
  | Finite q => round64 (inject_Z (Zpos k) * q)
  | Infinite s => Infinite s
  | NaN => NaN
  end.

(** [x + y]; opposite infinities give [NaN]. *)
Definition add (x y : num) : num :=
  match x, y with
  | NaN, _ | _, NaN => NaN
  | Finite p, Finite q => round64 (p + q)
  | Infinite s, Finite _ => Infinite s
  | Finite _, Infinite s => Infinite s
  | Infinite s, Infinite t => if Bool.eqb s t then Infinite s else NaN
  end.

(** [x || 0] for a computed number: [NaN] and [0] are falsy. *)
Definition or_zero (x : option num) : num :=
  match x with
  | Some NaN | None => Finite 0%Q
  | Some v => v
  end.

Definition is_digit (c : ascii) : bool :=
  (48 <=? nat_of_ascii c)%nat && (nat_of_ascii c <=? 57)%nat.

Definition digit_value (c : ascii) : Z := Z.of_nat (nat_of_ascii c) - 48.

Definition is_space (c : ascii) : bool :=
  let n := nat_of_ascii c in
  (n =? 32)%nat || ((9 <=? n)%nat && (n <=? 13)%nat).

Fixpoint skip_space (s : string) : string :=
  match s with
  | String c rest => if is_space c then skip_space rest else s
  | EmptyString => s
  end.

Fixpoint digits_prefix (s : string) (acc : option Z) : option Z :=
  match s with
  | String c rest =>
      if is_digit c
      then digits_prefix rest
             (Some (10 * match acc with Some a => a | None => 0 end + digit_value c))
      else acc
  | EmptyString => acc
  end.

(** [parseInt(s, 10)]: leading white space, an optional sign, then the
    longest run of decimal digits; [None] is [NaN].  The result is the
    integer the digits denote: it is the number JavaScript computes as
    long as it is at most 2^53 in absolute value, which the statements
    that depend on the value assume. *)
Definition parseInt (s : string) : option Z :=
  match skip_space s with
  | String "-"%char rest => option_map Z.opp (digits_prefix rest None)
  | String "+"%char rest => digits_prefix rest None
  | t => digits_prefix t None
  end.

Definition lower_ascii (c : ascii) : ascii :=
  let n := nat_of_ascii c in
  if (65 <=? n)%nat && (n <=? 90)%nat then ascii_of_nat (n + 32) else c.

(** [s.toLowerCase()] on the ASCII letters; other bytes are left as they are. *)
Fixpoint toLowerCase (s : string) : string :=
  match s with
  | String c rest => String (lower_ascii c) (toLowerCase rest)
  | EmptyString => EmptyString
  end.

(** [set.has(x)] on a set of strings. *)
Definition has (set : list string) (x : string) : bool :=
  existsb (String.eqb x) set.

End JS.

(* ------------------------------------------------------------------ *)
(** ** The payload types declared at the top of the source *)

Module Types.

Record PageInfo : Type := mkPageInfo {
  hasNextPage : option bool;
  endCursor : option string
}.

Record LanguageNode : Type := mkLanguageNode {
  name : option string;
  color : option string
}.

Record LanguageEdge : Type := mkLanguageEdge {
  size : option Z;
  node : option LanguageNode
}.

Record Stargazers : Type := mkStargazers {
  totalCount : option Z
}.

(** A repository node.  The edges of [languages] are objects, as the
    interface declares ([edges: LanguageEdge[]]): the pass reads
    [lang.node] of each edge without a guard, and a [null] edge, on which
    that would be a TypeError, is not a value of this type. *)
Record Repository : Type := mkRepository {
  nameWithOwner : string;
  stargazers : option Stargazers;
  forkCount : option Z;
  languages : option (list LanguageEdge)      (* languages?.edges *)
}.

Record RepositoryPage : Type := mkRepositoryPage {
  pageInfo : option PageInfo;
  nodes : option (list (option Repository))   (* a node may be null *)
}.

Record ContributionCalendar : Type := mkContributionCalendar {
  totalContributions : option Z
}.

Record ContributionsCollection : Type := mkContributionsCollection {
  contributionYears : option (list Z);
  contributionCalendar : option ContributionCalendar
}.

(** [data.viewer]: the declared fields, then the aliased per-year
    collections ([year2023: contributionsCollection(...)]) in the order of
    the object's keys. *)
Record Viewer : Type := mkViewer {
  login : option string;
  viewer_name : option string;
  repositories : option RepositoryPage;
  repositoriesContributedTo : option RepositoryPage;
  contributionsCollection : option ContributionsCollection;
  by_alias : list (string * ContributionsCollection)
}.

(** The GraphQL envelope; [{}] is [mkGraphQLResponse None]. *)
Record GraphQLResponse : Type := mkGraphQLResponse {
  viewer : option Viewer                      (* data?.viewer *)
}.

Definition emptyGraphQL : GraphQLResponse := mkGraphQLResponse None.

Record Author : Type := mkAuthor {
  author_login : option string
}.

Record Week : Type := mkWeek {
  a : option Z;
  d : option Z
}.

Record View : Type := mkView {
  count : option Z
}.

Record RESTResponse : Type := mkRESTResponse {
  author : option Author;
  weeks : option (list Week);
  views : option (list View)
}.

(** [RESTResponse | RESTResponse[]]; an element of the array may be null. *)
Inductive RESTData : Type :=
| RObject (o : RESTResponse)
| RArray (items : list (option RESTResponse)).

(** The object literal [{}]. *)
Definition emptyREST : RESTData := RObject (mkRESTResponse None None None).

Record LanguageData : Type := mkLanguageData {
  lang_size : Z;
  occurrences : Z;
  lang_color : option string;
  prop : option JS.num
}.

(** The query documents the three templates of [Queries] generate, by the
    values put in their holes. *)
Inductive QueryDoc : Type :=
| ReposOverviewDoc (repositories_after repositoriesContributedTo_after : string)
| ContribYearsDoc
| AllContribsDoc (byYears : list (Z * Z)).   (* per alias year<y>: from-year y, to-year *)

End Types.

(* ------------------------------------------------------------------ *)
(** ** HTTP responses, outcomes of a call, and the events a method performs *)

Module Http.

Record Response (A : Type) : Type := mkResponse {
  status : Z;
  retry_after : option string;          (* headers['retry-after'] *)
  data : option A                       (* [None]: an empty (falsy) body *)
}.
Arguments mkResponse {A}.
Arguments status {A}.
Arguments retry_after {A}.
Arguments data {A}.

(** What a rejected call throws. *)
Inductive Failure (A : Type) : Type :=
| AxiosError (response : option (Response A))
| OtherError.
Arguments AxiosError {A}.
Arguments OtherError {A}.

Inductive Outcome (A : Type) : Type :=
| Resolved (r : Response A)
| Rejected (e : Failure A).
Arguments Resolved {A}.
Arguments Rejected {A}.

(** [axios.isAxiosError(error) && error.response?.status === 202] *)
Definition is_202_error {A} (e : Failure A) : option (Response A) :=
  match e with
  | AxiosError (Some r) => if status r =? 202 then Some r else None
  | _ => None
  end.

(** The next outcome of the script; an exhausted script rejects. *)
Definition next_outcome {A} (script : list (Outcome A)) : Outcome A * list (Outcome A) :=
  match script with
  | o :: rest => (o, rest)
  | [] => (Rejected OtherError, [])
  end.

Inductive Request : Type :=
| Get (url : string)
| Post (query : Types.QueryDoc).

(** A delay in milliseconds; [None] is [NaN]. *)
Definition Delay : Type := option Q.

Inductive Event : Type :=
| EvAcquire                                   (* await this.acquireSemaphore() *)
| EvRelease                                   (* this.releaseSemaphore() *)
| EvSend (pooled : bool) (req : Request)      (* the request leaves: this.client (true) or axios (false) *)
| EvSettle                                    (* the awaited request resolves or rejects *)
| EvWait (delay : Delay)                      (* await setTimeout(delay) *)
| EvLog (path : string) (attempt : Z) (delay : Delay)   (* console.log: computing, attempt n/60 *)
| EvError (what : string)                     (* console.error *)
| EvWarn (path : string).                     (* console.warn: no data after 60 attempts *)

Definition is_send (e : Event) : bool :=
  match e with EvSend _ _ => true | _ => false end.

Definition is_acquire (e : Event) : bool :=
  match e with EvAcquire => true | _ => false end.

Definition is_warn (e : Event) : bool :=
  match e with EvWarn _ => true | _ => false end.

End Http.

(* ------------------------------------------------------------------ *)
(** ** class Queries: the request gatherer *)

Module Queries.
Import Http Types.

(** The fields the admission primitive reads and writes.  A pending admit
    callback is identified by the caller whose promise it resolves; the
    callback itself is [activeRequests++; resolve()].  The user name, the
    token and the axios client decide no branch of the class and are left
    out; the field [semaphore] is written once and never read. *)
Record t : Type := mk {
  maxConnections : Z;
  activeRequests : Z;
  requestQueue : list nat
}.

Definition default_maxConnections : Z := 10.

(** [new Queries(username, accessToken, maxConnections)] *)
Definition create (maxConnections : Z) : t := mk maxConnections 0 [].

(** Returns the new state and whether the promise is resolved at once. *)
Definition acquireSemaphore (caller : nat) (q : t) : t * bool :=
  if activeRequests q <? maxConnections q
  then (mk (maxConnections q) (activeRequests q + 1) (requestQueue q), true)
  else (mk (maxConnections q) (activeRequests q) (requestQueue q ++ [caller]), false).

(** Returns the new state and the caller admitted by the call, if any. *)
Definition releaseSemaphore (q : t) : t * option nat :=
  let active := activeRequests q - 1 in
  match requestQueue q with
  | next :: rest => (mk (maxConnections q) (active + 1) rest, Some next)
  | [] => (mk (maxConnections q) active [], None)
  end.

Definition gql_or_empty (d : option GraphQLResponse) : GraphQLResponse :=
  match d with Some r => r | None => emptyGraphQL end.

(** [query(generatedQuery)]: one slot around the pooled POST; a rejected
    POST is retried once with plain axios, inside the same slot. *)
Definition query (doc : QueryDoc) (script : list (Outcome GraphQLResponse))
  : GraphQLResponse * list Event * list (Outcome GraphQLResponse) :=
  let '(o, script1) := next_outcome script in
  let sent := [EvAcquire; EvSend true (Post doc); EvSettle] in
  match o with
  | Resolved response => (gql_or_empty (data response), sent ++ [EvRelease], script1)
  | Rejected _ =>
      let '(o2, script2) := next_outcome script1 in
      let again := sent ++ [EvError "GraphQL query failed"; EvSend false (Post doc); EvSettle] in
      match o2 with
      | Resolved response => (gql_or_empty (data response), again ++ [EvRelease], script2)
      | Rejected _ =>
          (emptyGraphQL, again ++ [EvError "GraphQL query fallback failed"; EvRelease], script2)
      end
  end.

Definition maxAttempts : nat := 60.

Definition rest_url (path : string) : string :=
  let url := match path with
             | String "/"%char rest => rest
             | _ => path
             end in
  ("https://api.github.com/" ++ url)%string.

(** [Math.min(2000 * Math.pow(1.5, attempt), 10000)] *)
Definition backoff (attempt : nat) : Q :=
  Qmin (2000 * Qpower (3 # 2) (Z.of_nat attempt)) 10000.

(** [retryAfter ? parseInt(retryAfter, 10) * 1000 : backoff] *)
Definition retry_delay (retryAfter : option string) (attempt : nat) : Delay :=
  match retryAfter with
  | Some s =>
      if JS.str_truthy (Some s)
      then option_map (fun n => inject_Z (n * 1000)) (JS.parseInt s)
      else Some (backoff attempt)
  | None => Some (backoff attempt)
  end.

(** The progress line, on the first five attempts and every tenth, then
    the wait. *)
Definition computing (path : string) (attempt : nat) (response : Response RESTData)
  : list Event :=
  let delay := retry_delay (retry_after response) attempt in
  (if (attempt <? 5)%nat || (attempt mod 10 =? 0)%nat
   then [EvLog path (Z.of_nat attempt + 1) delay] else [])
  ++ [EvWait delay].

Definition rest_or_empty (d : option RESTData) : RESTData :=
  match d with Some p => p | None => emptyREST end.

(** How one turn of the [for] loop ends. *)
Inductive Turn : Type :=
| Return (payload : RESTData)
| Continue.

(** The body of the [for] loop of [queryRest], for one value of [attempt]. *)
Definition attempt_body (path : string) (attempt : nat) (script : list (Outcome RESTData))
  : Turn * list Event * list (Outcome RESTData) :=
  let url := rest_url path in
  let '(o, script1) := next_outcome script in
  let sent := [EvAcquire; EvSend true (Get url); EvSettle] in
  match o with
  | Resolved response =>
      if status response =? 202
      then (Continue,
            sent ++ computing path attempt response
                 ++ [EvRelease (* after the wait *); EvRelease (* finally *)],
            script1)
      else (Return (rest_or_empty (data response)), sent ++ [EvRelease], script1)
  | Rejected error =>
      let caught := sent ++ [EvRelease (* first statement of catch *)] in
      match is_202_error error with
      | Some response =>
          (Continue, caught ++ computing path attempt response ++ [EvRelease], script1)
      | None =>
          let '(o2, script2) := next_outcome script1 in
          let again := caught ++ [EvError "REST query failed"; EvSend false (Get url); EvSettle] in
          match o2 with
          | Resolved response =>
              if status response =? 202
              then (Continue, again ++ computing path attempt response ++ [EvRelease], script2)
              else if status response =? 200
              then (Return (rest_or_empty (data response)), again ++ [EvRelease], script2)
              else (Continue, again ++ [EvRelease], script2)
          | Rejected _ => (Continue, again ++ [EvRelease], script2)
          end
      end
  end.

(** The [for] loop with [remaining = maxAttempts - attempt] turns to go,
    then the warning and the empty payload. *)
Fixpoint queryRest_loop (path : string) (remaining attempt : nat)
    (script : list (Outcome RESTData))
  : RESTData * list Event * list (Outcome RESTData) :=
  match remaining with
  | O => (emptyREST, [EvWarn path], script)
  | S remaining' =>
      let '(turn, events, script1) := attempt_body path attempt script in
      match turn with
      | Return payload => (payload, events, script1)
      | Continue =>
          let '(payload, events', script2) :=
            queryRest_loop path remaining' (S attempt) script1 in
          (payload, events ++ events', script2)
      end
  end.

Definition queryRest (path : string) (script : list (Outcome RESTData))
  : RESTData * list Event * list (Outcome RESTData) :=
  queryRest_loop path maxAttempts 0 script.

Definition quote : string := String (ascii_of_nat 34) EmptyString.

(** [cursor === null ? 'null' : `"${cursor}"`] *)
Definition after_arg (cursor : option string) : string :=
  match cursor with
  | None => "null"
  | Some c => (quote ++ c ++ quote)%string
  end.

(** [reposOverview(contribCursor, ownedCursor)]: the owned cursor fills the
    [after:] of [repositories], the contributed cursor the [after:] of
    [repositoriesContributedTo]. *)
Definition reposOverview (contribCursor ownedCursor : option string) : QueryDoc :=
  ReposOverviewDoc (after_arg ownedCursor) (after_arg contribCursor).

Definition contribYears : QueryDoc := ContribYearsDoc.

(** [year${year}: contributionsCollection(from: "${year}-01-01T00:00:00Z",
    to: "${parseInt(year) + 1}-01-01T00:00:00Z")]; the year arrives as the
    decimal text of a number and is kept as that number. *)
Definition contribsByYear (year : Z) : Z * Z :=
  (year, year + 1).

Definition allContribs (years : list Z) : QueryDoc :=
  AllContribsDoc (map contribsByYear years).

End Queries.

(* ------------------------------------------------------------------ *)
(** ** Callers of the gatherer running interleaved

    Each caller is the list of events one call of [query] or [queryRest]
    performs.  The scheduler runs one event of one caller at a time; a
    caller whose [acquireSemaphore] promise is pending cannot run until a
    [releaseSemaphore] resolves it. *)

Module Sched.
Import Http.

Record Task : Type := mkTask {
  pending : list Event;
  waiting : bool;          (* its admit callback sits in requestQueue *)
  holding : bool;          (* admitted, and no releaseSemaphore of its own since *)
  in_flight : bool         (* its pooled request has left and has not settled *)
}.

Record System : Type := mkSystem {
  sem : Queries.t;
  tasks : list Task
}.

Definition spawn (events : list Event) : Task := mkTask events false false false.

Fixpoint update (i : nat) (f : Task -> Task) (ts : list Task) : list Task :=
  match ts, i with
  | [], _ => []
  | task :: rest, O => f task :: rest
  | task :: rest, S j => task :: update j f rest
  end.

(** The admit callback of a waiting caller has run. *)
Definition wake (task : Task) : Task :=
  mkTask (pending task) false true (in_flight task).

(** Caller [i] performs its next event. *)
Definition step (sys : System) (i : nat) : System :=
  match nth_error (tasks sys) i with
  | None => sys
  | Some task =>
      if waiting task then sys
      else
        match pending task with
        | [] => sys
        | ev :: rest =>
            match ev with
            | EvAcquire =>
                let '(q, admitted) := Queries.acquireSemaphore i (sem sys) in
                mkSystem q
                  (update i (fun _ => mkTask rest (negb admitted) admitted (in_flight task))
                     (tasks sys))
            | EvRelease =>
                let '(q, next) := Queries.releaseSemaphore (sem sys) in
                let ts := update i (fun _ => mkTask rest false false (in_flight task))
                            (tasks sys) in
                mkSystem q
                  (match next with
                   | Some j => update j wake ts
                   | None => ts
                   end)
            | EvSend true _ =>
                mkSystem (sem sys)
                  (update i (fun _ => mkTask rest false (holding task) true) (tasks sys))
            | EvSettle =>
                mkSystem (sem sys)
                  (update i (fun _ => mkTask rest false (holding task) false) (tasks sys))
            | _ =>
                mkSystem (sem sys)
                  (update i (fun _ => mkTask rest false (holding task) (in_flight task))
                     (tasks sys))
            end
        end
  end.

Definition run (schedule : list nat) (sys : System) : System :=
  fold_left step schedule sys.

Definition b2z (b : bool) : Z := if b then 1 else 0.

Definition count (p : Task -> bool) (ts : list Task) : Z :=
  Z.of_nat (List.length (filter p ts)).

(** The number of requests sent through the pooled client and not settled. *)
Definition active (sys : System) : Z := count in_flight (tasks sys).

(** The number of callers that hold a slot. *)
Definition holders (sys : System) : Z := count holding (tasks sys).

(** A caller that takes a slot before it sends through the pooled client,
    releases only a slot it holds, and not while its request is out.
    [h]: it holds a slot; [f]: its request is out. *)
Fixpoint bracketed (h f : bool) (evs : list Event) : bool :=
  match evs with
  | [] => true
  | EvAcquire :: rest => negb h && bracketed true f rest
  | EvRelease :: rest => h && negb f && bracketed false false rest
  | EvSend true _ :: rest => h && bracketed h true rest
  | EvSettle :: rest => bracketed h false rest
  | _ :: rest => bracketed h f rest
  end.

(** Calls of the two primitives alone, in the order they happen. *)
Inductive Op : Type :=
| Acquire (caller : nat)
| Release.

(** Runs the calls; returns the final state and the callers admitted, in
    the order of their admission. *)
Fixpoint run_ops (ops : list Op) (q : Queries.t) (admitted : list nat)
  : Queries.t * list nat :=
  match ops with
  | [] => (q, admitted)
  | Acquire caller :: rest =>
      let '(q', now) := Queries.acquireSemaphore caller q in
      run_ops rest q' (if now then admitted ++ [caller] else admitted)
  | Release :: rest =>
      let '(q', next) := Queries.releaseSemaphore q in
      run_ops rest q'
        (match next with Some caller => admitted ++ [caller] | None => admitted end)
  end.

(** The callers that asked, in the order they asked. *)
Fixpoint arrivals (ops : list Op) : list nat :=
  match ops with
  | [] => []
  | Acquire caller :: rest => caller :: arrivals rest
  | Release :: rest => arrivals rest
  end.

End Sched.

(* ------------------------------------------------------------------ *)
(** ** class Stats: the statistics aggregator *)

Module Stats.
Import Http Types.

(** The network as the aggregator meets it, and the events so far. *)
Record World : Type := mkWorld {
  graphql : list (Outcome GraphQLResponse);
  rest : list (Outcome RESTData);
  events : list Event
}.

Record t : Type := mk {
  username : string;
  ignoreForkedRepos : bool;
  excludeRepos : list string;
  excludeLangs : list string;
  _name : option string;
  _stargazers : option Z;
  _forks : option Z;
  _totalContributions : option Z;
  _languages : option (list (string * LanguageData));
  _repos : option (list string);
  _linesChanged : option (Z * Z);
  _views : option Z
}.

(** [new Stats(username, accessToken, excludeRepos, excludeLangs, ignoreForkedRepos)] *)
Definition create (username : string) (excludeRepos excludeLangs : list string)
    (ignoreForkedRepos : bool) : t :=
  mk username ignoreForkedRepos excludeRepos excludeLangs
     None None None None None None None None.

Inductive Result (A : Type) : Type :=
| Ok (value : A)
| Throw (message : string).
Arguments Ok {A}.
Arguments Throw {A}.

(** The four fields [getStats] accumulates into. *)
Record Totals : Type := mkTotals {
  repos : list string;
  stargazers_sum : Z;
  forks_sum : Z;
  langs : list (string * LanguageData)
}.

(** The property names every object literal inherits; [name in obj] is
    true for them although [obj] has no such key of its own. *)
Definition inherited_keys : list string :=
  ["constructor"; "hasOwnProperty"; "isPrototypeOf"; "propertyIsEnumerable";
   "toLocaleString"; "toString"; "valueOf"; "__proto__";
   "__defineGetter__"; "__defineSetter__"; "__lookupGetter__"; "__lookupSetter__"]%string.

Definition own_key (k : string) (o : list (string * LanguageData)) : bool :=
  existsb (fun kv => String.eqb k (fst kv)) o.

(** [o[k].size += n; o[k].occurrences += 1] on an own key. *)
Fixpoint bump (k : string) (n : Z) (o : list (string * LanguageData))
  : list (string * LanguageData) :=
  match o with
  | [] => []
  | (k', v) :: rest =>
      if String.eqb k k'
      then (k', mkLanguageData (lang_size v + n) (occurrences v + 1) (lang_color v) (prop v)) :: rest
      else (k', v) :: bump k n rest
  end.

(** [lang.node?.name || 'Other'] *)
Definition langName (lang : LanguageEdge) : string :=
  match JS.str_or (match node lang with Some n => name n | None => None end)
                  (Some "Other"%string) with
  | Some s => s
  | None => "Other"%string
  end.

(** [lang.node?.color || null] *)
Definition langColor (lang : LanguageEdge) : option string :=
  JS.str_or (match node lang with Some n => color n | None => None end) None.

(** The body of the loop over [repo.languages?.edges].  On an inherited
    key the two updates land on the inherited object and the dictionary
    keeps its own keys.  For the key [__proto__] the inherited object is
    [Object.prototype] itself: this definition says what becomes of the
    dictionary, not that every object then inherits a [size] and an
    [occurrences], on which a later edge of one of these two names makes
    the pass throw; the statements about the entries assume that no edge
    has that name (see [Dict.no_proto]). *)
Definition add_language (excludeLangsLower : list string)
    (o : list (string * LanguageData)) (lang : LanguageEdge)
  : list (string * LanguageData) :=
  let k := langName lang in
  if JS.has excludeLangsLower (JS.toLowerCase k) then o
  else if own_key k o then bump k (JS.num_or (size lang) 0) o
  else if JS.has inherited_keys k then o
  else o ++ [(k, mkLanguageData (JS.num_or (size lang) 0) 1 (langColor lang) None)].

(** The part of the loop body after the two [continue]s: the repository
    is counted. *)
Definition count_repo (excludeLangsLower : list string) (acc : Totals) (repo : Repository)
  : Totals :=
  mkTotals
    (repos acc ++ [nameWithOwner repo])
    (stargazers_sum acc
     + JS.num_or (match stargazers repo with Some s => totalCount s | None => None end) 0)
    (forks_sum acc + JS.num_or (forkCount repo) 0)
    (fold_left (add_language excludeLangsLower)
       (match languages repo with Some edges => edges | None => [] end)
       (langs acc)).

(** The body of [for (const repo of repos)]. *)
Definition visit (excludeRepos excludeLangsLower : list string)
    (acc : Totals) (repo : option Repository) : Totals :=
  match repo with
  | None => acc
  | Some r =>
      if JS.has (repos acc) (nameWithOwner r) || JS.has excludeRepos (nameWithOwner r)
      then acc
      else count_repo excludeLangsLower acc r
  end.

Definition ownedRepos (rawResults : GraphQLResponse) : option RepositoryPage :=
  match viewer rawResults with Some v => repositories v | None => None end.

Definition contribRepos (rawResults : GraphQLResponse) : option RepositoryPage :=
  match viewer rawResults with Some v => repositoriesContributedTo v | None => None end.

Definition page_nodes (page : option RepositoryPage) : option (list (option Repository)) :=
  match page with Some p => nodes p | None => None end.

(** [ownedRepos?.nodes || []], then the contributed-to nodes pushed onto
    it unless forks are ignored. *)
Definition page_repos (ignoreForkedRepos : bool) (rawResults : GraphQLResponse)
  : list (option Repository) :=
  match page_nodes (ownedRepos rawResults) with Some l => l | None => [] end
  ++ (if negb ignoreForkedRepos
      then match page_nodes (contribRepos rawResults) with Some l => l | None => [] end
      else []).

(** [page?.pageInfo?.hasNextPage || false] *)
Definition page_hasNext (page : option RepositoryPage) : bool :=
  match page with
  | Some p =>
      match pageInfo p with
      | Some i => match hasNextPage i with Some b => b | None => false end
      | None => false
      end
  | None => false
  end.

(** [page?.pageInfo?.endCursor] *)
Definition page_endCursor (page : option RepositoryPage) : option string :=
  match page with
  | Some p => match pageInfo p with Some i => endCursor i | None => None end
  | None => None
  end.

Definition hasMore (rawResults : GraphQLResponse) : bool :=
  page_hasNext (ownedRepos rawResults) || page_hasNext (contribRepos rawResults).

(** [data?.viewer?.name || data?.viewer?.login || 'No Name'] *)
Definition resolved_name (rawResults : GraphQLResponse) : option string :=
  JS.str_or (match viewer rawResults with Some v => viewer_name v | None => None end)
    (JS.str_or (match viewer rawResults with Some v => login v | None => None end)
       (Some "No Name"%string)).

(** The [while (hasMorePages)] loop.  [fuel] bounds the number of turns;
    the last component is the value of [hasMorePages] when the function
    returns: [false] when the loop has ended by itself. *)
Fixpoint getStats_loop (fuel : nat) (s : t) (nextOwned nextContrib : option string)
    (name : option string) (acc : Totals) (w : World)
  : option string * Totals * World * bool :=
  match fuel with
  | O => (name, acc, w, true)
  | S fuel' =>
      let '(rawResults, evs, script) :=
        Queries.query (Queries.reposOverview nextOwned nextContrib) (graphql w) in
      let w1 := mkWorld script (rest w) (events w ++ evs) in
      let name1 := resolved_name rawResults in
      let acc1 :=
        fold_left (visit (excludeRepos s) (map JS.toLowerCase (excludeLangs s)))
          (page_repos (ignoreForkedRepos s) rawResults) acc in
      if hasMore rawResults
      then getStats_loop fuel' s
             (JS.str_or (page_endCursor (ownedRepos rawResults)) nextOwned)
             (JS.str_or (page_endCursor (contribRepos rawResults)) nextContrib)
             name1 acc1 w1
      else (name1, acc1, w1, false)
  end.

(** [Object.values(languages).reduce((sum, v) => sum + (v.size || 0), 0)] *)
Definition langsTotal (o : list (string * LanguageData)) : Z :=
  fold_left (fun sum kv => sum + lang_size (snd kv)) o 0.

(** [v.prop = 100 * ((v.size || 0) / langsTotal)] *)
Definition set_prop (total : Z) (kv : string * LanguageData) : string * LanguageData :=
  let v := snd kv in
  (fst kv,
   mkLanguageData (lang_size v) (occurrences v) (lang_color v)
     (Some (JS.scale 100 (JS.div (lang_size v) total)))).

Definition proportions (o : list (string * LanguageData)) : list (string * LanguageData) :=
  map (set_prop (langsTotal o)) o.

(** A page with [hasNextPage] comes out of the script, so every turn but
    the last shortens it: one more turn than the script is long is enough. *)
Definition enough_fuel (w : World) : nat := S (List.length (graphql w)).

Definition getStats_run (s : t) (w : World) : option string * Totals * World * bool :=
  getStats_loop (enough_fuel w) s None None (_name s) (mkTotals [] 0 0 []) w.

Definition getStats (s : t) (w : World) : t * World :=
  let '(name, acc, w1, _) := getStats_run s w in
  (mk (username s) (ignoreForkedRepos s) (excludeRepos s) (excludeLangs s)
      name (Some (stargazers_sum acc)) (Some (forks_sum acc))
      (_totalContributions s) (Some (proportions (langs acc))) (Some (repos acc))
      (_linesChanged s) (_views s),
   w1).

Definition getName (s : t) (w : World) : Result string * t * World :=
  match _name s with
  | Some v => (Ok v, s, w)
  | None =>
      let '(s1, w1) := getStats s w in
      match _name s1 with
      | Some v => (Ok v, s1, w1)
      | None => (Throw "Name is null after getStats", s1, w1)
      end
  end.

Definition getStargazers (s : t) (w : World) : Result Z * t * World :=
  match _stargazers s with
  | Some v => (Ok v, s, w)
  | None =>
      let '(s1, w1) := getStats s w in
      match _stargazers s1 with
      | Some v => (Ok v, s1, w1)
      | None => (Throw "Stargazers is null after getStats", s1, w1)
      end
  end.

Definition getForks (s : t) (w : World) : Result Z * t * World :=
  match _forks s with
  | Some v => (Ok v, s, w)
  | None =>
      let '(s1, w1) := getStats s w in
      match _forks s1 with
      | Some v => (Ok v, s1, w1)
      | None => (Throw "Forks is null after getStats", s1, w1)
      end
  end.

Definition getLanguages (s : t) (w : World)
  : Result (list (string * LanguageData)) * t * World :=
  match _languages s with
  | Some v => (Ok v, s, w)
  | None =>
      let '(s1, w1) := getStats s w in
      match _languages s1 with
      | Some v => (Ok v, s1, w1)
      | None => (Throw "Languages is null after getStats", s1, w1)
      end
  end.

(** [result[k] = v.prop || 0] for every entry. *)
Definition proportional (o : list (string * LanguageData)) : list (string * JS.num) :=
  map (fun kv => (fst kv, JS.or_zero (prop (snd kv)))) o.

Definition getLanguagesProportional (s : t) (w : World)
  : Result (list (string * JS.num)) * t * World :=
  match _languages s with
  | Some v => (Ok (proportional v), s, w)
  | None =>
      let '(s1, w1) := getStats s w in
      match _languages s1 with
      | Some v => (Ok (proportional v), s1, w1)
      | None => (Throw "Languages is null after getStats", s1, w1)
      end
  end.

Definition getRepos (s : t) (w : World) : Result (list string) * t * World :=
  match _repos s with
  | Some v => (Ok v, s, w)
  | None =>
      let '(s1, w1) := getStats s w in
      match _repos s1 with
      | Some v => (Ok v, s1, w1)
      | None => (Throw "Repos is null after getStats", s1, w1)
      end
  end.

Definition set_totalContributions (s : t) (v : Z) : t :=
  mk (username s) (ignoreForkedRepos s) (excludeRepos s) (excludeLangs s)
     (_name s) (_stargazers s) (_forks s) (Some v) (_languages s) (_repos s)
     (_linesChanged s) (_views s).

Definition set_linesChanged (s : t) (v : Z * Z) : t :=
  mk (username s) (ignoreForkedRepos s) (excludeRepos s) (excludeLangs s)
     (_name s) (_stargazers s) (_forks s) (_totalContributions s) (_languages s)
     (_repos s) (Some v) (_views s).

Definition set_views (s : t) (v : Z) : t :=
  mk (username s) (ignoreForkedRepos s) (excludeRepos s) (excludeLangs s)
     (_name s) (_stargazers s) (_forks s) (_totalContributions s) (_languages s)
     (_repos s) (_linesChanged s) (Some v).

(** [contributionCalendar?.totalContributions || 0] of one value of the
    viewer object. *)
Definition contribs_of (c : ContributionsCollection) : Z :=
  JS.num_or (match contributionCalendar c with
             | Some cal => totalContributions cal
             | None => None
             end) 0.

(** [Object.values(data?.viewer || {})], restricted to the values that
    have a [contributionCalendar] to read: the other declared fields
    (strings and pages) add [0] to the sum. *)
Definition viewer_values (r : GraphQLResponse) : list ContributionsCollection :=
  match viewer r with
  | Some v =>
      match contributionsCollection v with Some c => [c] | None => [] end
      ++ map snd (by_alias v)
  | None => []
  end.

Definition getTotalContributions (s : t) (w : World) : Result Z * t * World :=
  match _totalContributions s with
  | Some v => (Ok v, s, w)
  | None =>
      let '(yearsResponse, evs1, script1) := Queries.query Queries.contribYears (graphql w) in
      let years :=
        match viewer yearsResponse with
        | Some v =>
            match contributionsCollection v with
            | Some c => match contributionYears c with Some l => l | None => [] end
            | None => []
            end
        | None => []
        end in
      let '(byYearResponse, evs2, script2) :=
        Queries.query (Queries.allContribs years) script1 in
      let total :=
        fold_left (fun sum year => sum + contribs_of year) (viewer_values byYearResponse) 0 in
      (Ok total, set_totalContributions s total,
       mkWorld script2 (rest w) (events w ++ evs1 ++ evs2))
  end.

(** [Array.isArray(r) ? r : [r]] *)
Definition contributors (r : RESTData) : list (option RESTResponse) :=
  match r with
  | RArray items => items
  | RObject o => [Some o]
  end.

(** The body of [for (const authorObj of contributors)]. *)
Definition add_author (username : string) (acc : Z * Z) (authorObj : option RESTResponse)
  : Z * Z :=
  match authorObj with
  | None => acc
  | Some o =>
      match author o with
      | None => acc
      | Some au =>
          let who := match JS.str_or (author_login au) (Some EmptyString) with
                     | Some l => l
                     | None => EmptyString
                     end in
          if negb (String.eqb who username) then acc
          else
            fold_left
              (fun ad week => (fst ad + JS.num_or (a week) 0, snd ad + JS.num_or (d week) 0))
              (match weeks o with Some l => l | None => [] end)
              acc
      end
  end.

(** The loop over the repositories in [getLinesChanged]. *)
Fixpoint linesChanged_loop (username : string) (repos : list string) (acc : Z * Z) (w : World)
  : Z * Z * World :=
  match repos with
  | [] => (acc, w)
  | repo :: more =>
      let '(r, evs, script) :=
        Queries.queryRest ("/repos/" ++ repo ++ "/stats/contributors")%string (rest w) in
      linesChanged_loop username more
        (fold_left (add_author username) (contributors r) acc)
        (mkWorld (graphql w) script (events w ++ evs))
  end.

Definition getLinesChanged (s : t) (w : World) : Result (Z * Z) * t * World :=
  match _linesChanged s with
  | Some v => (Ok v, s, w)
  | None =>
      let '(repos, s1, w1) := getRepos s w in
      match repos with
      | Throw m => (Throw m, s1, w1)
      | Ok repos =>
          let '(acc, w2) := linesChanged_loop (username s1) repos (0, 0) w1 in
          (Ok acc, set_linesChanged s1 acc, w2)
      end
  end.

(** [Array.isArray(r) ? r[0] : r]; [None] when the element is missing or
    null, and reading [.views] of it throws. *)
Definition first_response (r : RESTData) : option RESTResponse :=
  match r with
  | RArray [] => None
  | RArray (item :: _) => item
  | RObject o => Some o
  end.

(** The loop over the repositories in [getViews]; [None] when a turn
    throws the [TypeError]. *)
Fixpoint views_loop (repos : list string) (total : Z) (w : World) : option Z * World :=
  match repos with
  | [] => (Some total, w)
  | repo :: more =>
      let '(r, evs, script) :=
        Queries.queryRest ("/repos/" ++ repo ++ "/traffic/views")%string (rest w) in
      let w1 := mkWorld (graphql w) script (events w ++ evs) in
      match first_response r with
      | None => (None, w1)
      | Some response =>
          views_loop more
            (fold_left (fun sum view => sum + JS.num_or (count view) 0)
               (match views response with Some l => l | None => [] end)
               total)
            w1
      end
  end.

Definition getViews (s : t) (w : World) : Result Z * t * World :=
  match _views s with
  | Some v => (Ok v, s, w)
  | None =>
      let '(repos, s1, w1) := getRepos s w in
      match repos with
      | Throw m => (Throw m, s1, w1)
      | Ok repos =>
          match views_loop repos 0 w1 with
          | (Some total, w2) => (Ok total, set_views s1 total, w2)
          | (None, w2) => (Throw "TypeError: cannot read properties of undefined", s1, w2)
          end
      end
  end.

(** The nine accessors and what they return. *)
Inductive Accessor : Type :=
| GetName | GetStargazers | GetForks | GetLanguages | GetLanguagesProportional
| GetRepos | GetTotalContributions | GetLinesChanged | GetViews.

Inductive Value : Type :=
| VString (v : string)
| VNumber (v : Z)
| VLanguages (v : list (string * LanguageData))
| VProportional (v : list (string * JS.num))
| VRepos (v : list string)
| VLines (v : Z * Z).

Definition lift {A} (inj : A -> Value) (r : Result A * t * World) : Result Value * t * World :=
  let '(res, s, w) := r in
  (match res with Ok v => Ok (inj v) | Throw m => Throw m end, s, w).

Definition call (acc : Accessor) (s : t) (w : World) : Result Value * t * World :=
  match acc with
  | GetName => lift VString (getName s w)
  | GetStargazers => lift VNumber (getStargazers s w)
  | GetForks => lift VNumber (getForks s w)
  | GetLanguages => lift VLanguages (getLanguages s w)
  | GetLanguagesProportional => lift VProportional (getLanguagesProportional s w)
  | GetRepos => lift VRepos (getRepos s w)
  | GetTotalContributions => lift VNumber (getTotalContributions s w)
  | GetLinesChanged => lift VLines (getLinesChanged s w)
  | GetViews => lift VNumber (getViews s w)
  end.

(** A sequence of accessor calls, each awaited before the next. *)
Fixpoint calls (accs : list Accessor) (s : t) (w : World) : t * World :=
  match accs with
  | [] => (s, w)
  | acc :: more => let '(_, s1, w1) := call acc s w in calls more s1 w1
  end.

(** The stored value an accessor reads once its field is set. *)
Definition stored (acc : Accessor) (s : t) : option Value :=
  match acc with
  | GetName => option_map VString (_name s)
  | GetStargazers => option_map VNumber (_stargazers s)
  | GetForks => option_map VNumber (_forks s)
  | GetLanguages => option_map VLanguages (_languages s)
  | GetLanguagesProportional => option_map (fun o => VProportional (proportional o)) (_languages s)
  | GetRepos => option_map VRepos (_repos s)
  | GetTotalContributions => option_map VNumber (_totalContributions s)
  | GetLinesChanged => option_map VLines (_linesChanged s)
  | GetViews => option_map VNumber (_views s)
  end.

End Stats.

(* ------------------------------------------------------------------ *)
(** ** Vocabulary of the properties, and the inputs of the examples *)

Module Props.
Import Http Types.

Definition count_events (p : Event -> bool) (evs : list Event) : nat :=
  List.length (filter p evs).

(** The number of [setTimeout] waits a caller sits through while it holds
    a slot: after an [acquireSemaphore] and before the next
    [releaseSemaphore]. *)
Fixpoint waits_holding (holding : bool) (evs : list Event) : nat :=
  match evs with
  | [] => O
  | EvAcquire :: rest => waits_holding true rest
  | EvRelease :: rest => waits_holding false rest
  | EvWait _ :: rest => (if holding then 1 else 0) + waits_holding holding rest
  | _ :: rest => waits_holding holding rest
  end.

(** The net change of [activeRequests] a caller that is never made to wait
    causes: [+1] per acquire, [-1] per release. *)
Fixpoint slot_balance (evs : list Event) : Z :=
  match evs with
  | [] => 0
  | EvAcquire :: rest => 1 + slot_balance rest
  | EvRelease :: rest => slot_balance rest - 1
  | _ :: rest => slot_balance rest
  end.

(** The queries posted, in order. *)
Fixpoint posted (evs : list Event) : list QueryDoc :=
  match evs with
  | [] => []
  | EvSend _ (Post doc) :: rest => doc :: posted rest
  | _ :: rest => posted rest
  end.

(** An HTTP 202 answer, delivered as a resolved response or as the
    response of an axios error. *)
Definition computing_answer (viaError : bool) (retryAfter : option string)
    (body : option RESTData) : Outcome RESTData :=
  if viaError
  then Rejected (AxiosError (Some (mkResponse 202 retryAfter body)))
  else Resolved (mkResponse 202 retryAfter body).

Definition Busy : Type := (bool * option string * option RESTData)%type.

Definition busy_answer (b : Busy) : Outcome RESTData :=
  let '(viaError, retryAfter, body) := b in computing_answer viaError retryAfter body.

(** An HTTP 200 answer with a decoded payload. *)
Definition ok_answer (payload : RESTData) : Outcome RESTData :=
  Resolved (mkResponse 200 None (Some payload)).

(** What the turn of the loop does on a 202 answer. *)
Definition busy_events (path : string) (attempt : nat) (b : Busy) : list Event :=
  snd (fst (Queries.attempt_body path attempt [busy_answer b])).

Fixpoint all_busy_events (path : string) (attempt : nat) (bs : list Busy) : list Event :=
  match bs with
  | [] => []
  | b :: more => busy_events path attempt b ++ all_busy_events path (S attempt) more
  end.

(** One caller alone on the gatherer performs its events in order; [None]
    when an [acquireSemaphore] leaves it waiting, for nobody is there to
    release. *)
Fixpoint alone (q : Queries.t) (evs : list Event) : option Queries.t :=
  match evs with
  | [] => Some q
  | EvAcquire :: rest =>
      let '(q', now) := Queries.acquireSemaphore O q in
      if now then alone q' rest else None
  | EvRelease :: rest => alone (fst (Queries.releaseSemaphore q)) rest
  | _ :: rest => alone q rest
  end.

(** A free slot and nobody waiting. *)
Definition has_room (q : Queries.t) : Prop :=
  Queries.activeRequests q < Queries.maxConnections q /\ Queries.requestQueue q = [].

(** Events that one caller alone, on a gatherer with room, performs
    without waiting, leaving room. *)
Definition unhindered (evs : list Event) : Prop :=
  forall q, Props.has_room q -> exists q', Props.alone q evs = Some q' /\ Props.has_room q'.

(** The later world has the events of the earlier one, then such events. *)
Definition extends (w w' : Stats.World) : Prop :=
  exists evs, Stats.events w' = Stats.events w ++ evs /\ unhindered evs.

(** Eleven callers of a gatherer of the default capacity: one in
    [queryRest] on a repository whose statistics are still being computed,
    ten in [query]. *)
Definition rest_caller : list Event :=
  snd (fst (Queries.queryRest "/repos/u/a/stats/contributors"
              (repeat (computing_answer false None None) 10 ++ [ok_answer emptyREST]))).

Definition graphql_caller : list Event :=
  snd (fst (Queries.query Queries.contribYears
              [Resolved (mkResponse 200 None (Some emptyGraphQL))])).

Definition eleven_callers : Sched.System :=
  Sched.mkSystem (Queries.create Queries.default_maxConnections)
    (Sched.spawn rest_caller :: repeat (Sched.spawn graphql_caller) 10).

(** Caller 0 receives ten 202 answers, one by one, and sends its eleventh
    request; then each of the callers 1 to 10 acquires a slot and sends. *)
Definition eleven_schedule : list nat :=
  repeat O 67 ++ flat_map (fun i => [i; i]) (seq 1 10).

(** The same with capacity 1 and two callers. *)
Definition two_callers : Sched.System :=
  Sched.mkSystem (Queries.create 1)
    [Sched.spawn rest_caller; Sched.spawn graphql_caller].

Definition two_schedule : list nat := repeat O 9 ++ [1; 1]%nat.

(** What a call of [query] returns and what it leaves of the script;
    neither depends on the text of the query. *)
Definition answer (script : list (Outcome GraphQLResponse))
  : GraphQLResponse * list (Outcome GraphQLResponse) :=
  let '(r, _, unread) := Queries.query Queries.contribYears script in (r, unread).

(** The responses the [while] loop of [getStats] reads, in order. *)
Fixpoint pages_read (fuel : nat) (script : list (Outcome GraphQLResponse))
  : list GraphQLResponse :=
  match fuel with
  | O => []
  | S fuel' =>
      let '(raw, unread) := answer script in
      raw :: (if Stats.hasMore raw then pages_read fuel' unread else [])
  end.

(** The repository nodes [getStats] iterates over, page after page. *)
Definition repos_read (s : Stats.t) (w : Stats.World) : list (option Repository) :=
  flat_map (Stats.page_repos (Stats.ignoreForkedRepos s))
    (pages_read (Stats.enough_fuel w) (Stats.graphql w)).

Definition names_of (l : list (option Repository)) : list string :=
  flat_map (fun r => match r with Some x => [nameWithOwner x] | None => [] end) l.

(** Of a list of nodes, the first node of every name that is neither in
    [seen] nor excluded. *)
Fixpoint counted_from (excludeRepos seen : list string) (l : list (option Repository))
  : list Repository :=
  match l with
  | [] => []
  | None :: rest => counted_from excludeRepos seen rest
  | Some r :: rest =>
      if JS.has seen (nameWithOwner r) || JS.has excludeRepos (nameWithOwner r)
      then counted_from excludeRepos seen rest
      else r :: counted_from excludeRepos (seen ++ [nameWithOwner r]) rest
  end.

Definition counted (excludeRepos : list string) (l : list (option Repository))
  : list Repository :=
  counted_from excludeRepos [] l.

Definition stars_of (r : Repository) : Z :=
  JS.num_or (match stargazers r with Some sg => totalCount sg | None => None end) 0.

Definition forks_of (r : Repository) : Z := JS.num_or (forkCount r) 0.

Definition edges_of (r : Repository) : list LanguageEdge :=
  match languages r with Some edges => edges | None => [] end.

Definition total {A} (f : A -> Z) (l : list A) : Z :=
  fold_right (fun x sum => f x + sum) 0 l.

(** [v.prop] as an operand of a sum: a missing [prop] is [undefined] and
    makes the sum [NaN]. *)
Definition prop_of (v : LanguageData) : JS.num :=
  match prop v with Some x => x | None => JS.NaN end.

(** The percentages added up as JavaScript does it:
    [Object.values(o).reduce((sum, v) => sum + v.prop, 0)]. *)
Definition sum_props (o : list (string * LanguageData)) : JS.num :=
  fold_left (fun sum kv => JS.add sum (prop_of (snd kv))) o (JS.Finite 0).

(** The percentages add up to 100 within 1e-6. *)
Definition sums_to_100 (o : list (string * LanguageData)) : Prop :=
  exists q, sum_props o = JS.Finite q /\ (Qabs (q - 100) <= 1 # 1000000)%Q.

(** The sum of the percentages as real numbers, when all are finite. *)
Fixpoint real_sum (o : list (string * LanguageData)) : option Q :=
  match o with
  | [] => Some 0%Q
  | kv :: rest =>
      match prop (snd kv), real_sum rest with
      | Some (JS.Finite p), Some q => Some (p + q)%Q
      | _, _ => None
      end
  end.

(** The total of the sizes added up as JavaScript does it:
    [Object.values(o).reduce((sum, v) => sum + (v.size || 0), 0)] in
    binary64. *)
Definition langsTotal64 (o : list (string * LanguageData)) : JS.num :=
  fold_left (fun sum kv => JS.add sum (JS.Finite (inject_Z (lang_size (snd kv))))) o
    (JS.Finite 0).

(** No language edge has a negative size. *)
Definition sizes_not_negative (edges : list LanguageEdge) : bool :=
  forallb (fun e => 0 <=? JS.num_or (size e) 0) edges.

(** A field that was set still holds the same value. *)
Definition kept {A} (before after : option A) : Prop :=
  match before with
  | Some _ => after = before
  | None => True
  end.




(** A language edge without a node, or whose node has no name. *)
Definition unnamed (lang : LanguageEdge) : bool :=
  match node lang with
  | Some n => negb (JS.str_truthy (name n))
  | None => true
  end.

Definition repo (n : string) (stars forks : Z) (sizes : list (string * Z)) : option Repository :=
  Some (mkRepository n (Some (mkStargazers (Some stars))) (Some forks)
          (Some (map (fun kv => mkLanguageEdge (Some (snd kv))
                                  (Some (mkLanguageNode (Some (fst kv)) None)))
                     sizes))).

Definition page (items : list (option Repository)) (more : bool) (cursor : option string)
  : option RepositoryPage :=
  Some (mkRepositoryPage (Some (mkPageInfo (Some more) cursor)) (Some items)).

Definition overview (viewerName : option string) (owned contrib : option RepositoryPage)
  : Outcome GraphQLResponse :=
  Resolved (mkResponse 200 None
              (Some (mkGraphQLResponse
                       (Some (mkViewer (Some "u"%string) viewerName owned contrib None []))))).

Definition user : Stats.t := Stats.create "u" [] [] false.

(** The two pages of the end-to-end example of the specification; the
    owned source ends its first page at cursor O1, the contributed-to
    source at cursor C1. *)
Definition two_pages : Stats.World :=
  Stats.mkWorld
    [overview None
       (page [repo "u/a" 5 1 [("TS", 100)]%string] true (Some "O1"%string))
       (page [] false (Some "C1"%string));
     overview None
       (page [repo "u/b" 3 0 [("TS", 50); ("JS", 50)]%string] false None)
       (page [] false None)]
    [] [].

(** One repository whose only language edge has size 0. *)
Definition empty_file_only : Stats.World :=
  Stats.mkWorld
    [overview None (page [repo "u/a" 0 0 [("TS", 0)]%string] false None) None]
    [] [].

(** One repository with one byte of TS and two of JS. *)
Definition thirds : Stats.World :=
  Stats.mkWorld
    [overview None (page [repo "u/a" 0 0 [("TS", 1); ("JS", 2)]%string] false None) None]
    [] [].

(** One repository with two languages, one of a negative size; the sizes
    add up to 1. *)
Definition negative_size : Stats.World :=
  Stats.mkWorld
    [overview None
       (page [repo "u/a" 0 0 [("TS", 4503599627370497); ("JS", -4503599627370496)]%string]
          false None)
       None]
    [] [].


(** One repository with one language edge that has no node. *)
Definition nameless_language : Stats.World :=
  Stats.mkWorld
    [overview None
       (page [Some (mkRepository "u/a" None None
                      (Some [mkLanguageEdge (Some 7) None;
                             mkLanguageEdge (Some 21)
                               (Some (mkLanguageNode (Some "TS"%string) None))]))]
             false None)
       None]
    [] [].

(** What holds of every caller while the callers are bracketed: what it
    has left to do is bracketed, its request is out only while it holds a
    slot, and it does not hold one while it waits. *)
Definition task_ok (t : Sched.Task) : Prop :=
  Sched.bracketed (Sched.holding t || Sched.waiting t) (Sched.in_flight t) (Sched.pending t) = true
  /\ (Sched.in_flight t = true -> Sched.holding t = true)
  /\ (Sched.waiting t = true -> Sched.holding t = false).

(** The callers in the queue wait, once each; the counter is the number
    of callers holding a slot and is within the capacity. *)
Definition sound (sys : Sched.System) : Prop :=
  (forall i t, nth_error (Sched.tasks sys) i = Some t -> task_ok t)
  /\ (forall j, In j (Queries.requestQueue (Sched.sem sys)) ->
        exists t, nth_error (Sched.tasks sys) j = Some t /\ Sched.waiting t = true)
  /\ NoDup (Queries.requestQueue (Sched.sem sys))
  /\ Queries.activeRequests (Sched.sem sys) = Sched.holders sys
  /\ Queries.activeRequests (Sched.sem sys) <= Queries.maxConnections (Sched.sem sys).

(** While somebody waits, the gatherer is full: a newcomer cannot pass
    the callers that wait. *)
Definition full_while_waiting (q : Queries.t) : Prop :=
  Queries.requestQueue q = [] \/ Queries.maxConnections q <= Queries.activeRequests q.

End Props.

(* ------------------------------------------------------------------ *)
(** ** What a call of the gatherer leaves in the trace *)

Module Calls.
Import Http Types.

Definition is_log (e : Event) : bool :=
  match e with EvLog _ _ _ => true | _ => false end.

Definition is_wait (e : Event) : bool :=
  match e with EvWait _ => true | _ => false end.

Definition is_release (e : Event) : bool :=
  match e with EvRelease => true | _ => false end.

Definition is_pooled_send (e : Event) : bool :=
  match e with EvSend true _ => true | _ => false end.

(** A rejection that is not the response of a 202. *)
Definition is_failure (e : Failure RESTData) : bool :=
  match is_202_error e with Some _ => false | None => true end.

(** What the fallback call of a turn may bring without ending the call: a
    rejection, or a response that is neither 200 nor 202. *)
Definition is_useless (o : Outcome RESTData) : bool :=
  match o with
  | Rejected _ => true
  | Resolved r => negb (status r =? 202) && negb (status r =? 200)
  end.

(** A turn lost to the transport: the pooled call is rejected, the
    fallback brings nothing. *)
Definition lost_turn (t : Failure RESTData * Outcome RESTData) : bool :=
  is_failure (fst t) && is_useless (snd t).

Definition lost_answers (ts : list (Failure RESTData * Outcome RESTData))
  : list (Outcome RESTData) :=
  flat_map (fun t => [Rejected (fst t); snd t]) ts.

(** The first response among some outcomes. *)
Fixpoint first_resolved {A} (l : list (Outcome A)) : option (Response A) :=
  match l with
  | [] => None
  | Resolved r :: _ => Some r
  | Rejected _ :: rest => first_resolved rest
  end.

(** The progress lines of the turns [attempt], [attempt + 1], ... *)
Fixpoint logged (attempt turns : nat) : nat :=
  match turns with
  | O => O
  | S turns' =>
      ((if (attempt <? 5)%nat || (attempt mod 10 =? 0)%nat then 1 else 0)
       + logged (S attempt) turns')%nat
  end.

(** The text of a run of decimal digits, and the number it denotes. *)
Fixpoint digits_text (ds : list nat) : string :=
  match ds with
  | [] => EmptyString
  | d :: rest => String (ascii_of_nat (48 + d)) (digits_text rest)
  end.

Definition digits_value (ds : list nat) : Z :=
  fold_left (fun acc d => 10 * acc + Z.of_nat d) ds 0.

Definition starts_with_digit (s : string) : bool :=
  match s with
  | String c _ => JS.is_digit c
  | EmptyString => false
  end.

(** [Math.pow(1.5, attempt)] *)
Definition growth (attempt : nat) : Q := Qpower (3 # 2) (Z.of_nat attempt).

End Calls.

(* ------------------------------------------------------------------ *)
(** ** The language dictionary, entry by entry *)

Module Dict.
Import Http Types.

(** [o[k]] on the dictionary's own keys. *)
Definition lookup (k : string) (o : list (string * LanguageData)) : option LanguageData :=
  option_map snd (find (fun kv => String.eqb k (fst kv)) o).

(** The edges counted under the key [k]. *)
Definition edges_named (k : string) (edges : list LanguageEdge) : list LanguageEdge :=
  filter (fun e => String.eqb k (Stats.langName e)) edges.

Definition edge_size (e : LanguageEdge) : Z := JS.num_or (size e) 0.

(** The key is dropped: excluded up to case, or shadowed by an inherited
    property. *)
Definition dropped (lower : list string) (k : string) : bool :=
  JS.has lower (JS.toLowerCase k) || JS.has Stats.inherited_keys k.

(** Size, occurrences and colour of an entry. *)
Definition summary (v : LanguageData) : Z * Z * option string :=
  (lang_size v, occurrences v, lang_color v).

(** The edges that enter the aggregate. *)
Definition retained (lower : list string) (edges : list LanguageEdge) : list LanguageEdge :=
  filter (fun e => negb (dropped lower (Stats.langName e))) edges.

(** No edge is named [__proto__], the one name under which the pass
    writes on [Object.prototype]. *)
Definition no_proto (edges : list LanguageEdge) : bool :=
  forallb (fun e => negb (String.eqb (Stats.langName e) "__proto__")) edges.

(** The edge has no name, or its name is the word [Other] itself. *)
Definition is_Other (e : LanguageEdge) : bool :=
  Props.unnamed e
  || match node e with
     | Some n => match name n with Some x => String.eqb x "Other" | None => false end
     | None => false
     end.

(** The edges without a name (and those named [Other]), and the others. *)
Definition under_Other (edges : list LanguageEdge) : list LanguageEdge :=
  filter is_Other edges.

Definition named_otherwise (edges : list LanguageEdge) : list LanguageEdge :=
  filter (fun e => negb (is_Other e)) edges.

(** No key of the dictionary is the name of an inherited property. *)
Definition plain_keys (o : list (string * LanguageData)) : bool :=
  forallb (fun kv => negb (JS.has Stats.inherited_keys (fst kv))) o.

End Dict.

(* ------------------------------------------------------------------ *)
(** ** What the aggregator asks for and what it reads *)

Module Reads.
Import Http Types.

(** The queries posted through the pooled client, in order. *)
Fixpoint pooled_posts (evs : list Event) : list QueryDoc :=
  match evs with
  | [] => []
  | EvSend true (Post doc) :: rest => doc :: pooled_posts rest
  | _ :: rest => pooled_posts rest
  end.

(** The cursor a source is left with after some pages: the last end
    cursor that was neither null nor empty, if any. *)
Definition last_cursor (source : GraphQLResponse -> option RepositoryPage)
    (pages : list GraphQLResponse) (start : option string) : option string :=
  fold_left (fun cursor raw => JS.str_or (Stats.page_endCursor (source raw)) cursor)
    pages start.

(** The query of each turn, from the pages read and the cursors at the
    start. *)
Fixpoint queries_for (pages : list GraphQLResponse) (nextOwned nextContrib : option string)
  : list QueryDoc :=
  match pages with
  | [] => []
  | raw :: rest =>
      Queries.reposOverview nextOwned nextContrib
      :: queries_for rest
           (JS.str_or (Stats.page_endCursor (Stats.ownedRepos raw)) nextOwned)
           (JS.str_or (Stats.page_endCursor (Stats.contribRepos raw)) nextContrib)
  end.

(** [ownedRepos?.nodes || []] *)
Definition owned_nodes (raw : GraphQLResponse) : list (option Repository) :=
  match Stats.page_nodes (Stats.ownedRepos raw) with Some l => l | None => [] end.

(** [contribRepos?.nodes || []] *)
Definition contributed_nodes (raw : GraphQLResponse) : list (option Repository) :=
  match Stats.page_nodes (Stats.contribRepos raw) with Some l => l | None => [] end.

(** The repository nodes the pass is to go over, page after page: on each
    page the nodes of the owned source, then those of the contributed-to
    source unless forks are ignored. *)
Definition nodes_on (ignoreForkedRepos : bool) (pages : list GraphQLResponse)
  : list (option Repository) :=
  flat_map (fun raw =>
              owned_nodes raw ++ (if ignoreForkedRepos then [] else contributed_nodes raw))
    pages.

(** Two pages with repositories of both sources: [u/a] and [v/b] come
    twice, on one page and over the two pages, [u/x] is on both pages. *)
Definition mixed_pages : Stats.World :=
  Stats.mkWorld
    [Props.overview None
       (Props.page [Props.repo "u/a" 5 1 [("TS", 100)]%string; None;
                    Props.repo "u/x" 100 50 [("C", 1000)]%string] true (Some "O1"%string))
       (Props.page [Props.repo "v/b" 7 2 [("TS", 20)]%string;
                    Props.repo "u/a" 5 1 [("TS", 100)]%string] true (Some "C1"%string));
     Props.overview None
       (Props.page [Props.repo "u/c" 3 0 [("JS", 30)]%string;
                    Props.repo "u/x" 100 50 [("C", 1000)]%string] false None)
       (Props.page [Props.repo "v/b" 7 2 [("TS", 20)]%string;
                    Props.repo "v/d" 2 4 []] false None)]
    [] [].

(** The same aggregator with the contributed-to repositories counted. *)
Definition with_forks (s : Stats.t) : Stats.t :=
  Stats.mk (Stats.username s) false (Stats.excludeRepos s) (Stats.excludeLangs s)
    (Stats._name s) (Stats._stargazers s) (Stats._forks s) (Stats._totalContributions s)
    (Stats._languages s) (Stats._repos s) (Stats._linesChanged s) (Stats._views s).

(** [data?.viewer?.contributionsCollection?.contributionYears || []] *)
Definition contribution_years (r : GraphQLResponse) : list Z :=
  match viewer r with
  | Some v =>
      match contributionsCollection v with
      | Some c => match contributionYears c with Some l => l | None => [] end
      | None => []
      end
  | None => []
  end.

(** The entry is an object whose author is an object with the login of
    the user. *)
Definition by_user (username : string) (item : option RESTResponse) : bool :=
  match item with
  | Some o =>
      match author o with
      | Some au =>
          String.eqb
            (match JS.str_or (author_login au) (Some EmptyString) with
             | Some l => l
             | None => EmptyString
             end)
            username
      | None => false
      end
  | None => false
  end.

Definition item_weeks (item : option RESTResponse) : list Week :=
  match item with
  | Some o => match weeks o with Some l => l | None => [] end
  | None => []
  end.

Definition additions (item : option RESTResponse) : Z :=
  Props.total (fun week => JS.num_or (a week) 0) (item_weeks item).

Definition deletions (item : option RESTResponse) : Z :=
  Props.total (fun week => JS.num_or (d week) 0) (item_weeks item).

(** What [queryRest] returns for each path in turn, each call reading the
    script where the call before left it. *)
Fixpoint payloads (paths : list string) (script : list (Outcome RESTData)) : list RESTData :=
  match paths with
  | [] => []
  | path :: more =>
      let '(r, _, unread) := Queries.queryRest path script in r :: payloads more unread
  end.

Definition contributors_path (repo : string) : string :=
  ("/repos/" ++ repo ++ "/stats/contributors")%string.

Definition views_path (repo : string) : string :=
  ("/repos/" ++ repo ++ "/traffic/views")%string.

(** The view counts of a payload: of the object, or of the first element
    of the array. *)
Definition view_counts (r : RESTData) : Z :=
  match Stats.first_response r with
  | Some response =>
      Props.total (fun view => JS.num_or (count view) 0)
        (match views response with Some l => l | None => [] end)
  | None => 0
  end.

Definition readable (r : RESTData) : bool :=
  match Stats.first_response r with Some _ => true | None => false end.

Definition is_rejected {A} (o : Outcome A) : bool :=
  match o with Rejected _ => true | Resolved _ => false end.

(** What each accessor returns when there is nothing to count. *)
Definition neutral (acc : Stats.Accessor) : Stats.Value :=
  match acc with
  | Stats.GetName => Stats.VString "No Name"
  | Stats.GetStargazers | Stats.GetForks | Stats.GetTotalContributions | Stats.GetViews =>
      Stats.VNumber 0
  | Stats.GetLanguages => Stats.VLanguages []
  | Stats.GetLanguagesProportional => Stats.VProportional []
  | Stats.GetRepos => Stats.VRepos []
  | Stats.GetLinesChanged => Stats.VLines (0, 0)
  end.


(** The URLs of the GET requests of a trace, in order; a request sent
    again after a 202 or through the fallback is there again. *)
Fixpoint gets (evs : list Event) : list string :=
  match evs with
  | [] => []
  | EvSend _ (Get url) :: rest => url :: gets rest
  | _ :: rest => gets rest
  end.

Definition contributors_url (repo : string) : string :=
  ("https://api.github.com/repos/" ++ repo ++ "/stats/contributors")%string.

Definition views_url (repo : string) : string :=
  ("https://api.github.com/repos/" ++ repo ++ "/traffic/views")%string.

(** The requests of one call after the other: the URL of each repository
    as many times as its call sends it. *)
Definition asked (url : string -> string) (repos : list string) (times : list nat)
  : list string :=
  flat_map (fun rt => repeat (url (fst rt)) (snd rt)) (combine repos times).

(** The number of payloads before the first that cannot be read. *)
Fixpoint readable_prefix (ps : list RESTData) : nat :=
  match ps with
  | [] => O
  | r :: rest => if Reads.readable r then S (readable_prefix rest) else O
  end.

(** An aggregator that has run its pass over one repository. *)
Definition after_pass (repos : list string) : Stats.t :=
  Stats.mk "u" false [] [] (Some "u"%string) (Some 0) (Some 0) None (Some [])
    (Some repos) None None.

End Reads.

(* ------------------------------------------------------------------ *)
(** ** The image generator: configuration and the languages image *)

Module Images.
Import Types.

(** The environment variables [main] reads; a variable that is not set is
    [None].  The values are ASCII text. *)
Record Env : Type := mkEnv {
  ACCESS_TOKEN : option string;
  GITHUB_ACTOR : option string;
  EXCLUDED : option string;
  EXCLUDED_LANGS : option string;
  EXCLUDE_FORKED_REPOS : option string
}.

(** [s.split(sep)] for a separator of one character. *)
Fixpoint split (sep : ascii) (s : string) : list string :=
  match s with
  | EmptyString => [EmptyString]
  | String c rest =>
      if Ascii.eqb c sep then EmptyString :: split sep rest
      else match split sep rest with
           | piece :: pieces => String c piece :: pieces
           | [] => [String c EmptyString]
           end
  end.

(** [s.trimEnd()] *)
Fixpoint trimEnd (s : string) : string :=
  match s with
  | EmptyString => EmptyString
  | String c rest =>
      match trimEnd rest with
      | EmptyString => if JS.is_space c then EmptyString else String c EmptyString
      | t => String c t
      end
  end.

(** [s.trim()] *)
Definition trim (s : string) : string := trimEnd (JS.skip_space s).

(** [set.add(x)] *)
Definition Set_add (set : list string) (x : string) : list string :=
  if JS.has set x then set else set ++ [x].

(** [new Set(xs)] *)
Definition new_Set (xs : list string) : list string := fold_left Set_add xs [].

(** [raw ? new Set(raw.split(',').map((x) => x.trim())) : null] *)
Definition parse_set (raw : option string) : option (list string) :=
  match raw with
  | Some v =>
      if JS.str_truthy (Some v) then Some (new_Set (map trim (split ","%char v))) else None
  | None => None
  end.

(** [!!raw && raw.trim().toLowerCase() !== 'false'] *)
Definition parse_flag (raw : option string) : bool :=
  match raw with
  | Some v =>
      JS.str_truthy (Some v) && negb (String.eqb (JS.toLowerCase (trim v)) "false")
  | None => false
  end.

(** [set || new Set()] in the constructor of [Stats]: a set is truthy even
    when it is empty. *)
Definition or_empty (set : option (list string)) : list string :=
  match set with Some l => l | None => [] end.

(** The three warnings of [main]. *)
Inductive Warning : Type :=
| TokenNotSet
| TokenInvalid
| ActorNotSet.

(** How [main] goes on: [process.exit(code)] after a warning, or the
    generation of the images from a new aggregator. *)
Inductive Start : Type :=
| Exit (code : Z) (warning : Warning)
| Generate (accessToken : string) (s : Stats.t).

Definition main (env : Env) : Start :=
  match ACCESS_TOKEN env with
  | None => Exit 0 TokenNotSet
  | Some accessToken =>
      if negb (JS.str_truthy (Some accessToken)) then Exit 0 TokenNotSet
      else if String.eqb accessToken "YOUR_GITHUB_TOKEN"
              || (String.length accessToken <? 20)%nat
      then Exit 0 TokenInvalid
      else
        match GITHUB_ACTOR env with
        | None => Exit 0 ActorNotSet
        | Some user =>
            if negb (JS.str_truthy (Some user)) then Exit 0 ActorNotSet
            else
              Generate accessToken
                (Stats.create user
                   (or_empty (parse_set (EXCLUDED env)))
                   (or_empty (parse_set (EXCLUDED_LANGS env)))
                   (parse_flag (EXCLUDE_FORKED_REPOS env)))
        end
  end.

(** An entry of a comma separated list as it is written: a word between
    two runs of white space. *)
Record Entry : Type := mkEntry {
  lead : string;
  word : string;
  trail : string
}.

Definition written (e : Entry) : string := (lead e ++ word e ++ trail e)%string.

Fixpoint blank (s : string) : bool :=
  match s with
  | EmptyString => true
  | String c rest => JS.is_space c && blank rest
  end.

Fixpoint has_char (x : ascii) (s : string) : bool :=
  match s with
  | EmptyString => false
  | String c rest => Ascii.eqb c x || has_char x rest
  end.

(** A word that neither begins nor ends with white space. *)
Definition tight (s : string) : bool := String.eqb (trim s) s.

Definition well_written (e : Entry) : bool :=
  blank (lead e) && blank (trail e) && tight (word e) && negb (has_char ","%char (word e)).

(** A canonical array index: [0], or decimal digits that do not begin
    with [0], below 2^32 - 1. *)
Definition array_index (k : string) : option Z :=
  match k with
  | EmptyString => None
  | String c rest =>
      match JS.digits_prefix k None with
      | Some n =>
          if forallb JS.is_digit (list_ascii_of_string k)
             && (negb (Ascii.eqb c "0"%char) || String.eqb rest EmptyString)
             && (n <? 4294967295)
          then Some n else None
      | None => None
      end
  end.

(** [xs.sort(cmp)]: the sort is stable, an element goes before the first
    one it does not have to follow. *)
Fixpoint insert {A} (cmp : A -> A -> Z) (x : A) (l : list A) : list A :=
  match l with
  | [] => [x]
  | y :: rest => if cmp x y <=? 0 then x :: l else y :: insert cmp x rest
  end.

Definition sort {A} (cmp : A -> A -> Z) (l : list A) : list A :=
  fold_right (insert cmp) [] l.

Definition is_index (kv : string * LanguageData) : bool :=
  match array_index (fst kv) with Some _ => true | None => false end.

Definition by_index (x y : string * LanguageData) : Z :=
  match array_index (fst x), array_index (fst y) with
  | Some i, Some j => i - j
  | _, _ => 0
  end.

(** [Object.entries(o)]: the keys that are array indices in ascending
    order, then the other keys in the order of their creation. *)
Definition Object_entries (o : list (string * LanguageData))
  : list (string * LanguageData) :=
  sort by_index (filter is_index o) ++ filter (fun kv => negb (is_index kv)) o.

(** [(a, b) => (b[1].size || 0) - (a[1].size || 0)] *)
Definition by_size (x y : string * LanguageData) : Z :=
  JS.num_or (Some (lang_size (snd y))) 0 - JS.num_or (Some (lang_size (snd x))) 0.

Definition sortedLanguages (languages : list (string * LanguageData))
  : list (string * LanguageData) :=
  sort by_size (Object_entries languages).

(** What the loop of [generateLanguages] puts in the row number [i]: the
    animation delay, the language, [data.color || '#000000'] and
    [data.prop || 0]. *)
Record Row : Type := mkRow {
  delay : Z;
  row_lang : string;
  row_color : string;
  row_prop : JS.num
}.

Definition row (i : nat) (kv : string * LanguageData) : Row :=
  mkRow (Z.of_nat i * 150) (fst kv)
    (match JS.str_or (lang_color (snd kv)) (Some "#000000"%string) with
     | Some c => c
     | None => "#000000"%string
     end)
    (JS.or_zero (prop (snd kv))).

Fixpoint rows_from (i : nat) (l : list (string * LanguageData)) : list Row :=
  match l with
  | [] => []
  | kv :: rest => row i kv :: rows_from (S i) rest
  end.

Definition rows (languages : list (string * LanguageData)) : list Row :=
  rows_from 0 (sortedLanguages languages).

(** The first entry is at least as large as the second. *)
Definition larger (x y : string * LanguageData) : Prop :=
  lang_size (snd y) <= lang_size (snd x).

Definition same_size (z : Z) (kv : string * LanguageData) : bool :=
  lang_size (snd kv) =? z.

End Images.

(* ------------------------------------------------------------------ *)
(** ** The two generators at the same time *)

Module Overlap.
Import Http Types.

(** [main] awaits [Promise.all([generateLanguages(s), generateOverview(s)])]
    on a new aggregator.  [generateLanguages] runs up to its first
    suspension: [getLanguages] finds [_languages] null and calls
    [getStats], which empties the four fields and asks for the first page.
    Then [generateOverview] runs: [getName] finds [_name] still null and
    calls [getStats] again.  From there on the two calls of [getStats]
    take turns, one turn of the [while] loop for each answer that
    arrives; between two suspensions a turn runs alone.

    [answers] is what [this.queries.query] resolves to for each document. *)
Inductive Caller : Type :=
| generateLanguages
| generateOverview.

(** A call of [getStats] between two turns: waiting for the answer to the
    query of its cursors, or returned. *)
Inductive Pass : Type :=
| Asking (nextOwned nextContrib : option string)
| Returned.

Record System : Type := mkSystem {
  the_name : option string;                  (* this._name *)
  the_totals : Stats.Totals;                 (* _repos, _stargazers, _forks, _languages *)
  languages_call : Pass;                     (* the getStats of generateLanguages *)
  overview_call : Pass;                      (* the getStats of generateOverview *)
  posts : list QueryDoc;                     (* the queries sent, in order *)
  (* the fields when the call of each generator returns *)
  languages_sees : option (option string * Stats.Totals);
  overview_sees : option (option string * Stats.Totals)
}.

(** The end of [getStats]: every entry gets its percentage. *)
Definition with_proportions (acc : Stats.Totals) : Stats.Totals :=
  Stats.mkTotals (Stats.repos acc) (Stats.stargazers_sum acc) (Stats.forks_sum acc)
    (Stats.proportions (Stats.langs acc)).

(** One turn of the [while] loop on the fields as they are, and what
    follows it up to the next suspension: the next query, or the
    percentages and the return. *)
Definition turn (answers : QueryDoc -> GraphQLResponse) (s : Stats.t)
    (acc : Stats.Totals) (nextOwned nextContrib : option string)
  : option string * Stats.Totals * Pass * list QueryDoc :=
  let rawResults := answers (Queries.reposOverview nextOwned nextContrib) in
  let name1 := Stats.resolved_name rawResults in
  let acc1 :=
    fold_left (Stats.visit (Stats.excludeRepos s) (map JS.toLowerCase (Stats.excludeLangs s)))
      (Stats.page_repos (Stats.ignoreForkedRepos s) rawResults) acc in
  if Stats.hasMore rawResults
  then
    let nextOwned1 := JS.str_or (Stats.page_endCursor (Stats.ownedRepos rawResults)) nextOwned in
    let nextContrib1 :=
      JS.str_or (Stats.page_endCursor (Stats.contribRepos rawResults)) nextContrib in
    (name1, acc1, Asking nextOwned1 nextContrib1,
     [Queries.reposOverview nextOwned1 nextContrib1])
  else (name1, with_proportions acc1, Returned, []).

(** The answer to the query of one of the two calls arrives. *)
Definition step (answers : QueryDoc -> GraphQLResponse) (s : Stats.t)
    (sys : System) (c : Caller) : System :=
  match c with
  | generateLanguages =>
      match languages_call sys with
      | Asking nextOwned nextContrib =>
          let '(name1, acc1, pass, sent) :=
            turn answers s (the_totals sys) nextOwned nextContrib in
          mkSystem name1 acc1 pass (overview_call sys) (posts sys ++ sent)
            (match pass with
             | Returned => Some (name1, acc1)
             | Asking _ _ => languages_sees sys
             end)
            (overview_sees sys)
      | Returned => sys
      end
  | generateOverview =>
      match overview_call sys with
      | Asking nextOwned nextContrib =>
          let '(name1, acc1, pass, sent) :=
            turn answers s (the_totals sys) nextOwned nextContrib in
          mkSystem name1 acc1 (languages_call sys) pass (posts sys ++ sent)
            (languages_sees sys)
            (match pass with
             | Returned => Some (name1, acc1)
             | Asking _ _ => overview_sees sys
             end)
      | Returned => sys
      end
  end.

(** The answers arrive in the order of [schedule]. *)
Definition run (answers : QueryDoc -> GraphQLResponse) (s : Stats.t)
    (schedule : list Caller) (sys : System) : System :=
  fold_left (step answers s) schedule sys.

(** Both calls have emptied the fields and sent their first query. *)
Definition start : System :=
  mkSystem None (Stats.mkTotals [] 0 0 []) (Asking None None) (Asking None None)
    [Queries.reposOverview None None; Queries.reposOverview None None] None None.

(** The same with the call of [generateLanguages] alone. *)
Definition alone : System :=
  mkSystem None (Stats.mkTotals [] 0 0 []) (Asking None None) Returned
    [Queries.reposOverview None None] None None.

(** The single call after some turns. *)
Fixpoint alone_after (answers : QueryDoc -> GraphQLResponse) (s : Stats.t) (turns : nat)
  : System :=
  match turns with
  | O => alone
  | S turns' => step answers s (alone_after answers s turns') generateLanguages
  end.

(** The network that gives these answers to the queries of a single call. *)
Definition script_of (answers : QueryDoc -> GraphQLResponse) (queries : list QueryDoc)
  : list (Outcome GraphQLResponse) :=
  map (fun doc => Resolved (mkResponse 200 None (Some (answers doc)))) queries.

(** The fields of the aggregator with the name and the totals written. *)
Definition written (s : Stats.t) (fields : option string * Stats.Totals) : Stats.t :=
  Stats.mk (Stats.username s) (Stats.ignoreForkedRepos s) (Stats.excludeRepos s)
    (Stats.excludeLangs s) (fst fields)
    (Some (Stats.stargazers_sum (snd fields))) (Some (Stats.forks_sum (snd fields)))
    (Stats._totalContributions s) (Some (Stats.langs (snd fields)))
    (Some (Stats.repos (snd fields))) (Stats._linesChanged s) (Stats._views s).

(** Every repository of the page is in the set or excluded. *)
Definition covered (s : Stats.t) (acc : Stats.Totals) (rawResults : GraphQLResponse) : Prop :=
  forall n,
    In n (Props.names_of (Stats.page_repos (Stats.ignoreForkedRepos s) rawResults)) ->
    In n (Stats.repos acc) \/ In n (Stats.excludeRepos s).

(** What the two calls have in common with the single call: after [i]
    turns of the one and [j] turns of the other, each is where the single
    call is after as many turns, and the fields are those of the single
    call after the larger number of turns. *)
Definition Inv (answers : QueryDoc -> GraphQLResponse) (s : Stats.t) (i j : nat)
    (sys : System) : Prop :=
  languages_call sys = languages_call (alone_after answers s i)
  /\ overview_call sys = languages_call (alone_after answers s j)
  /\ the_totals sys = the_totals (alone_after answers s (Nat.max i j))
  /\ (the_name sys = the_name (alone_after answers s i)
      \/ the_name sys = the_name (alone_after answers s j))
  /\ languages_sees sys = languages_sees (alone_after answers s i)
  /\ overview_sees sys = languages_sees (alone_after answers s j)
  /\ Permutation (posts sys)
       (posts (alone_after answers s i) ++ posts (alone_after answers s j)).

(** The two calls with their roles exchanged. *)
Definition swap (sys : System) : System :=
  mkSystem (the_name sys) (the_totals sys) (overview_call sys) (languages_call sys)
    (posts sys) (overview_sees sys) (languages_sees sys).

Definition other (c : Caller) : Caller :=
  match c with
  | generateLanguages => generateOverview
  | generateOverview => generateLanguages
  end.

(** A server with two pages of repositories: the first, asked for
    without cursors, announces one more. *)
Definition two_pages (doc : QueryDoc) : GraphQLResponse :=
  match doc with
  | ReposOverviewDoc repositories_after repositoriesContributedTo_after =>
      if String.eqb repositories_after "null"
         && String.eqb repositoriesContributedTo_after "null"
      then mkGraphQLResponse
             (Some (mkViewer (Some "u"%string) None
                      (Props.page [Props.repo "u/a" 5 1 [("TS", 100)]%string] true
                         (Some "O1"%string))
                      (Props.page [Props.repo "v/x" 7 2 [("C", 10)]%string] false None)
                      None []))
      else mkGraphQLResponse
             (Some (mkViewer (Some "u"%string) None
                      (Props.page [Props.repo "u/b" 3 0 [("TS", 50); ("JS", 50)]%string] false
                         None)
                      (Props.page [Props.repo "v/x" 7 2 [("C", 10)]%string] false None)
                      None []))
  | _ => emptyGraphQL
  end.

End Overlap.

(* ------------------------------------------------------------------ *)
(** * The request gatherer *)

Section Admission.
Import Http.

(** The counter never passes the capacity, whoever calls the primitives. *)
Lemma acquireSemaphore_bound caller q :
  Queries.activeRequests q <= Queries.maxConnections q ->
  Queries.activeRequests (fst (Queries.acquireSemaphore caller q))
  <= Queries.maxConnections (fst (Queries.acquireSemaphore caller q)).
Proof.
  unfold Queries.acquireSemaphore.
  destruct (Z.ltb_spec (Queries.activeRequests q) (Queries.maxConnections q)); simpl; lia.
Qed.

Lemma releaseSemaphore_bound q :
  Queries.activeRequests q <= Queries.maxConnections q ->
  Queries.activeRequests (fst (Queries.releaseSemaphore q))
  <= Queries.maxConnections (fst (Queries.releaseSemaphore q)).
Proof.
  unfold Queries.releaseSemaphore.
  destruct (Queries.requestQueue q); simpl; lia.
Qed.

Lemma run_ops_bound ops : forall q admitted,
  Queries.activeRequests q <= Queries.maxConnections q ->
  Queries.activeRequests (fst (Sched.run_ops ops q admitted))
  <= Queries.maxConnections (fst (Sched.run_ops ops q admitted)).
Proof.
  induction ops as [|op ops IH]; intros q admitted Hq; simpl; [exact Hq|].
  destruct op as [caller|].
  - pose proof (acquireSemaphore_bound caller q Hq) as H.
    destruct (Queries.acquireSemaphore caller q) as [q' now]. apply IH. exact H.
  - pose proof (releaseSemaphore_bound q Hq) as H.
    destruct (Queries.releaseSemaphore q) as [q' next]. apply IH. exact H.
Qed.

Lemma acquireSemaphore_full caller q :
  Props.full_while_waiting q ->
  Props.full_while_waiting (fst (Queries.acquireSemaphore caller q)).
Proof.
  unfold Props.full_while_waiting, Queries.acquireSemaphore.
  destruct (Z.ltb_spec (Queries.activeRequests q) (Queries.maxConnections q));
    simpl; intros [H0|H0]; auto; lia.
Qed.

Lemma releaseSemaphore_full q :
  Props.full_while_waiting q ->
  Props.full_while_waiting (fst (Queries.releaseSemaphore q)).
Proof.
  unfold Props.full_while_waiting, Queries.releaseSemaphore.
  destruct (Queries.requestQueue q) as [|next rest]; simpl; intros [H0|H0];
    auto; try discriminate; right; lia.
Qed.

(** Callers are admitted in the order they asked: the admitted callers
    followed by the waiting ones are the arrivals. *)
Lemma run_ops_fifo ops : forall q admitted,
  Props.full_while_waiting q ->
  snd (Sched.run_ops ops q admitted) ++ Queries.requestQueue (fst (Sched.run_ops ops q admitted))
  = admitted ++ Queries.requestQueue q ++ Sched.arrivals ops.
Proof.
  induction ops as [|op ops IH]; intros q admitted Hq; simpl.
  - now rewrite app_nil_r.
  - destruct op as [caller|].
    + pose proof (acquireSemaphore_full caller q Hq) as Hq'.
      revert Hq'. unfold Queries.acquireSemaphore.
      destruct (Z.ltb_spec (Queries.activeRequests q) (Queries.maxConnections q));
        simpl; intros Hq'; rewrite (IH _ _ Hq'); simpl.
      * destruct Hq as [Hq|Hq]; [|lia]. rewrite Hq. simpl.
        now rewrite <- app_assoc.
      * now rewrite <- !app_assoc.
    + pose proof (releaseSemaphore_full q Hq) as Hq'.
      revert Hq'. unfold Queries.releaseSemaphore.
      destruct (Queries.requestQueue q) as [|next rest];
        simpl; intros Hq'; rewrite (IH _ _ Hq'); simpl.
      * reflexivity.
      * now rewrite <- app_assoc.
Qed.

(** X1.  From a new gatherer: the counter stays within the capacity and
    the admissions follow the arrivals. *)
Lemma gatherer_counter_and_order capacity ops :
  0 <= capacity ->
  let '(q, admitted) := Sched.run_ops ops (Queries.create capacity) [] in
  Queries.activeRequests q <= capacity
  /\ admitted ++ Queries.requestQueue q = Sched.arrivals ops.
Proof.
  intros Hc.
  pose proof (run_ops_bound ops (Queries.create capacity) [] Hc) as Hb.
  pose proof (run_ops_fifo ops (Queries.create capacity) [] (or_introl eq_refl)) as Hf.
  assert (Hm : forall ops q adm, Queries.maxConnections (fst (Sched.run_ops ops q adm))
                                 = Queries.maxConnections q).
  { clear. induction ops as [|[caller|] ops IH]; intros q adm; simpl; auto.
    - unfold Queries.acquireSemaphore.
      destruct (Queries.activeRequests q <? Queries.maxConnections q); rewrite IH; reflexivity.
    - unfold Queries.releaseSemaphore.
      destruct (Queries.requestQueue q); rewrite IH; reflexivity. }
  rewrite Hm in Hb. simpl in Hb, Hf.
  destruct (Sched.run_ops ops (Queries.create capacity) []) as [q admitted].
  simpl in *. split; assumption.
Qed.

End Admission.

(* ------------------------------------------------------------------ *)
(** * Callers that release what they took *)

Section Bracketed.
Import Http.

Lemma nth_error_update_same f ts : forall i,
  nth_error (Sched.update i f ts) i = option_map f (nth_error ts i).
Proof.
  induction ts as [|t ts IH]; intros [|i]; cbn; auto.
Qed.

Lemma nth_error_update_other f ts : forall i j,
  i <> j -> nth_error (Sched.update i f ts) j = nth_error ts j.
Proof.
  induction ts as [|t ts IH]; intros [|i] [|j] H; cbn; auto; try congruence.
Qed.

Lemma count_cons p t ts : Sched.count p (t :: ts) = Sched.b2z (p t) + Sched.count p ts.
Proof. unfold Sched.count. cbn. destruct (p t); cbn [Sched.b2z List.length]; lia. Qed.

Lemma count_update p f ts : forall i t,
  nth_error ts i = Some t ->
  Sched.count p (Sched.update i f ts) = Sched.count p ts - Sched.b2z (p t) + Sched.b2z (p (f t)).
Proof.
  induction ts as [|t0 ts IH]; intros [|i] t H; cbn in H; try discriminate.
  - injection H as ->. cbn [Sched.update]. rewrite !count_cons. lia.
  - cbn [Sched.update]. rewrite !count_cons, (IH i t H). lia.
Qed.

Lemma count_le p p' ts :
  (forall i t, nth_error ts i = Some t -> p t = true -> p' t = true) ->
  Sched.count p ts <= Sched.count p' ts.
Proof.
  induction ts as [|t ts IH]; intros H; [reflexivity|].
  rewrite !count_cons.
  assert (Hle : Sched.count p ts <= Sched.count p' ts).
  { apply IH. intros i t' Hi. apply (H (S i) t'). exact Hi. }
  pose proof (H O t eq_refl) as H0.
  destruct (p t) eqn:E; cbn [Sched.b2z]; [rewrite (H0 eq_refl); cbn [Sched.b2z]; lia|].
  destruct (p' t); cbn [Sched.b2z]; lia.
Qed.

Lemma NoDup_snoc (l : list nat) x : NoDup l -> ~ In x l -> NoDup (l ++ [x]).
Proof.
  induction l as [|y l IH]; intros Hnd Hx; cbn.
  - constructor; [intros []|constructor].
  - inversion Hnd as [|? ? Hy Hl]; subst. constructor.
    + rewrite in_app_iff. cbn in *. intuition congruence.
    + apply IH; [exact Hl|]. cbn in Hx. tauto.
Qed.

Lemma nth_error_replaced ts i t' k tk :
  nth_error (Sched.update i (fun _ => t') ts) k = Some tk ->
  (k = i /\ tk = t') \/ (k <> i /\ nth_error ts k = Some tk).
Proof.
  intros H. destruct (Nat.eq_dec k i) as [->|Hne].
  - left. rewrite nth_error_update_same in H.
    destruct (nth_error ts i); cbn in H; [|discriminate]. split; congruence.
  - right. rewrite nth_error_update_other in H by congruence. auto.
Qed.

Lemma holders_replaced ts i t t' :
  nth_error ts i = Some t ->
  Sched.count Sched.holding (Sched.update i (fun _ => t') ts)
  = Sched.count Sched.holding ts - Sched.b2z (Sched.holding t) + Sched.b2z (Sched.holding t').
Proof. intros H. now rewrite (count_update _ _ _ _ _ H). Qed.

(** A step that changes neither the gatherer nor who holds a slot. *)
Lemma quiet_step_sound sys i t t' :
  Props.sound sys ->
  nth_error (Sched.tasks sys) i = Some t ->
  Sched.waiting t = false ->
  Sched.waiting t' = false ->
  Sched.holding t' = Sched.holding t ->
  Props.task_ok t' ->
  Props.sound (Sched.mkSystem (Sched.sem sys) (Sched.update i (fun _ => t') (Sched.tasks sys))).
Proof.
  intros (Hok & Hq & Hnd & Hact & Hcap) Hi Hw Hw' Hh Ht'.
  unfold Props.sound. cbn [Sched.sem Sched.tasks].
  split; [|split; [|split; [|split]]]; auto.
  - intros k tk Hk. apply nth_error_replaced in Hk as [[_ ->]|[_ Hk]]; eauto.
  - intros j Hj. destruct (Hq j Hj) as (tj & Htj & Hwj).
    exists tj. split; [|exact Hwj].
    rewrite nth_error_update_other; [exact Htj|]. intros ->. congruence.
  - unfold Sched.holders. cbn [Sched.tasks].
    rewrite (holders_replaced _ _ _ _ Hi), Hh. unfold Sched.holders in Hact. lia.
Qed.

Lemma step_sound sys i : Props.sound sys -> Props.sound (Sched.step sys i).
Proof.
  intros Hsound. pose proof Hsound as (Hok & Hq & Hnd & Hact & Hcap).
  unfold Sched.step.
  destruct (nth_error (Sched.tasks sys) i) as [t|] eqn:Hi; [|exact Hsound].
  destruct (Sched.waiting t) eqn:Hw; [exact Hsound|].
  destruct (Sched.pending t) as [|ev rest] eqn:Hp; [exact Hsound|].
  destruct (Hok i t Hi) as (Hbr & Hfl & _).
  rewrite Hp, Hw, orb_false_r in Hbr.
  assert (Hnotq : ~ In i (Queries.requestQueue (Sched.sem sys))).
  { intros Hin. destruct (Hq i Hin) as (t' & Ht' & Hw'). congruence. }
  unfold Sched.holders in Hact.
  destruct ev as [| |[|] req| | | | |];
    try (apply (quiet_step_sound sys i t); auto;
         unfold Props.task_ok; cbn [Sched.holding Sched.waiting Sched.in_flight Sched.pending];
         cbn in Hbr; rewrite ?orb_false_r;
         repeat split; auto; try discriminate;
         destruct (Sched.holding t); cbn in Hbr |- *; congruence).
  - (* acquireSemaphore *)
    cbn in Hbr. apply andb_true_iff in Hbr as [Hh Hbr]. apply negb_true_iff in Hh.
    assert (Hf : Sched.in_flight t = false).
    { destruct (Sched.in_flight t); [|reflexivity]. rewrite Hfl in Hh; congruence. }
    unfold Queries.acquireSemaphore.
    destruct (Z.ltb_spec (Queries.activeRequests (Sched.sem sys))
                         (Queries.maxConnections (Sched.sem sys))) as [Hlt|Hge];
      unfold Props.sound, Sched.holders; cbn [Sched.sem Sched.tasks Queries.requestQueue
        Queries.activeRequests Queries.maxConnections negb];
      rewrite (holders_replaced _ _ _ _ Hi), Hh; cbn [Sched.holding Sched.b2z].
    + split; [|split; [|split; [|split]]]; auto; try lia.
      * intros k tk Hk. apply nth_error_replaced in Hk as [[_ ->]|[_ Hk]]; eauto.
        unfold Props.task_ok. cbn. rewrite Hf in *. repeat split; auto; discriminate.
      * intros j Hj. destruct (Hq j Hj) as (tj & Htj & Hwj).
        exists tj. split; [|exact Hwj].
        rewrite nth_error_update_other; [exact Htj|]. intros ->. congruence.
    + split; [|split; [|split; [|split]]]; auto; try lia.
      * intros k tk Hk. apply nth_error_replaced in Hk as [[_ ->]|[_ Hk]]; eauto.
        unfold Props.task_ok. cbn. rewrite Hf in *. repeat split; auto; discriminate.
      * intros j Hj. apply in_app_iff in Hj as [Hj|[<-|[]]].
        -- destruct (Hq j Hj) as (tj & Htj & Hwj).
           exists tj. split; [|exact Hwj].
           rewrite nth_error_update_other; [exact Htj|]. intros ->. congruence.
        -- eexists. rewrite nth_error_update_same, Hi. split; reflexivity.
      * apply NoDup_snoc; assumption.
  - (* releaseSemaphore *)
    cbn in Hbr. apply andb_true_iff in Hbr as [Hh Hbr].
    apply andb_true_iff in Hh as [Hh Hf]. apply negb_true_iff in Hf.
    unfold Queries.releaseSemaphore.
    destruct (Queries.requestQueue (Sched.sem sys)) as [|j queue] eqn:Hqueue;
      unfold Props.sound, Sched.holders; cbn [Sched.sem Sched.tasks Queries.requestQueue
        Queries.activeRequests Queries.maxConnections].
    + rewrite (holders_replaced _ _ _ _ Hi), Hh. cbn [Sched.holding Sched.b2z].
      split; [|split; [|split; [constructor|split]]]; auto; try lia.
      * intros k tk Hk. apply nth_error_replaced in Hk as [[_ ->]|[_ Hk]]; eauto.
        unfold Props.task_ok. cbn. rewrite Hf. repeat split; auto; discriminate.
      * intros k [].
    + destruct (Hq j (or_introl eq_refl)) as (tj & Htj & Hwj).
      assert (Hji : j <> i) by (intros ->; congruence).
      destruct (Hok j tj Htj) as (Hbrj & Hflj & Hhj). specialize (Hhj Hwj).
      rewrite Hhj, Hwj in Hbrj. cbn in Hbrj.
      inversion Hnd as [|? ? Hjq Hndq]; subst.
      assert (Htj' : nth_error (Sched.update i
                        (fun _ => Sched.mkTask rest false false (Sched.in_flight t))
                        (Sched.tasks sys)) j = Some tj).
      { rewrite nth_error_update_other; [exact Htj|]. congruence. }
      rewrite (count_update _ _ _ _ _ Htj'), (holders_replaced _ _ _ _ Hi), Hh, Hhj.
      cbn [Sched.wake Sched.holding Sched.b2z].
      split; [|split; [|split; [|split]]]; auto; try lia.
      * intros k tk Hk. destruct (Nat.eq_dec k j) as [->|Hkj].
        -- rewrite nth_error_update_same, Htj' in Hk. cbn in Hk. injection Hk as <-.
           unfold Props.task_ok. cbn. repeat split; auto; discriminate.
        -- rewrite nth_error_update_other in Hk by congruence.
           apply nth_error_replaced in Hk as [[_ ->]|[_ Hk]]; eauto.
           unfold Props.task_ok. cbn. rewrite Hf. repeat split; auto; discriminate.
      * intros k Hk. destruct (Hq k (or_intror Hk)) as (tk & Htk & Hwk).
        exists tk. split; [|exact Hwk].
        rewrite !nth_error_update_other; auto.
        -- intros ->. congruence.
        -- intros ->. contradiction.
Qed.

Lemma run_sound schedule : forall sys, Props.sound sys -> Props.sound (Sched.run schedule sys).
Proof.
  induction schedule as [|i schedule IH]; intros sys H; [exact H|].
  cbn. apply IH, step_sound, H.
Qed.

Lemma spawn_sound capacity callers :
  0 <= capacity ->
  forallb (Sched.bracketed false false) callers = true ->
  Props.sound (Sched.mkSystem (Queries.create capacity) (map Sched.spawn callers)).
Proof.
  intros Hc Hall. unfold Props.sound, Sched.holders. cbn.
  assert (Hcount : Sched.count Sched.holding (map Sched.spawn callers) = 0).
  { clear. induction callers as [|c cs IH]; [reflexivity|].
    cbn [map]. rewrite count_cons, IH. reflexivity. }
  rewrite Hcount.
  split; [|split; [|split; [apply NoDup_nil|split]]].
  - intros i t Hi. apply nth_error_In, in_map_iff in Hi as (evs & <- & Hin).
    rewrite forallb_forall in Hall. unfold Props.task_ok. cbn.
    repeat split; auto; discriminate.
  - intros j [].
  - reflexivity.
  - exact Hc.
Qed.

(** Callers that release once what they took, under any schedule: the
    requests out never exceed the callers holding a slot, whose number is
    the counter, which never exceeds the capacity. *)
Theorem bracketed_callers_stay_within_capacity capacity callers schedule :
  0 <= capacity ->
  forallb (Sched.bracketed false false) callers = true ->
  let sys := Sched.run schedule
               (Sched.mkSystem (Queries.create capacity) (map Sched.spawn callers)) in
  Sched.active sys <= Sched.holders sys
  /\ Sched.holders sys = Queries.activeRequests (Sched.sem sys)
  /\ Queries.activeRequests (Sched.sem sys) <= capacity.
Proof.
  intros Hc Hall sys.
  assert (Hs : Props.sound sys) by (apply run_sound, spawn_sound; assumption).
  assert (Hmax : forall schedule s, Queries.maxConnections (Sched.sem (Sched.run schedule s))
                                    = Queries.maxConnections (Sched.sem s)).
  { clear. induction schedule as [|i schedule IH]; intros s; [reflexivity|].
    cbn. rewrite IH. unfold Sched.step.
    destruct (nth_error (Sched.tasks s) i) as [t|]; [|reflexivity].
    destruct (Sched.waiting t); [reflexivity|].
    destruct (Sched.pending t) as [|[| |[|] ?| | | | |] ?]; try reflexivity.
    - unfold Queries.acquireSemaphore.
      destruct (_ <? _); reflexivity.
    - unfold Queries.releaseSemaphore.
      destruct (Queries.requestQueue _); reflexivity. }
  destruct Hs as (Hok & _ & _ & Hact & Hcap).
  unfold sys in Hcap at 2. rewrite Hmax in Hcap. cbn in Hcap.
  repeat split; auto.
  apply count_le. intros i t Hi Hf. destruct (Hok i t Hi) as (_ & Hfl & _). auto.
Qed.

(** [query] is such a caller, whatever the network does. *)
Lemma query_is_bracketed doc script :
  Sched.bracketed false false (snd (fst (Queries.query doc script))) = true.
Proof.
  unfold Queries.query.
  destruct (next_outcome script) as [[r|e] script1]; [reflexivity|].
  destruct (next_outcome script1) as [[r|e2] script2]; reflexivity.
Qed.

(** A turn of [queryRest] on a 202 answer is not bracketed: it releases a
    slot it no longer holds. *)
Lemma busy_turn_is_not_bracketed path attempt b :
  Sched.bracketed false false (Props.busy_events path attempt b) = false.
Proof.
  destruct b as [[[|] retryAfter] body]; unfold Props.busy_events; cbn;
    unfold Queries.computing;
    destruct ((attempt <? 5)%nat || (attempt mod 10 =? 0)%nat); reflexivity.
Qed.

End Bracketed.

(* ------------------------------------------------------------------ *)
(** * The REST retry loop *)

Section RetryLoop.
Import Http Types.

Variable path : string.

Lemma count_events_app p evs evs' :
  Props.count_events p (evs ++ evs')
  = (Props.count_events p evs + Props.count_events p evs')%nat.
Proof. unfold Props.count_events. now rewrite filter_app, length_app. Qed.

Lemma attempt_body_busy attempt b tail :
  Queries.attempt_body path attempt (Props.busy_answer b :: tail)
  = (Queries.Continue, Props.busy_events path attempt b, tail).
Proof. destruct b as [[[|] retryAfter] body]; reflexivity. Qed.

Lemma busy_events_counts attempt b :
  Props.count_events is_acquire (Props.busy_events path attempt b) = 1%nat
  /\ Props.count_events is_send (Props.busy_events path attempt b) = 1%nat
  /\ Props.count_events is_warn (Props.busy_events path attempt b) = 0%nat.
Proof.
  destruct b as [[[|] retryAfter] body];
    unfold Props.busy_events, Props.count_events; cbn;
    unfold Queries.computing;
    destruct ((attempt <? 5)%nat || (attempt mod 10 =? 0)%nat); cbn; auto.
Qed.

Lemma all_busy_events_counts bs : forall attempt,
  Props.count_events is_acquire (Props.all_busy_events path attempt bs) = List.length bs
  /\ Props.count_events is_send (Props.all_busy_events path attempt bs) = List.length bs
  /\ Props.count_events is_warn (Props.all_busy_events path attempt bs) = 0%nat.
Proof.
  induction bs as [|b bs IH]; intros attempt; simpl; [auto|].
  rewrite !count_events_app.
  destruct (busy_events_counts attempt b) as (-> & -> & ->).
  destruct (IH (S attempt)) as (-> & -> & ->). auto.
Qed.

(** Every 202 answer costs one turn and nothing else. *)
Lemma queryRest_loop_busy bs : forall remaining attempt tail,
  Queries.queryRest_loop path (List.length bs + remaining) attempt
    (map Props.busy_answer bs ++ tail)
  = let '(payload, evs, unread) :=
      Queries.queryRest_loop path remaining (attempt + List.length bs) tail in
    (payload, Props.all_busy_events path attempt bs ++ evs, unread).
Proof.
  induction bs as [|b bs IH]; intros remaining attempt tail.
  - simpl. rewrite Nat.add_0_r.
    destruct (Queries.queryRest_loop path remaining attempt tail) as [[? ?] ?]. reflexivity.
  - cbn [List.length map app Nat.add Queries.queryRest_loop Props.all_busy_events].
    rewrite attempt_body_busy, IH.
    replace (S attempt + List.length bs)%nat with (attempt + S (List.length bs))%nat by lia.
    destruct (Queries.queryRest_loop path remaining _ tail) as [[? ?] ?].
    now rewrite app_assoc.
Qed.

Lemma alone_app evs : forall q evs',
  Props.alone q (evs ++ evs')
  = match Props.alone q evs with
    | Some q' => Props.alone q' evs'
    | None => None
    end.
Proof.
  induction evs as [|e evs IH]; intros q evs'; simpl; [reflexivity|].
  destruct e; auto.
  destruct (Queries.acquireSemaphore O q) as [q' [|]]; auto.
Qed.

Lemma alone_computing q attempt response :
  Props.alone q (Queries.computing path attempt response) = Some q.
Proof.
  unfold Queries.computing.
  destruct ((attempt <? 5)%nat || (attempt mod 10 =? 0)%nat); reflexivity.
Qed.

Lemma acquire_with_room q :
  Props.has_room q ->
  Queries.acquireSemaphore O q
  = (Queries.mk (Queries.maxConnections q) (Queries.activeRequests q + 1) [], true).
Proof.
  intros [Hlt Hq]. unfold Queries.acquireSemaphore.
  destruct (Z.ltb_spec (Queries.activeRequests q) (Queries.maxConnections q)); [|lia].
  now rewrite Hq.
Qed.

(** One turn of the loop, alone on a gatherer with room, is never made to
    wait and leaves room. *)
Lemma attempt_body_alone attempt script q :
  Props.has_room q ->
  exists q', Props.alone q (snd (fst (Queries.attempt_body path attempt script))) = Some q'
             /\ Props.has_room q'.
Proof.
  intros Hq. pose proof (acquire_with_room q Hq) as Ha. destruct Hq as [Hlt Hq].
  assert (Hroom : forall k, 0 <= k ->
            Props.has_room (Queries.mk (Queries.maxConnections q)
                                       (Queries.activeRequests q - k) [])).
  { intros k Hk. split; simpl; [lia|reflexivity]. }
  unfold Queries.attempt_body.
  destruct (next_outcome script) as [[response|error] script1].
  - destruct (status response =? 202); cbn [fst snd app Props.alone]; rewrite Ha.
    + rewrite alone_app, alone_computing. cbn.
      eexists; split; [reflexivity|].
      replace (Queries.activeRequests q + 1 - 1 - 1) with (Queries.activeRequests q - 1) by lia.
      apply Hroom; lia.
    + cbn. eexists; split; [reflexivity|].
      replace (Queries.activeRequests q + 1 - 1) with (Queries.activeRequests q - 0) by lia.
      apply Hroom; lia.
  - assert (Hend : forall evs, Props.alone
               (Queries.mk (Queries.maxConnections q) (Queries.activeRequests q + 1 - 1) []) evs
               = Some (Queries.mk (Queries.maxConnections q) (Queries.activeRequests q + 1 - 1) []) ->
             exists q', Props.alone q
               ([EvAcquire; EvSend true (Get (Queries.rest_url path)); EvSettle; EvRelease]
                ++ evs ++ [EvRelease]) = Some q' /\ Props.has_room q').
    { intros evs Hevs. cbn [app Props.alone]. rewrite Ha. cbn.
      rewrite alone_app, Hevs. cbn. eexists; split; [reflexivity|].
      replace (Queries.activeRequests q + 1 - 1 - 1) with (Queries.activeRequests q - 1) by lia.
      apply Hroom; lia. }
    destruct (is_202_error error) as [response|].
    + cbn [fst snd]. apply Hend. apply alone_computing.
    + destruct (next_outcome script1) as [[response|error2] script2].
      * destruct (status response =? 202); [|destruct (status response =? 200)];
          cbn [fst snd]; rewrite <- app_assoc; apply Hend; cbn [app Props.alone];
          auto using alone_computing.
      * cbn [fst snd]. rewrite <- app_assoc. apply Hend. reflexivity.
Qed.

(** The whole call, alone on a gatherer with room, is never made to wait. *)
Lemma queryRest_loop_alone remaining : forall attempt script q,
  Props.has_room q ->
  exists q', Props.alone q (snd (fst (Queries.queryRest_loop path remaining attempt script)))
             = Some q' /\ Props.has_room q'.
Proof.
  induction remaining as [|remaining IH]; intros attempt script q Hq.
  - simpl. eauto.
  - simpl.
    destruct (attempt_body_alone attempt script q Hq) as (q1 & H1 & Hq1).
    destruct (Queries.attempt_body path attempt script) as [[[payload|] evs] script1].
    + simpl in *. eauto.
    + specialize (IH (S attempt) script1 q1 Hq1). destruct IH as (q2 & H2 & Hq2).
      destruct (Queries.queryRest_loop path remaining (S attempt) script1) as [[p evs'] s2].
      simpl in *. rewrite alone_app, H1. eauto.
Qed.

Lemma new_gatherer_has_room capacity :
  0 < capacity -> Props.has_room (Queries.create capacity).
Proof. intros H. split; simpl; [lia|reflexivity]. Qed.

Lemma default_gatherer_has_room :
  Props.has_room (Queries.create Queries.default_maxConnections).
Proof. apply new_gatherer_has_room. reflexivity. Qed.

End RetryLoop.

Section GathererClaims.
Import Http Types.

(** A turn that receives a 202 answer as a resolved response gives back
    two slots for the one it took; received as an axios error, likewise. *)
Lemma busy_turn_releases_twice path attempt b :
  Props.slot_balance (Props.busy_events path attempt b) = -1.
Proof.
  destruct b as [[[|] retryAfter] body]; unfold Props.busy_events; cbn;
    unfold Queries.computing;
    destruct ((attempt <? 5)%nat || (attempt mod 10 =? 0)%nat); reflexivity.
Qed.

(** With capacity 1 and two callers: after one 202 answer the caller in
    [queryRest] and a caller in [query] both have a pooled request out. *)
Example two_callers_one_slot :
  let sys := Sched.run Props.two_schedule Props.two_callers in
  Queries.maxConnections (Sched.sem sys) = 1
  /\ Sched.active sys = 2
  /\ Queries.activeRequests (Sched.sem sys) = 1.
Proof. vm_compute. auto. Qed.

(** C1 (the code departs from the claim).  On a gatherer of the default
    capacity 10, a caller in [queryRest] that has received ten 202 answers
    has released twenty slots for the ten it took; it and ten callers of
    [query] are then all admitted at once: eleven pooled requests are out,
    nobody waits, and the counter [activeRequests] reads 1. *)
Theorem queryRest_overbooks_the_gatherer :
  let sys := Sched.run Props.eleven_schedule Props.eleven_callers in
  Queries.maxConnections (Sched.sem sys) = Queries.default_maxConnections
  /\ Sched.active sys = 11
  /\ forallb (fun task => negb (Sched.waiting task)) (Sched.tasks sys) = true
  /\ Queries.activeRequests (Sched.sem sys) = 1
  /\ Queries.requestQueue (Sched.sem sys) = [].
Proof. vm_compute. auto 6. Qed.

(** C2 (the code departs from the claim).  On a 202 answer received as a
    resolved response the turn waits first and releases afterwards, twice:
    the wait is spent holding the slot.  So a call answered 202 then 200
    sits through one wait with its slot held. *)
Theorem queryRest_waits_before_releasing path attempt retryAfter body tail :
  let response := mkResponse 202 retryAfter body in
  let evs := snd (fst (Queries.attempt_body path attempt (Resolved response :: tail))) in
  evs = [EvAcquire; EvSend true (Get (Queries.rest_url path)); EvSettle]
        ++ Queries.computing path attempt response ++ [EvRelease; EvRelease]
  /\ Props.waits_holding false evs = 1%nat
  /\ Props.waits_holding false
       (snd (fst (Queries.queryRest path
                    [Resolved response; Props.ok_answer emptyREST]))) = 1%nat.
Proof.
  cbn. unfold Queries.computing.
  split; [reflexivity|].
  split.
  - destruct ((attempt <? 5)%nat || (attempt mod 10 =? 0)%nat); reflexivity.
  - reflexivity.
Qed.

(** C4.  If the endpoint answers 202 on exactly the first K attempts
    (K < 60) and 200 on the next, [queryRest] returns the payload of the
    200 answer after exactly K+1 attempts: K+1 slots taken, K+1 requests
    sent, no warning, nothing left of the answers, and the call is never
    made to wait for a slot on a gatherer of its own. *)
Theorem queryRest_returns_after_K_computing_answers
    path (bs : list Props.Busy) headers payload tail :
  (List.length bs < Queries.maxAttempts)%nat ->
  let '(result, evs, unread) :=
    Queries.queryRest path
      (map Props.busy_answer bs ++ Resolved (mkResponse 200 headers (Some payload)) :: tail) in
  result = payload
  /\ unread = tail
  /\ Props.count_events is_acquire evs = S (List.length bs)
  /\ Props.count_events is_send evs = S (List.length bs)
  /\ Props.count_events is_warn evs = 0%nat
  /\ exists q, Props.alone (Queries.create Queries.default_maxConnections) evs = Some q.
Proof.
  intros HK.
  pose proof (queryRest_loop_alone path Queries.maxAttempts 0
                (map Props.busy_answer bs ++ Resolved (mkResponse 200 headers (Some payload)) :: tail)
                (Queries.create Queries.default_maxConnections)
                default_gatherer_has_room) as (q & Hq & _).
  revert Hq. unfold Queries.queryRest.
  replace Queries.maxAttempts
    with (List.length bs + S (Queries.maxAttempts - S (List.length bs)))%nat by lia.
  rewrite queryRest_loop_busy. cbn.
  intros Hq. rewrite !count_events_app.
  destruct (all_busy_events_counts path bs 0) as (-> & -> & ->).
  repeat split; cbn; try lia. eauto.
Qed.

Lemma queryRest_returns_after_K_computing_answers_witness :
  let '(result, evs, unread) :=
    Queries.queryRest "/repos/u/a/stats/contributors"
      (map Props.busy_answer [(false, None, None); (true, Some "3"%string, None); (false, None, None)]
       ++ Resolved (mkResponse 200 None (Some (RArray []))) :: []) in
  result = RArray []
  /\ unread = []
  /\ Props.count_events is_acquire evs = 4%nat
  /\ Props.count_events is_send evs = 4%nat
  /\ Props.count_events is_warn evs = 0%nat
  /\ exists q, Props.alone (Queries.create Queries.default_maxConnections) evs = Some q.
Proof.
  apply (queryRest_returns_after_K_computing_answers
           "/repos/u/a/stats/contributors"
           [(false, None, None); (true, Some "3"%string, None); (false, None, None)]
           None (RArray []) []).
  vm_compute. lia.
Defined.

(** C5.  If the endpoint answers 202 on all 60 attempts, [queryRest]
    returns the empty payload [{}]: 60 slots taken, 60 requests sent, the
    warning logged last and once, and the call is never made to wait for a
    slot on a gatherer of its own.  [queryRest] is a total function: it has
    no path that throws. *)
Theorem queryRest_gives_up_with_empty_payload path (bs : list Props.Busy) tail :
  List.length bs = Queries.maxAttempts ->
  let '(result, evs, unread) :=
    Queries.queryRest path (map Props.busy_answer bs ++ tail) in
  result = emptyREST
  /\ unread = tail
  /\ Props.count_events is_acquire evs = 60%nat
  /\ Props.count_events is_send evs = 60%nat
  /\ Props.count_events is_warn evs = 1%nat
  /\ (exists before, evs = before ++ [EvWarn path])
  /\ exists q, Props.alone (Queries.create Queries.default_maxConnections) evs = Some q.
Proof.
  intros HK.
  pose proof (queryRest_loop_alone path Queries.maxAttempts 0
                (map Props.busy_answer bs ++ tail)
                (Queries.create Queries.default_maxConnections)
                default_gatherer_has_room) as (q & Hq & _).
  revert Hq. unfold Queries.queryRest.
  replace Queries.maxAttempts with (List.length bs + 0)%nat by lia.
  rewrite queryRest_loop_busy. cbn.
  intros Hq. rewrite !count_events_app.
  destruct (all_busy_events_counts path bs 0) as (-> & -> & ->).
  rewrite HK. repeat split; cbn; eauto.
Qed.

Lemma queryRest_gives_up_with_empty_payload_witness :
  let '(result, evs, unread) :=
    Queries.queryRest "/repos/u/empty/stats/contributors"
      (map Props.busy_answer (repeat (false, None, None) 60) ++ []) in
  result = emptyREST
  /\ unread = []
  /\ Props.count_events is_acquire evs = 60%nat
  /\ Props.count_events is_send evs = 60%nat
  /\ Props.count_events is_warn evs = 1%nat
  /\ (exists before, evs = before ++ [EvWarn "/repos/u/empty/stats/contributors"%string])
  /\ exists q, Props.alone (Queries.create Queries.default_maxConnections) evs = Some q.
Proof.
  apply (queryRest_gives_up_with_empty_payload
           "/repos/u/empty/stats/contributors" (repeat (false, None, None) 60) []).
  reflexivity.
Defined.

End GathererClaims.

(* ------------------------------------------------------------------ *)
(** * The aggregation pass *)

Section Aggregation.
Import Http Types.

Lemma query_answer doc script :
  fst (fst (Queries.query doc script)) = fst (Props.answer script)
  /\ snd (Queries.query doc script) = snd (Props.answer script).
Proof.
  unfold Props.answer, Queries.query.
  destruct (next_outcome script) as [[r|e] script1]; [auto|].
  destruct (next_outcome script1) as [[r|e2] script2]; auto.
Qed.

(** A response that announces more pages was taken from the script. *)
Lemma answer_shortens script :
  Stats.hasMore (fst (Props.answer script)) = true ->
  (List.length (snd (Props.answer script)) < List.length script)%nat.
Proof.
  unfold Props.answer, Queries.query.
  destruct script as [|[r|e] script1]; cbn; [discriminate|lia|].
  destruct script1 as [|[r|e2] script2]; cbn; try discriminate; lia.
Qed.

(** With one more turn than the script is long, the loop ends by itself. *)
Lemma getStats_loop_ends fuel : forall s nextOwned nextContrib name acc w,
  (List.length (Stats.graphql w) < fuel)%nat ->
  snd (Stats.getStats_loop fuel s nextOwned nextContrib name acc w) = false.
Proof.
  induction fuel as [|fuel IH]; intros s nextOwned nextContrib name acc w Hlen; [lia|].
  cbn [Stats.getStats_loop].
  pose proof (query_answer (Queries.reposOverview nextOwned nextContrib) (Stats.graphql w))
    as [Hr Hs].
  pose proof (answer_shortens (Stats.graphql w)) as Hshort.
  destruct (Queries.query _ (Stats.graphql w)) as [[raw evs] script]. cbn in Hr, Hs.
  rewrite <- Hr, <- Hs in Hshort.
  destruct (Stats.hasMore raw) eqn:Hmore; [|reflexivity].
  apply IH. cbn. specialize (Hshort eq_refl). lia.
Qed.

Lemma getStats_run_ends s w : snd (Stats.getStats_run s w) = false.
Proof. apply getStats_loop_ends. unfold Stats.enough_fuel. lia. Qed.

(** The totals are those of visiting, in order, the nodes of the pages read. *)
Lemma getStats_loop_totals fuel : forall s nextOwned nextContrib name acc w,
  snd (fst (fst (Stats.getStats_loop fuel s nextOwned nextContrib name acc w)))
  = fold_left (Stats.visit (Stats.excludeRepos s) (map JS.toLowerCase (Stats.excludeLangs s)))
      (flat_map (Stats.page_repos (Stats.ignoreForkedRepos s))
         (Props.pages_read fuel (Stats.graphql w)))
      acc.
Proof.
  induction fuel as [|fuel IH]; intros s nextOwned nextContrib name acc w; [reflexivity|].
  cbn [Stats.getStats_loop Props.pages_read].
  pose proof (query_answer (Queries.reposOverview nextOwned nextContrib) (Stats.graphql w))
    as [Hr Hs].
  destruct (Queries.query _ (Stats.graphql w)) as [[raw evs] script]. cbn in Hr, Hs.
  destruct (Props.answer (Stats.graphql w)) as [raw' unread]. cbn in Hr, Hs. subst raw' unread.
  destruct (Stats.hasMore raw).
  - rewrite IH. cbn [flat_map]. now rewrite fold_left_app.
  - cbn [flat_map fst snd]. now rewrite app_nil_r.
Qed.

(** The name is the one resolved from the last page read. *)
Lemma getStats_loop_name fuel : forall s nextOwned nextContrib name acc w,
  fst (fst (fst (Stats.getStats_loop (S fuel) s nextOwned nextContrib name acc w)))
  = Stats.resolved_name (last (Props.pages_read (S fuel) (Stats.graphql w)) emptyGraphQL).
Proof.
  induction fuel as [|fuel IH]; intros s nextOwned nextContrib name acc w.
  - cbn [Stats.getStats_loop Props.pages_read].
    pose proof (query_answer (Queries.reposOverview nextOwned nextContrib) (Stats.graphql w))
      as [Hr Hs].
    destruct (Queries.query _ (Stats.graphql w)) as [[raw evs] script]. cbn in Hr, Hs.
    destruct (Props.answer (Stats.graphql w)) as [raw' unread]. cbn in Hr, Hs. subst raw' unread.
    destruct (Stats.hasMore raw); reflexivity.
  - remember (S fuel) as fuel1.
    cbn [Stats.getStats_loop Props.pages_read].
    pose proof (query_answer (Queries.reposOverview nextOwned nextContrib) (Stats.graphql w))
      as [Hr Hs].
    destruct (Queries.query _ (Stats.graphql w)) as [[raw evs] script]. cbn in Hr, Hs.
    destruct (Props.answer (Stats.graphql w)) as [raw' unread]. cbn in Hr, Hs. subst raw' unread.
    destruct (Stats.hasMore raw); [|reflexivity].
    subst fuel1. rewrite IH. cbn [Stats.graphql].
    remember (Props.pages_read (S fuel) script) as pages.
    destruct pages as [|p pages]; [|reflexivity].
    cbn in Heqpages. destruct (Props.answer script). discriminate.
Qed.

Lemma resolved_name_is_set raw : exists v, Stats.resolved_name raw = Some v.
Proof.
  unfold Stats.resolved_name, JS.str_or.
  destruct (JS.str_truthy _) eqn:H1.
  - destruct (match viewer raw with Some v => viewer_name v | None => None end); eauto.
    discriminate.
  - destruct (JS.str_truthy (match viewer raw with Some v => login v | None => None end)) eqn:H2;
      eauto.
    destruct (match viewer raw with Some v => login v | None => None end); eauto.
    discriminate.
Qed.

Lemma has_In set x : JS.has set x = true <-> In x set.
Proof.
  unfold JS.has. rewrite existsb_exists. split.
  - intros (y & Hy & Heq). apply String.eqb_eq in Heq. now subst.
  - intros H. exists x. split; [exact H|apply String.eqb_refl].
Qed.

Lemma has_not_In set x : JS.has set x = false <-> ~ In x set.
Proof.
  rewrite <- has_In. destruct (JS.has set x); split; congruence.
Qed.

(** Visiting a list of nodes counts the first node of each new name. *)
Lemma visit_counts_first excludeRepos lower l : forall acc,
  fold_left (Stats.visit excludeRepos lower) l acc
  = fold_left (Stats.count_repo lower)
      (Props.counted_from excludeRepos (Stats.repos acc) l) acc.
Proof.
  induction l as [|[r|] l IH]; intros acc; cbn [fold_left Props.counted_from Stats.visit]; auto.
  destruct (JS.has (Stats.repos acc) (nameWithOwner r) || JS.has excludeRepos (nameWithOwner r));
    [apply IH|].
  cbn [fold_left]. rewrite IH. reflexivity.
Qed.

Lemma count_repo_totals lower l : forall acc,
  Stats.repos (fold_left (Stats.count_repo lower) l acc)
  = Stats.repos acc ++ map nameWithOwner l
  /\ Stats.stargazers_sum (fold_left (Stats.count_repo lower) l acc)
     = Stats.stargazers_sum acc + Props.total Props.stars_of l
  /\ Stats.forks_sum (fold_left (Stats.count_repo lower) l acc)
     = Stats.forks_sum acc + Props.total Props.forks_of l
  /\ Stats.langs (fold_left (Stats.count_repo lower) l acc)
     = fold_left (Stats.add_language lower) (flat_map Props.edges_of l) (Stats.langs acc).
Proof.
  induction l as [|r l IH]; intros acc.
  - cbn. rewrite app_nil_r. repeat split; lia.
  - cbn [fold_left].
    destruct (IH (Stats.count_repo lower acc r)) as (H1 & H2 & H3 & H4).
    rewrite H1, H2, H3, H4. clear.
    cbn [Stats.count_repo Stats.repos Stats.stargazers_sum Stats.forks_sum Stats.langs
         map flat_map Props.total fold_right].
    rewrite <- app_assoc, fold_left_app.
    unfold Props.stars_of, Props.forks_of, Props.edges_of, Props.total.
    repeat split; try reflexivity; lia.
Qed.

Lemma counted_from_In excludeRepos l : forall seen n,
  In n (map nameWithOwner (Props.counted_from excludeRepos seen l))
  <-> In n (Props.names_of l) /\ ~ In n seen /\ ~ In n excludeRepos.
Proof.
  induction l as [|[r|] l IH]; intros seen n; cbn [Props.counted_from Props.names_of flat_map map].
  - cbn. tauto.
  - fold (Props.names_of l). cbn [app In].
    destruct (JS.has seen (nameWithOwner r)) eqn:Hseen; cbn [orb].
    + apply has_In in Hseen. rewrite IH. split; [tauto|].
      intros ([Heq|H] & H1 & H2); [rewrite <- Heq in H1|]; tauto.
    + apply has_not_In in Hseen.
      destruct (JS.has excludeRepos (nameWithOwner r)) eqn:Hex.
      * apply has_In in Hex. rewrite IH. split; [tauto|].
        intros ([Heq|H] & H1 & H2); [rewrite <- Heq in H2|]; tauto.
      * apply has_not_In in Hex. cbn [map In]. rewrite IH, in_app_iff. cbn [In].
        destruct (string_dec (nameWithOwner r) n) as [Heq|Hne]; [rewrite <- Heq|]; tauto.
  - fold (Props.names_of l). cbn [app]. apply IH.
Qed.

Lemma counted_from_NoDup excludeRepos l : forall seen,
  NoDup (map nameWithOwner (Props.counted_from excludeRepos seen l)).
Proof.
  induction l as [|[r|] l IH]; intros seen; cbn [Props.counted_from map]; auto using NoDup_nil.
  destruct (JS.has seen (nameWithOwner r) || JS.has excludeRepos (nameWithOwner r)); auto.
  cbn [map]. constructor; auto.
  rewrite counted_from_In, in_app_iff. cbn. tauto.
Qed.

Lemma NoDup_same_members_length (l l' : list string) :
  NoDup l -> NoDup l' -> (forall x, In x l <-> In x l') -> List.length l = List.length l'.
Proof.
  intros H H' Hiff. apply Nat.le_antisymm; apply NoDup_incl_length; auto;
    intros x Hx; apply Hiff; exact Hx.
Qed.

(** What the pass leaves in the five fields it writes. *)
Lemma getStats_fields s w :
  let kept := Props.counted (Stats.excludeRepos s) (Props.repos_read s w) in
  exists w1,
    Stats.getStats s w
    = (Stats.mk (Stats.username s) (Stats.ignoreForkedRepos s)
         (Stats.excludeRepos s) (Stats.excludeLangs s)
         (Stats.resolved_name
            (last (Props.pages_read (Stats.enough_fuel w) (Stats.graphql w)) emptyGraphQL))
         (Some (Props.total Props.stars_of kept))
         (Some (Props.total Props.forks_of kept))
         (Stats._totalContributions s)
         (Some (Stats.proportions
                  (fold_left (Stats.add_language (map JS.toLowerCase (Stats.excludeLangs s)))
                     (flat_map Props.edges_of kept) [])))
         (Some (map nameWithOwner kept))
         (Stats._linesChanged s) (Stats._views s),
       w1).
Proof.
  intros kept. unfold Stats.getStats, Stats.getStats_run.
  pose proof (getStats_loop_totals (Stats.enough_fuel w) s None None (Stats._name s)
                (Stats.mkTotals [] 0 0 []) w) as Htot.
  pose proof (getStats_loop_name (List.length (Stats.graphql w)) s None None (Stats._name s)
                (Stats.mkTotals [] 0 0 []) w) as Hname.
  fold (Stats.enough_fuel w) in Hname.
  destruct (Stats.getStats_loop (Stats.enough_fuel w) s None None (Stats._name s)
              (Stats.mkTotals [] 0 0 []) w) as [[[name acc] w1] flag].
  cbn [fst snd] in Htot, Hname.
  rewrite visit_counts_first in Htot. cbn [Stats.repos] in Htot.
  fold (Props.repos_read s w) in Htot.
  fold (Props.counted (Stats.excludeRepos s) (Props.repos_read s w)) in Htot.
  fold kept in Htot.
  destruct (count_repo_totals (map JS.toLowerCase (Stats.excludeLangs s)) kept
              (Stats.mkTotals [] 0 0 [])) as (H1 & H2 & H3 & H4).
  rewrite <- Htot in H1, H2, H3, H4. cbn in H1, H2, H3, H4.
  exists w1. rewrite Hname, H1, H2, H3, H4. reflexivity.
Qed.

(** The repository set and the totals after the pass, in terms of the
    nodes read. *)
Lemma getStats_aggregate s w :
  let s' := fst (Stats.getStats s w) in
  let read := Props.repos_read s w in
  let kept := Props.counted (Stats.excludeRepos s) read in
  Stats._repos s' = Some (map nameWithOwner kept)
  /\ NoDup (map nameWithOwner kept)
  /\ (forall n, In n (map nameWithOwner kept)
                <-> In n (Props.names_of read) /\ ~ In n (Stats.excludeRepos s))
  /\ List.length (map nameWithOwner kept)
     = List.length (nodup string_dec
                      (filter (fun n => negb (JS.has (Stats.excludeRepos s) n))
                         (Props.names_of read)))
  /\ Stats._stargazers s' = Some (Props.total Props.stars_of kept)
  /\ Stats._forks s' = Some (Props.total Props.forks_of kept)
  /\ Stats._languages s'
     = Some (Stats.proportions
               (fold_left (Stats.add_language (map JS.toLowerCase (Stats.excludeLangs s)))
                  (flat_map Props.edges_of kept) [])).
Proof.
  intros s' read kept.
  destruct (getStats_fields s w) as (w1 & Hs). subst s'. rewrite Hs. cbn [fst].
  fold read in Hs |- *. fold kept in Hs |- *.
  assert (Hin : forall n, In n (map nameWithOwner kept)
                          <-> In n (Props.names_of read) /\ ~ In n (Stats.excludeRepos s)).
  { intros n. unfold kept, Props.counted. rewrite counted_from_In. cbn. tauto. }
  assert (Hnd : NoDup (map nameWithOwner kept)) by apply counted_from_NoDup.
  repeat split; try reflexivity; try apply Hin; auto.
  apply NoDup_same_members_length; auto using NoDup_nodup.
  intros n. rewrite Hin, nodup_In, filter_In, negb_true_iff, has_not_In. tauto.
Qed.

Lemma repos_read_nodes s w :
  Props.repos_read s w
  = Reads.nodes_on (Stats.ignoreForkedRepos s)
      (Props.pages_read (Stats.enough_fuel w) (Stats.graphql w)).
Proof.
  unfold Props.repos_read, Reads.nodes_on.
  induction (Props.pages_read (Stats.enough_fuel w) (Stats.graphql w)) as [|raw pages IH];
    [reflexivity|].
  cbn [flat_map]. rewrite IH. f_equal.
  unfold Stats.page_repos, Reads.owned_nodes, Reads.contributed_nodes.
  now destruct (Stats.ignoreForkedRepos s).
Qed.

(** C6.  Whatever pages the pass reads, every repository name is counted
    once at most.  The nodes are those of the owned source and, unless
    forks are ignored, of the contributed-to source of every page read:
    the repository set is the list of their names that are not excluded,
    each once (so its size is the number of distinct such names, however
    they are spread over pages and over the two sources), and the star
    total, the fork total and the language aggregate are those of one
    node per name of the set.  An excluded name is not in the set and adds
    nothing. *)
Theorem getStats_counts_each_repository_once s w :
  let s' := fst (Stats.getStats s w) in
  let pages := Props.pages_read (Stats.enough_fuel w) (Stats.graphql w) in
  let read := Reads.nodes_on (Stats.ignoreForkedRepos s) pages in
  let kept := Props.counted (Stats.excludeRepos s) read in
  Stats._repos s' = Some (map nameWithOwner kept)
  /\ NoDup (map nameWithOwner kept)
  /\ (forall n, In n (map nameWithOwner kept)
                <-> In n (Props.names_of read) /\ ~ In n (Stats.excludeRepos s))
  /\ List.length (map nameWithOwner kept)
     = List.length (nodup string_dec
                      (filter (fun n => negb (JS.has (Stats.excludeRepos s) n))
                         (Props.names_of read)))
  /\ Stats._stargazers s' = Some (Props.total Props.stars_of kept)
  /\ Stats._forks s' = Some (Props.total Props.forks_of kept)
  /\ Stats._languages s'
     = Some (Stats.proportions
               (fold_left (Stats.add_language (map JS.toLowerCase (Stats.excludeLangs s)))
                  (flat_map Props.edges_of kept) [])).
Proof.
  cbn zeta. rewrite <- repos_read_nodes. exact (getStats_aggregate s w).
Qed.

(** On two pages with both sources: six nodes with names, four names that
    are not excluded, four members; the stars, the forks and the bytes of
    [u/a] and [v/b] are counted once, those of [u/x] not at all. *)
Lemma getStats_counts_each_repository_once_witness :
  let s := Stats.create "u" ["u/x"%string] [] false in
  let s' := fst (Stats.getStats s Reads.mixed_pages) in
  Stats._repos s' = Some ["u/a"; "v/b"; "u/c"; "v/d"]%string
  /\ Stats._stargazers s' = Some 17
  /\ Stats._forks s' = Some 7
  /\ option_map (map (fun kv => (fst kv, lang_size (snd kv), occurrences (snd kv))))
       (Stats._languages s')
     = Some [("TS"%string, 120, 2); ("JS"%string, 30, 1)]
  /\ Stats._repos (fst (Stats.getStats (Stats.create "u" [] [] true) Reads.mixed_pages))
     = Some ["u/a"; "u/x"; "u/c"]%string.
Proof.
  cbn zeta.
  destruct (getStats_counts_each_repository_once
              (Stats.create "u" ["u/x"%string] [] false) Reads.mixed_pages)
    as (H1 & _ & _ & _ & H5 & H6 & H7).
  destruct (getStats_counts_each_repository_once
              (Stats.create "u" [] [] true) Reads.mixed_pages) as (H8 & _).
  rewrite H1, H5, H6, H7, H8. repeat split; reflexivity.
Defined.

(** Without exclusions the repository set has as many members as there
    are distinct names on the pages read. *)
Corollary getStats_set_size_without_exclusions s w :
  Stats.excludeRepos s = [] ->
  option_map (@List.length string) (Stats._repos (fst (Stats.getStats s w)))
  = Some (List.length (nodup string_dec (Props.names_of (Props.repos_read s w)))).
Proof.
  intros Hex.
  destruct (getStats_aggregate s w) as (H1 & _ & _ & H4 & _).
  rewrite H1. cbn [option_map]. rewrite H4, Hex.
  do 3 f_equal. clear.
  induction (Props.names_of (Props.repos_read s w)) as [|n l IH]; [reflexivity|].
  cbn [filter]. unfold JS.has at 1. cbn [existsb negb]. now rewrite IH.
Qed.

(** C3 (the code departs from the claim).  [getStats] passes its cursors
    to [reposOverview] in the order (owned, contributed) while the
    parameters are (contribCursor, ownedCursor): the [after:] of
    [repositories] receives the contributed-to cursor and the [after:] of
    [repositoriesContributedTo] the owned one.  On the two pages of the
    example the second query asks the owned source to continue after C1 and
    the contributed-to source after O1. *)
Theorem getStats_swaps_the_cursors :
  (forall nextOwned nextContrib,
      Queries.reposOverview nextOwned nextContrib
      = ReposOverviewDoc (Queries.after_arg nextContrib) (Queries.after_arg nextOwned))
  /\ Props.posted (Stats.events (snd (Stats.getStats Props.user Props.two_pages)))
     = [ReposOverviewDoc (Queries.after_arg None) (Queries.after_arg None);
        ReposOverviewDoc (Queries.after_arg (Some "C1"%string))
                         (Queries.after_arg (Some "O1"%string))].
Proof. split; reflexivity. Qed.

(** [getName] returns: the stored name, or the name the pass resolves. *)
Lemma getName_returns s w :
  exists v s1 w1,
    Stats.getName s w = (Stats.Ok v, s1, w1)
    /\ Stats._name s1 = Some v
    /\ match Stats._name s with
       | Some n => v = n
       | None =>
           Some v = Stats.resolved_name
                      (last (Props.pages_read (Stats.enough_fuel w) (Stats.graphql w))
                            emptyGraphQL)
       end.
Proof.
  unfold Stats.getName. destruct (Stats._name s) as [n|] eqn:Hn.
  - exists n, s, w. auto.
  - destruct (getStats_fields s w) as (w1 & Hs). rewrite Hs. cbn [Stats._name].
    destruct (resolved_name_is_set
                (last (Props.pages_read (Stats.enough_fuel w) (Stats.graphql w)) emptyGraphQL))
      as [v Hv].
    rewrite Hv. eexists _, _, _. repeat split.
Qed.

(** C9 as stated does not hold: no state of the aggregator and no
    responses leave the name absent after the pass, and none make
    [getName] raise the error of its null check. *)
Lemma no_response_leaves_the_name_absent :
  ~ exists (s : Stats.t) (w : Stats.World),
      Stats._name (fst (Stats.getStats s w)) = None
      \/ fst (fst (Stats.getName s w)) = Stats.Throw "Name is null after getStats".
Proof.
  intros (s & w & [H|H]).
  - destruct (getStats_fields s w) as (w1 & Hs). rewrite Hs in H. cbn [fst Stats._name] in H.
    destruct (resolved_name_is_set
                (last (Props.pages_read (Stats.enough_fuel w) (Stats.graphql w)) emptyGraphQL))
      as [v Hv].
    congruence.
  - destruct (getName_returns s w) as (v & s1 & w1 & Heq & _).
    rewrite Heq in H. discriminate.
Qed.

Lemma str_truthy_not_empty x :
  JS.str_truthy x = true -> exists v, x = Some v /\ v <> EmptyString.
Proof.
  destruct x as [v|]; [|discriminate].
  intros H. exists v. split; [reflexivity|].
  intros ->. discriminate.
Qed.

Lemma resolved_name_not_empty rawResults :
  exists v, Stats.resolved_name rawResults = Some v /\ v <> EmptyString.
Proof.
  unfold Stats.resolved_name, JS.str_or.
  destruct (JS.str_truthy _) eqn:H1.
  - now apply str_truthy_not_empty.
  - destruct (JS.str_truthy (match viewer rawResults with Some v => login v | None => None end))
      eqn:H2.
    + now apply str_truthy_not_empty.
    + exists "No Name"%string. split; [reflexivity|discriminate].
Qed.

(** C9, amended.  The name is never absent after a pass: every turn sets
    it to the viewer's name, else the login, else the literal [No Name],
    so after [getStats] the field holds the name resolved from the last
    page read, a string that is not empty, and [No Name] when that page
    has neither name nor login.  The null check of [getName] is
    unreachable: whatever the responses, the accessor does not raise its
    error. *)
Theorem getName_null_check_is_unreachable s w :
  let last_page :=
    last (Props.pages_read (Stats.enough_fuel w) (Stats.graphql w)) emptyGraphQL in
  Stats._name (fst (Stats.getStats s w)) = Stats.resolved_name last_page
  /\ (exists v, Stats.resolved_name last_page = Some v /\ v <> EmptyString)
  /\ (match viewer last_page with
      | Some v => JS.str_truthy (viewer_name v) || JS.str_truthy (login v)
      | None => false
      end = false ->
      Stats.resolved_name last_page = Some "No Name"%string)
  /\ fst (fst (Stats.getName s w)) <> Stats.Throw "Name is null after getStats".
Proof.
  intros last_page.
  split; [|split; [|split]].
  - destruct (getStats_fields s w) as (w1 & Hs). rewrite Hs. reflexivity.
  - apply resolved_name_not_empty.
  - unfold Stats.resolved_name, JS.str_or.
    destruct (viewer last_page) as [v|]; [|reflexivity].
    intros H. apply orb_false_elim in H as [-> ->]. reflexivity.
  - destruct (getName_returns s w) as (v & s1 & w1 & Heq & _).
    rewrite Heq. discriminate.
Qed.

(** Without a response at all, and with a viewer that has an empty name
    and no login, the name is [No Name]. *)
Lemma getName_null_check_is_unreachable_witness :
  Stats._name (fst (Stats.getStats Props.user (Stats.mkWorld [] [] [])))
  = Some "No Name"%string
  /\ Stats._name
       (fst (Stats.getStats Props.user
               (Stats.mkWorld
                  [Resolved (mkResponse 200 None
                     (Some (mkGraphQLResponse
                              (Some (mkViewer None (Some EmptyString) None None None [])))))]
                  [] [])))
     = Some "No Name"%string.
Proof.
  split.
  - destruct (getName_null_check_is_unreachable Props.user (Stats.mkWorld [] [] []))
      as (H1 & _ & H3 & _).
    rewrite H1. apply H3. reflexivity.
  - match goal with |- Stats._name (fst (Stats.getStats ?s ?w)) = _ =>
      destruct (getName_null_check_is_unreachable s w) as (H1 & _ & H3 & _)
    end.
    rewrite H1. apply H3. reflexivity.
Defined.

Lemma langsTotal_from sum o :
  fold_left (fun sum kv => sum + lang_size (snd kv)) o sum
  = sum + Props.total (fun kv : string * LanguageData => lang_size (snd kv)) o.
Proof.
  revert sum. induction o as [|kv o IH]; intros sum; cbn; [lia|].
  rewrite IH. unfold Props.total. lia.
Qed.

Lemma langsTotal_total o :
  Stats.langsTotal o = Props.total (fun kv : string * LanguageData => lang_size (snd kv)) o.
Proof. unfold Stats.langsTotal. now rewrite langsTotal_from. Qed.

Lemma langsTotal_app o o' :
  Stats.langsTotal (o ++ o') = Stats.langsTotal o + Stats.langsTotal o'.
Proof.
  unfold Stats.langsTotal. rewrite fold_left_app, !langsTotal_from. lia.
Qed.

Lemma langsTotal_bump k n o :
  Stats.own_key k o = true ->
  Stats.langsTotal (Stats.bump k n o) = Stats.langsTotal o + n.
Proof.
  rewrite !langsTotal_total.
  induction o as [|[k' v] o IH]; cbn; [discriminate|].
  destruct (String.eqb k k'); cbn; [lia|].
  intros H. specialize (IH H). unfold Props.total in *. lia.
Qed.

Lemma has_lowered excludeLangs x :
  JS.has (map JS.toLowerCase excludeLangs) x
  = existsb (fun l => String.eqb x (JS.toLowerCase l)) excludeLangs.
Proof.
  unfold JS.has. induction excludeLangs as [|l ls IH]; cbn; [reflexivity|].
  now rewrite IH.
Qed.

(** One edge without a name, seen by the body of the loop over the
    edges: its key is [Other]; it is dropped when a member of the language
    exclusion set is [other] up to case, and else counted under [Other]. *)
Lemma add_language_unnamed excludeLangs o lang :
  Props.unnamed lang = true ->
  let lower := map JS.toLowerCase excludeLangs in
  let excluded := existsb (fun l => String.eqb "other" (JS.toLowerCase l)) excludeLangs in
  let n := JS.num_or (size lang) 0 in
  Stats.langName lang = "Other"%string
  /\ Stats.add_language lower o lang
     = (if excluded then o
        else if Stats.own_key "Other" o then Stats.bump "Other" n o
        else o ++ [("Other"%string, mkLanguageData n 1 (Stats.langColor lang) None)])
  /\ Stats.langsTotal (Stats.add_language lower o lang)
     = Stats.langsTotal o + (if excluded then 0 else n).
Proof.
  intros Hun lower excluded n.
  assert (Hname : Stats.langName lang = "Other"%string).
  { unfold Stats.langName, JS.str_or. unfold Props.unnamed in Hun.
    destruct (node lang) as [nd|]; [|reflexivity].
    apply negb_true_iff in Hun. now rewrite Hun. }
  assert (Hadd : Stats.add_language lower o lang
                 = (if excluded then o
                    else if Stats.own_key "Other" o then Stats.bump "Other" n o
                    else o ++ [("Other"%string,
                                mkLanguageData n 1 (Stats.langColor lang) None)])).
  { unfold Stats.add_language. rewrite Hname. unfold lower. rewrite has_lowered.
    change (JS.toLowerCase "Other") with "other"%string. fold excluded.
    destruct excluded; [reflexivity|].
    destruct (Stats.own_key "Other" o); reflexivity. }
  split; [exact Hname|]. split; [exact Hadd|].
  rewrite Hadd. destruct excluded; [lia|].
  destruct (Stats.own_key "Other" o) eqn:Hown.
  - now apply langsTotal_bump.
  - rewrite langsTotal_app. unfold Stats.langsTotal. cbn. lia.
Qed.

(** A pass over one repository with a nameless edge of 7 bytes and 21
    bytes of TS: [Other] is an entry, with a quarter of the total. *)
Example nameless_language_in_the_aggregate :
  option_map (map (fun kv => (fst kv, lang_size (snd kv), occurrences (snd kv))))
    (Stats._languages (fst (Stats.getStats Props.user Props.nameless_language)))
  = Some [("Other"%string, 7, 1); ("TS"%string, 21, 1)]
  /\ option_map Stats.langsTotal
       (Stats._languages (fst (Stats.getStats Props.user Props.nameless_language)))
     = Some 28.
Proof. split; reflexivity. Qed.

Lemma langsTotal_proportions total o :
  Stats.langsTotal (map (Stats.set_prop total) o) = Stats.langsTotal o.
Proof.
  rewrite !langsTotal_total. induction o as [|kv o IH]; cbn; [reflexivity|].
  unfold Props.total in IH. now rewrite IH.
Qed.

(** C7 as stated does not hold.  One repository whose only language edge
    has size 0: the language set is not empty, the total is 0, the
    percentage is [100 * (0 / 0)], not a number, and so is the sum. *)
Lemma proportions_of_a_zero_total :
  exists o,
    Stats._languages (fst (Stats.getStats Props.user Props.empty_file_only)) = Some o
    /\ o <> []
    /\ Stats.langsTotal o = 0
    /\ Props.sum_props o = JS.NaN
    /\ ~ Props.sums_to_100 o.
Proof.
  eexists. split; [reflexivity|].
  split; [discriminate|]. split; [reflexivity|]. split; [reflexivity|].
  intros (q & Hq & _). discriminate.
Qed.

End Aggregation.

(* ------------------------------------------------------------------ *)
(** * The memoising accessors *)

Section Accessors.
Import Http Types.









(** On the two pages of the example: the first accessor runs the pass
    (two queries), the others read what it stored and send nothing. *)
Example one_pass_serves_all_accessors :
  let '(s1, w1) := Stats.calls [Stats.GetStargazers] Props.user Props.two_pages in
  let '(s2, w2) :=
    Stats.calls [Stats.GetName; Stats.GetForks; Stats.GetRepos; Stats.GetLanguages;
                 Stats.GetLanguagesProportional; Stats.GetStargazers] s1 w1 in
  List.length (Props.posted (Stats.events w1)) = 2%nat
  /\ Stats.stored Stats.GetStargazers s1 = Some (Stats.VNumber 8)
  /\ Stats.stored Stats.GetForks s1 = Some (Stats.VNumber 1)
  /\ Stats.stored Stats.GetRepos s1 = Some (Stats.VRepos ["u/a"; "u/b"]%string)
  /\ (s2, w2) = (s1, w1).
Proof. vm_compute. auto 6. Qed.

End Accessors.

(* ------------------------------------------------------------------ *)
(** * The aggregator on its own gatherer *)

Section Unhindered.
Import Http Types.

Lemma unhindered_nil : Props.unhindered [].
Proof. intros q Hq. exists q. auto. Qed.

Lemma unhindered_app evs evs' : Props.unhindered evs -> Props.unhindered evs' -> Props.unhindered (evs ++ evs').
Proof.
  intros H H' q Hq. destruct (H q Hq) as (q1 & H1 & Hq1).
  destruct (H' q1 Hq1) as (q2 & H2 & Hq2).
  exists q2. rewrite alone_app, H1. auto.
Qed.

Lemma extends_refl w : Props.extends w w.
Proof. exists []. rewrite app_nil_r. auto using unhindered_nil. Qed.

Lemma extends_trans w1 w2 w3 : Props.extends w1 w2 -> Props.extends w2 w3 -> Props.extends w1 w3.
Proof.
  intros (e1 & H1 & U1) (e2 & H2 & U2). exists (e1 ++ e2).
  rewrite H2, H1, app_assoc. auto using unhindered_app.
Qed.

Lemma extends_by w graphql rest evs :
  Props.unhindered evs -> Props.extends w (Stats.mkWorld graphql rest (Stats.events w ++ evs)).
Proof. intros H. exists evs. auto. Qed.

Lemma query_unhindered doc script : Props.unhindered (snd (fst (Queries.query doc script))).
Proof.
  intros q Hq. pose proof (acquire_with_room q Hq) as Ha. destruct Hq as [Hlt Hq].
  assert (Hroom : Props.has_room (Queries.mk (Queries.maxConnections q)
                                   (Queries.activeRequests q + 1 - 1) [])).
  { split; cbn; [lia|reflexivity]. }
  unfold Queries.query.
  destruct (next_outcome script) as [[r|e] script1].
  - cbn. rewrite Ha. cbn. eauto.
  - destruct (next_outcome script1) as [[r|e2] script2]; cbn; rewrite Ha; cbn; eauto.
Qed.

Lemma queryRest_unhindered path script : Props.unhindered (snd (fst (Queries.queryRest path script))).
Proof. intros q Hq. apply queryRest_loop_alone. exact Hq. Qed.

Lemma getStats_loop_extends fuel : forall s nextOwned nextContrib name acc w,
  Props.extends w (snd (fst (Stats.getStats_loop fuel s nextOwned nextContrib name acc w))).
Proof.
  induction fuel as [|fuel IH]; intros s nextOwned nextContrib name acc w; [apply extends_refl|].
  cbn [Stats.getStats_loop].
  pose proof (query_unhindered (Queries.reposOverview nextOwned nextContrib) (Stats.graphql w))
    as Hq.
  destruct (Queries.query _ (Stats.graphql w)) as [[raw evs] script]. cbn [fst snd] in Hq.
  destruct (Stats.hasMore raw).
  - eapply extends_trans; [|apply IH]. apply extends_by, Hq.
  - cbn [fst snd]. apply extends_by, Hq.
Qed.

Lemma getStats_extends s w : Props.extends w (snd (Stats.getStats s w)).
Proof.
  unfold Stats.getStats, Stats.getStats_run.
  pose proof (getStats_loop_extends (Stats.enough_fuel w) s None None (Stats._name s)
                (Stats.mkTotals [] 0 0 []) w) as H.
  destruct (Stats.getStats_loop _ _ _ _ _ _ _) as [[[name acc] w1] flag]. exact H.
Qed.

Lemma linesChanged_loop_extends username repos : forall acc w,
  Props.extends w (snd (Stats.linesChanged_loop username repos acc w)).
Proof.
  induction repos as [|repo repos IH]; intros acc w; [apply extends_refl|].
  cbn [Stats.linesChanged_loop].
  pose proof (queryRest_unhindered ("/repos/" ++ repo ++ "/stats/contributors")%string
                (Stats.rest w)) as Hq.
  destruct (Queries.queryRest _ (Stats.rest w)) as [[r evs] script]. cbn [fst snd] in Hq.
  eapply extends_trans; [|apply IH]. apply extends_by, Hq.
Qed.

Lemma views_loop_extends repos : forall total w,
  Props.extends w (snd (Stats.views_loop repos total w)).
Proof.
  induction repos as [|repo repos IH]; intros total w; [apply extends_refl|].
  cbn [Stats.views_loop].
  pose proof (queryRest_unhindered ("/repos/" ++ repo ++ "/traffic/views")%string
                (Stats.rest w)) as Hq.
  destruct (Queries.queryRest _ (Stats.rest w)) as [[r evs] script]. cbn [fst snd] in Hq.
  destruct (Stats.first_response r).
  - eapply extends_trans; [|apply IH]. apply extends_by, Hq.
  - cbn [snd]. apply extends_by, Hq.
Qed.

Lemma getRepos_extends s w : Props.extends w (snd (Stats.getRepos s w)).
Proof.
  unfold Stats.getRepos. destruct (Stats._repos s); [apply extends_refl|].
  pose proof (getStats_extends s w) as H.
  destruct (Stats.getStats s w) as [s1 w1]. destruct (Stats._repos s1); exact H.
Qed.

Lemma call_extends acc s w : Props.extends w (snd (Stats.call acc s w)).
Proof.
  pose proof (getStats_extends s w) as HS.
  pose proof (getRepos_extends s w) as HR.
  destruct acc; unfold Stats.call, Stats.lift.
  - unfold Stats.getName. destruct (Stats._name s); [apply extends_refl|].
    destruct (Stats.getStats s w) as [s1 w1]. destruct (Stats._name s1); exact HS.
  - unfold Stats.getStargazers. destruct (Stats._stargazers s); [apply extends_refl|].
    destruct (Stats.getStats s w) as [s1 w1]. destruct (Stats._stargazers s1); exact HS.
  - unfold Stats.getForks. destruct (Stats._forks s); [apply extends_refl|].
    destruct (Stats.getStats s w) as [s1 w1]. destruct (Stats._forks s1); exact HS.
  - unfold Stats.getLanguages. destruct (Stats._languages s); [apply extends_refl|].
    destruct (Stats.getStats s w) as [s1 w1]. destruct (Stats._languages s1); exact HS.
  - unfold Stats.getLanguagesProportional. destruct (Stats._languages s); [apply extends_refl|].
    destruct (Stats.getStats s w) as [s1 w1]. destruct (Stats._languages s1); exact HS.
  - destruct (Stats.getRepos s w) as [[r s1] w1]. exact HR.
  - unfold Stats.getTotalContributions.
    destruct (Stats._totalContributions s); [apply extends_refl|].
    pose proof (query_unhindered Queries.contribYears (Stats.graphql w)) as H1.
    destruct (Queries.query Queries.contribYears (Stats.graphql w)) as [[r1 e1] s1].
    match goal with |- context [Queries.query ?d s1] =>
      pose proof (query_unhindered d s1) as H2; destruct (Queries.query d s1) as [[r2 e2] s2]
    end.
    cbn [fst snd] in *. apply extends_by, unhindered_app; assumption.
  - unfold Stats.getLinesChanged. destruct (Stats._linesChanged s); [apply extends_refl|].
    destruct (Stats.getRepos s w) as [[[repos|m] s1] w1]; [|exact HR].
    pose proof (linesChanged_loop_extends (Stats.username s1) repos (0, 0) w1) as HL.
    destruct (Stats.linesChanged_loop _ _ _ _) as [acc w2].
    cbn [fst snd] in *. eapply extends_trans; eassumption.
  - unfold Stats.getViews. destruct (Stats._views s); [apply extends_refl|].
    destruct (Stats.getRepos s w) as [[[repos|m] s1] w1]; [|exact HR].
    pose proof (views_loop_extends repos 0 w1) as HL.
    destruct (Stats.views_loop _ _ _) as [[total|] w2];
      cbn [fst snd] in *; eapply extends_trans; eassumption.
Qed.

Lemma calls_extends accs : forall s w, Props.extends w (snd (Stats.calls accs s w)).
Proof.
  induction accs as [|acc accs IH]; intros s w; [apply extends_refl|].
  cbn [Stats.calls]. pose proof (call_extends acc s w) as H.
  destruct (Stats.call acc s w) as [[r s1] w1]. cbn [snd] in H.
  eapply extends_trans; [exact H|apply IH].
Qed.

(** X2.  Used by one caller at a time, the aggregator is never made to
    wait by its own gatherer: on any script of network outcomes, every
    [acquireSemaphore] in the trace of any sequence of accessor calls is
    admitted at once. *)
Theorem sequential_calls_never_wait accs s graphql rest :
  exists q,
    Props.alone (Queries.create Queries.default_maxConnections)
      (Stats.events (snd (Stats.calls accs s (Stats.mkWorld graphql rest [])))) = Some q.
Proof.
  destruct (calls_extends accs s (Stats.mkWorld graphql rest [])) as (evs & Hev & Hun).
  rewrite Hev. cbn. destruct (Hun _ default_gatherer_has_room) as (q & Hq & _). eauto.
Qed.

End Unhindered.

(* ------------------------------------------------------------------ *)
(** ** The gatherer, call by call *)

Section GathererMore.
Import Http Types.

Lemma slot_balance_app evs evs' :
  Props.slot_balance (evs ++ evs') = Props.slot_balance evs + Props.slot_balance evs'.
Proof.
  induction evs as [|e evs IH]; [reflexivity|].
  destruct e; cbn [app Props.slot_balance]; rewrite ?IH; lia.
Qed.

Lemma slot_balance_computing path attempt response :
  Props.slot_balance (Queries.computing path attempt response) = 0.
Proof.
  unfold Queries.computing.
  destruct ((attempt <? 5)%nat || (attempt mod 10 =? 0)%nat); reflexivity.
Qed.

Lemma count_computing p path attempt response :
  p (EvWait None) = false -> (forall d, p (EvWait d) = false) ->
  (forall a b c, p (EvLog a b c) = false) ->
  Props.count_events p (Queries.computing path attempt response) = 0%nat.
Proof.
  intros _ Hw Hl. unfold Queries.computing, Props.count_events.
  destruct ((attempt <? 5)%nat || (attempt mod 10 =? 0)%nat); cbn; rewrite ?Hl, ?Hw; reflexivity.
Qed.

(** X3.  Whatever the network does, a call of [query] takes one slot and
    gives it back once, as its last act; it sends one request through the
    pooled client and at most one more with plain axios, reads one outcome
    per request, and returns the data of the first response it gets, [{}]
    when that response has none or when both requests are rejected. *)
Theorem query_takes_one_slot_and_gives_it_back doc script :
  let '(result, evs, unread) := Queries.query doc script in
  let sends := Props.count_events is_send evs in
  Props.count_events is_acquire evs = 1%nat
  /\ Props.count_events Calls.is_release evs = 1%nat
  /\ last evs EvAcquire = EvRelease
  /\ Sched.bracketed false false evs = true
  /\ Props.count_events Calls.is_pooled_send evs = 1%nat
  /\ (sends <= 2)%nat
  /\ unread = skipn sends script
  /\ result = match Calls.first_resolved (firstn sends script) with
              | Some r => Queries.gql_or_empty (data r)
              | None => emptyGraphQL
              end.
Proof.
  unfold Queries.query.
  destruct script as [|[r|e] [|[r2|e2] tail]]; cbn; repeat split; auto.
Qed.

Lemma attempt_body_balance path attempt script :
  let '(turn, evs, unread) := Queries.attempt_body path attempt script in
  Props.slot_balance evs
  = match script with
    | Resolved r :: _ => if status r =? 202 then -1 else 0
    | _ => -1
    end.
Proof.
  unfold Queries.attempt_body.
  destruct script as [|[r|e] tail]; cbn [next_outcome].
  - cbn. reflexivity.
  - destruct (status r =? 202); cbn; rewrite ?slot_balance_app, ?slot_balance_computing;
      reflexivity.
  - destruct (is_202_error e) as [r|].
    + cbn. rewrite slot_balance_app, slot_balance_computing. reflexivity.
    + destruct tail as [|[r|e2] tail2]; cbn [next_outcome]; [reflexivity| |reflexivity].
      destruct (status r =? 202); [|destruct (status r =? 200)]; cbn;
        rewrite ?slot_balance_app, ?slot_balance_computing; reflexivity.
Qed.

Lemma attempt_body_never_gains path attempt script :
  Props.slot_balance (snd (fst (Queries.attempt_body path attempt script))) <= 0.
Proof.
  pose proof (attempt_body_balance path attempt script) as H.
  destruct (Queries.attempt_body path attempt script) as [[turn evs] unread].
  cbn [fst snd]. rewrite H.
  destruct script as [|[r|e] tail]; try lia. destruct (status r =? 202); lia.
Qed.

Lemma queryRest_loop_never_gains path remaining : forall attempt script,
  Props.slot_balance (snd (fst (Queries.queryRest_loop path remaining attempt script))) <= 0.
Proof.
  induction remaining as [|remaining IH]; intros attempt script; [cbn; lia|].
  cbn [Queries.queryRest_loop].
  pose proof (attempt_body_never_gains path attempt script) as H.
  destruct (Queries.attempt_body path attempt script) as [[[payload|] evs] script1];
    cbn [fst snd] in *; [exact H|].
  specialize (IH (S attempt) script1).
  destruct (Queries.queryRest_loop path remaining (S attempt) script1) as [[p evs'] s2].
  cbn [fst snd] in *. rewrite slot_balance_app. lia.
Qed.

Lemma queryRest_loop_balanced path remaining attempt script :
  Props.slot_balance (snd (fst (Queries.queryRest_loop path (S remaining) attempt script))) = 0
  <-> exists r tail, script = Resolved r :: tail /\ status r <> 202.
Proof.
  cbn [Queries.queryRest_loop].
  pose proof (attempt_body_balance path attempt script) as H.
  destruct (Queries.attempt_body path attempt script) as [[turn evs] script1] eqn:Hbody.
  assert (Hturn : match turn with
                  | Queries.Return _ => True
                  | Queries.Continue => Props.slot_balance evs = -1
                  end).
  { revert Hbody H. unfold Queries.attempt_body.
    destruct script as [|[r|e] tail]; cbn [next_outcome].
    - intros [= <- <- <-] H. exact H.
    - destruct (Z.eqb_spec (status r) 202); intros [= <- <- <-] H; [exact H|exact I].
    - destruct (is_202_error e); [intros [= <- <- <-] H; exact H|].
      destruct (next_outcome tail) as [[r|e2] s2]; [|intros [= <- <- <-] H; exact H].
      destruct (status r =? 202); [intros [= <- <- <-] H; exact H|].
      destruct (status r =? 200); intros [= <- <- <-] H; [exact I|exact H]. }
  destruct turn as [payload|].
  - cbn [fst snd]. rewrite H. split.
    + intros H0. destruct script as [|[r|e] tail]; try lia.
      destruct (Z.eqb_spec (status r) 202); [lia|]. eauto.
    + intros (r & tail & -> & Hr).
      destruct (Z.eqb_spec (status r) 202); [contradiction|reflexivity].
  - pose proof (queryRest_loop_never_gains path remaining (S attempt) script1) as Hrest.
    destruct (Queries.queryRest_loop path remaining (S attempt) script1) as [[p evs'] s2].
    cbn [fst snd] in *. rewrite slot_balance_app, Hturn. split; [lia|].
    intros (r & tail & -> & Hr). exfalso.
    revert Hbody. unfold Queries.attempt_body. cbn [next_outcome].
    destruct (Z.eqb_spec (status r) 202); [contradiction|discriminate].
Qed.

(** X4.  [queryRest] gives back at least the slots it took, and exactly
    those only when its first answer is a response that is not a 202. *)
Theorem queryRest_gives_back_too_many_slots path script :
  let evs := snd (fst (Queries.queryRest path script)) in
  Props.slot_balance evs <= 0
  /\ (Props.slot_balance evs = 0
      <-> exists r tail, script = Resolved r :: tail /\ status r <> 202).
Proof.
  cbn zeta. split; [apply queryRest_loop_never_gains|].
  apply (queryRest_loop_balanced path 59 0 script).
Qed.

Lemma attempt_body_counts path attempt script :
  let '(turn, evs, unread) := Queries.attempt_body path attempt script in
  Props.count_events is_acquire evs = 1%nat
  /\ (1 <= Props.count_events is_send evs <= 2)%nat
  /\ Props.count_events is_warn evs = 0%nat
  /\ unread = skipn (Props.count_events is_send evs) script.
Proof.
  unfold Queries.attempt_body.
  assert (Hc : forall p, p (EvWait None) = false -> (forall d, p (EvWait d) = false) ->
               (forall a b c, p (EvLog a b c) = false) ->
               forall response, Props.count_events p (Queries.computing path attempt response) = 0%nat)
    by (intros; apply count_computing; auto).
  destruct script as [|[r|e] tail]; cbn [next_outcome].
  - cbn. repeat split; lia.
  - destruct (status r =? 202); cbn [fst snd]; rewrite ?count_events_app, ?Hc by reflexivity;
      cbn; repeat split; lia.
  - destruct (is_202_error e) as [r|].
    + rewrite !count_events_app, !Hc by reflexivity. cbn. repeat split; lia.
    + destruct tail as [|[r|e2] tail2]; cbn [next_outcome].
      * cbn. repeat split; lia.
      * destruct (status r =? 202); [|destruct (status r =? 200)];
          rewrite ?count_events_app, ?Hc by reflexivity; cbn; repeat split; lia.
      * cbn. repeat split; lia.
Qed.

Lemma skipn_skipn {A} n m (l : list A) : skipn n (skipn m l) = skipn (m + n) l.
Proof.
  revert l. induction m as [|m IH]; intros l; [reflexivity|].
  destruct l; cbn; [now destruct n|apply IH].
Qed.

Lemma queryRest_loop_counts path remaining : forall attempt script,
  let '(payload, evs, unread) := Queries.queryRest_loop path remaining attempt script in
  let attempts := Props.count_events is_acquire evs in
  let sends := Props.count_events is_send evs in
  (Nat.min 1 remaining <= attempts <= remaining)%nat
  /\ (attempts <= sends <= 2 * attempts)%nat
  /\ unread = skipn sends script
  /\ (Props.count_events is_warn evs = 0%nat
      \/ (Props.count_events is_warn evs = 1%nat /\ attempts = remaining
          /\ payload = emptyREST /\ exists before, evs = before ++ [EvWarn path])).
Proof.
  induction remaining as [|remaining IH]; intros attempt script.
  - cbn. repeat split; auto. right. repeat split; auto. exists []. reflexivity.
  - cbn [Queries.queryRest_loop].
    pose proof (attempt_body_counts path attempt script) as H.
    destruct (Queries.attempt_body path attempt script) as [[[payload|] evs] script1].
    + destruct H as (Ha & Hs & Hw & Hu). cbn zeta. rewrite Ha. repeat split; try lia; auto.
    + destruct H as (Ha & Hs & Hw & Hu).
      specialize (IH (S attempt) script1).
      destruct (Queries.queryRest_loop path remaining (S attempt) script1) as [[p evs'] s2].
      cbn zeta in *. destruct IH as (IHa & IHs & IHu & IHw).
      rewrite !count_events_app, Ha, Hw. repeat split; try lia.
      * rewrite IHu, Hu, skipn_skipn. reflexivity.
      * destruct IHw as [IHw|(IHw & IHr & IHp & IHl)]; [left; lia|right].
        destruct IHl as [before ->].
        repeat split; try lia; auto.
        exists (evs ++ before). now rewrite app_assoc.
Qed.

(** X5.  Whatever the network does, [queryRest] makes between 1 and 60
    attempts, sends one or two requests per attempt and reads one outcome
    per request; it warns at most once, as its last event, and only when
    it returns [{}] after 60 attempts. *)
Theorem queryRest_is_bounded path script :
  let '(payload, evs, unread) := Queries.queryRest path script in
  let attempts := Props.count_events is_acquire evs in
  let sends := Props.count_events is_send evs in
  (1 <= attempts <= 60)%nat
  /\ (attempts <= sends <= 2 * attempts)%nat
  /\ unread = skipn sends script
  /\ (Props.count_events is_warn evs = 0%nat
      \/ (Props.count_events is_warn evs = 1%nat /\ attempts = 60%nat
          /\ payload = emptyREST /\ exists before, evs = before ++ [EvWarn path])).
Proof.
  pose proof (queryRest_loop_counts path Queries.maxAttempts 0 script) as H.
  unfold Queries.queryRest.
  destruct (Queries.queryRest_loop path Queries.maxAttempts 0 script) as [[payload evs] unread].
  cbn zeta in *. unfold Queries.maxAttempts in H.
  destruct H as (Ha & Hs & Hu & Hw). repeat split; auto; lia.
Qed.

Lemma attempt_body_lost path attempt t tail :
  Calls.lost_turn t = true ->
  exists evs,
    Queries.attempt_body path attempt (Rejected (fst t) :: snd t :: tail)
    = (Queries.Continue, evs, tail)
    /\ Props.count_events is_acquire evs = 1%nat
    /\ Props.count_events is_send evs = 2%nat
    /\ Props.count_events Calls.is_pooled_send evs = 1%nat
    /\ Props.count_events Calls.is_wait evs = 0%nat
    /\ Props.count_events is_warn evs = 0%nat.
Proof.
  destruct t as [e o]. unfold Calls.lost_turn, Calls.is_failure, Calls.is_useless. cbn [fst snd].
  intros H. apply andb_true_iff in H as [He Ho].
  unfold Queries.attempt_body. cbn [next_outcome].
  destruct (is_202_error e); [discriminate|].
  destruct o as [r|e2].
  - apply andb_true_iff in Ho as [H202 H200].
    apply negb_true_iff in H202, H200. rewrite H202, H200.
    eexists. split; [reflexivity|]. cbn. auto 6.
  - eexists. split; [reflexivity|]. cbn. auto 6.
Qed.

Lemma queryRest_loop_lost path ts : forall remaining attempt tail,
  forallb Calls.lost_turn ts = true ->
  exists pre,
    Queries.queryRest_loop path (List.length ts + remaining) attempt
      (Calls.lost_answers ts ++ tail)
    = (let '(payload, evs, unread) :=
         Queries.queryRest_loop path remaining (attempt + List.length ts) tail in
       (payload, pre ++ evs, unread))
    /\ Props.count_events is_acquire pre = List.length ts
    /\ Props.count_events is_send pre = (2 * List.length ts)%nat
    /\ Props.count_events Calls.is_pooled_send pre = List.length ts
    /\ Props.count_events Calls.is_wait pre = 0%nat
    /\ Props.count_events is_warn pre = 0%nat.
Proof.
  induction ts as [|t ts IH]; intros remaining attempt tail Hall.
  - exists []. cbn. rewrite Nat.add_0_r.
    destruct (Queries.queryRest_loop path remaining attempt tail) as [[? ?] ?]. auto 6.
  - cbn [forallb] in Hall. apply andb_true_iff in Hall as [Ht Hall].
    destruct (attempt_body_lost path attempt t (Calls.lost_answers ts ++ tail) Ht)
      as (evs & Hbody & Ha & Hs & Hp & Hw & Hn).
    destruct (IH remaining (S attempt) tail Hall)
      as (pre & Hloop & IHa & IHs & IHp & IHw & IHn).
    exists (evs ++ pre).
    cbn [List.length Nat.add Calls.lost_answers flat_map app Queries.queryRest_loop].
    fold (Calls.lost_answers ts). rewrite Hbody, Hloop.
    replace (S attempt + List.length ts)%nat with (attempt + S (List.length ts))%nat by lia.
    destruct (Queries.queryRest_loop path remaining (attempt + S (List.length ts)) tail)
      as [[? ?] ?].
    split; [now rewrite app_assoc|].
    rewrite !count_events_app. repeat split; auto; lia.
Qed.

(** X6.  When the pooled client fails on every attempt, the call still
    succeeds through the fallback: after K < 60 turns lost to the
    transport, a turn whose pooled call is rejected and whose fallback
    answers 200 returns the payload of the fallback; K+1 attempts, two
    requests each, no wait in between. *)
Theorem queryRest_succeeds_through_the_fallback path ts e headers payload tail :
  forallb Calls.lost_turn ts = true ->
  Calls.is_failure e = true ->
  (List.length ts < Queries.maxAttempts)%nat ->
  let '(result, evs, unread) :=
    Queries.queryRest path
      (Calls.lost_answers ts
       ++ Rejected e :: Resolved (mkResponse 200 headers (Some payload)) :: tail) in
  result = payload
  /\ unread = tail
  /\ Props.count_events is_acquire evs = S (List.length ts)
  /\ Props.count_events is_send evs = (2 * S (List.length ts))%nat
  /\ Props.count_events Calls.is_pooled_send evs = S (List.length ts)
  /\ Props.count_events Calls.is_wait evs = 0%nat
  /\ Props.count_events is_warn evs = 0%nat.
Proof.
  intros Hall He HK. unfold Queries.queryRest.
  replace Queries.maxAttempts
    with (List.length ts + S (Queries.maxAttempts - S (List.length ts)))%nat by lia.
  destruct (queryRest_loop_lost path ts (S (Queries.maxAttempts - S (List.length ts))) 0
              (Rejected e :: Resolved (mkResponse 200 headers (Some payload)) :: tail) Hall)
    as (pre & Hloop & Ha & Hs & Hp & Hw & Hn).
  rewrite Hloop. cbn [Queries.queryRest_loop].
  unfold Queries.attempt_body. cbn [next_outcome].
  unfold Calls.is_failure in He. destruct (is_202_error e); [discriminate|].
  cbn. rewrite !count_events_app, Ha, Hs, Hp, Hw, Hn. cbn.
  repeat split; lia.
Qed.

Lemma queryRest_succeeds_through_the_fallback_witness :
  let '(result, evs, unread) :=
    Queries.queryRest "/repos/u/a/traffic/views"
      (Calls.lost_answers [(OtherError, Resolved (mkResponse 500 None None))]
       ++ Rejected (AxiosError None)
          :: Resolved (mkResponse 200 None (Some (RArray []))) :: []) in
  result = RArray []
  /\ unread = []
  /\ Props.count_events is_acquire evs = 2%nat
  /\ Props.count_events is_send evs = 4%nat
  /\ Props.count_events Calls.is_pooled_send evs = 2%nat
  /\ Props.count_events Calls.is_wait evs = 0%nat
  /\ Props.count_events is_warn evs = 0%nat.
Proof.
  apply (queryRest_succeeds_through_the_fallback "/repos/u/a/traffic/views"
           [(OtherError, Resolved (mkResponse 500 None None))] (AxiosError None) None
           (RArray []) []).
  - reflexivity.
  - reflexivity.
  - unfold Queries.maxAttempts. cbn [List.length]. lia.
Defined.

End GathererMore.

(* ------------------------------------------------------------------ *)
(** ** The delay between two attempts *)

Section Backoff.

Lemma pow_succ a : (Calls.growth (S a) == Calls.growth a * (3 # 2))%Q.
Proof.
  unfold Calls.growth. rewrite Nat2Z.inj_succ, <- Z.add_1_r, Qpower_plus by (unfold Qeq; cbn; lia).
  now rewrite Qpower_1_r.
Qed.

Lemma pow_pos a : (0 < Calls.growth a)%Q.
Proof. apply Qpower_0_lt. reflexivity. Qed.

Lemma pow_grows a : (Calls.growth a <= Calls.growth (S a))%Q.
Proof.
  rewrite pow_succ. rewrite <- (Qmult_1_r (Calls.growth a)) at 1.
  apply Qmult_le_l; [apply pow_pos|]. unfold Qle; cbn; lia.
Qed.

Lemma pow_from_4 k : (5 <= Calls.growth (4 + k))%Q.
Proof.
  induction k as [|k IH].
  - unfold Calls.growth, Qle. cbn. lia.
  - replace (4 + S k)%nat with (S (4 + k)) by lia.
    eapply Qle_trans; [exact IH|apply pow_grows].
Qed.

Lemma backoff_capped a : (4 <= a)%nat -> (Queries.backoff a == 10000)%Q.
Proof.
  intros H. unfold Queries.backoff. apply Q.min_r.
  replace a with (4 + (a - 4))%nat by lia.
  apply Qle_trans with (2000 * 5)%Q; [unfold Qle; cbn; lia|].
  apply Qmult_le_l; [reflexivity|apply pow_from_4].
Qed.

(** X7.  The delay between two attempts without a Retry-After: 2000 ms
    times 1.5 to the attempt for the attempts 0 to 3 (2000, 3000, 4500,
    6750), 10000 ms from the attempt 4 on; so it never shrinks and stays
    between 2 and 10 seconds. *)
Theorem backoff_grows_to_its_cap a :
  (Queries.backoff a
   == if (a <? 4)%nat then 2000 * Qpower (3 # 2) (Z.of_nat a) else 10000)%Q
  /\ (2000 <= Queries.backoff a)%Q
  /\ (Queries.backoff a <= 10000)%Q
  /\ (Queries.backoff a <= Queries.backoff (S a))%Q.
Proof.
  destruct (Nat.ltb_spec a 4) as [Hlt|Hge].
  - assert (Ha : a = 0%nat \/ a = 1%nat \/ a = 2%nat \/ a = 3%nat) by lia.
    destruct Ha as [ -> | [ -> | [ -> | -> ] ] ]; repeat split;
      try (unfold Queries.backoff, Qle, Qeq; cbn; lia);
      try (vm_compute; discriminate); try reflexivity.
  - pose proof (backoff_capped a Hge) as H.
    pose proof (backoff_capped (S a) (Nat.le_trans _ _ _ Hge (Nat.le_succ_diag_r a))) as H'.
    rewrite H, H'. repeat split; try reflexivity; unfold Qle; cbn; lia.
Qed.

End Backoff.

Section ParseInt.
Import Http Types.

Lemma digit_char d :
  (d <= 9)%nat ->
  JS.is_digit (ascii_of_nat (48 + d)) = true
  /\ JS.digit_value (ascii_of_nat (48 + d)) = Z.of_nat d
  /\ JS.is_space (ascii_of_nat (48 + d)) = false
  /\ ascii_of_nat (48 + d) <> "-"%char
  /\ ascii_of_nat (48 + d) <> "+"%char.
Proof.
  intros H.
  do 10 (destruct d as [|d]; [cbn; repeat split; discriminate|]). lia.
Qed.

Lemma digits_prefix_text ds : forall tail acc,
  Forall (fun d => (d <= 9)%nat) ds ->
  ds <> [] ->
  Calls.starts_with_digit tail = false ->
  JS.digits_prefix (Calls.digits_text ds ++ tail) acc
  = Some (fold_left (fun acc d => 10 * acc + Z.of_nat d) ds
            (match acc with Some a => a | None => 0 end)).
Proof.
  induction ds as [|d ds IH]; intros tail acc Hall Hne Htail; [congruence|].
  inversion Hall as [|? ? Hd Hds]; subst.
  destruct (digit_char d Hd) as (Hdig & Hval & _).
  cbn [Calls.digits_text append JS.digits_prefix fold_left]. rewrite Hdig, Hval.
  destruct ds as [|d' ds].
  - cbn. destruct tail as [|c tail]; [reflexivity|].
    cbn in Htail |- *. now rewrite Htail.
  - rewrite IH; auto; discriminate.
Qed.

(** X8.  A Retry-After that begins with decimal digits is read as that
    many seconds: the wait is the number times 1000 ms whatever the
    attempt, and what follows the digits is ignored.  The number of
    milliseconds is at most 2^53, so that [parseInt] and the product are
    exact in binary64. *)
Theorem retry_after_seconds_set_the_wait ds tail attempt :
  Forall (fun d => (d <= 9)%nat) ds ->
  ds <> [] ->
  Calls.starts_with_digit tail = false ->
  Calls.digits_value ds * 1000 <= 2 ^ 53 ->
  JS.parseInt (Calls.digits_text ds ++ tail) = Some (Calls.digits_value ds)
  /\ Queries.retry_delay (Some (Calls.digits_text ds ++ tail)%string) attempt
     = Some (inject_Z (Calls.digits_value ds * 1000)).
Proof.
  intros Hall Hne Htail _.
  assert (Hp : JS.parseInt (Calls.digits_text ds ++ tail) = Some (Calls.digits_value ds)).
  { destruct ds as [|d ds]; [congruence|].
    pose proof (digits_prefix_text (d :: ds) tail None Hall Hne Htail) as Hdp.
    inversion Hall as [|? ? Hd Hds]; subst.
    destruct (digit_char d Hd) as (_ & _ & Hsp & Hminus & Hplus).
    unfold JS.parseInt, Calls.digits_value.
    cbn [Calls.digits_text append JS.skip_space] in Hdp |- *. rewrite Hsp.
    remember (ascii_of_nat (48 + d)) as c eqn:Hc. clear Hc.
    destruct c as [[|] [|] [|] [|] [|] [|] [|] [|]]; try exact Hdp;
      exfalso; [apply Hplus|apply Hminus]; reflexivity. }
  split; [exact Hp|].
  unfold Queries.retry_delay. rewrite Hp.
  destruct ds as [|d ds]; [congruence|]. reflexivity.
Qed.

Lemma retry_after_seconds_set_the_wait_witness :
  JS.parseInt "120" = Some 120
  /\ Queries.retry_delay (Some "120"%string) 7 = Some (inject_Z 120000).
Proof.
  apply (retry_after_seconds_set_the_wait [1; 2; 0]%nat EmptyString 7%nat).
  - repeat constructor.
  - discriminate.
  - reflexivity.
  - vm_compute. discriminate.
Defined.

(** X9.  A Retry-After that is there but does not begin with a number (an
    HTTP date, say) replaces the backoff all the same: the delay is then
    not a number ([None]), not the backoff.  Only a missing or empty
    header leaves the backoff in place. *)
Theorem retry_after_without_number_gives_no_delay c rest attempt :
  JS.is_space c = false ->
  JS.is_digit c = false ->
  c <> "-"%char -> c <> "+"%char ->
  Queries.retry_delay (Some (String c rest)) attempt = None
  /\ Queries.retry_delay (Some EmptyString) attempt = Some (Queries.backoff attempt)
  /\ Queries.retry_delay None attempt = Some (Queries.backoff attempt).
Proof.
  intros Hsp Hd Hm Hp. split; [|split; reflexivity].
  unfold Queries.retry_delay. cbn [JS.str_truthy String.eqb negb].
  unfold JS.parseInt. cbn [JS.skip_space]. rewrite Hsp.
  assert (H : JS.digits_prefix (String c rest) None = None) by (cbn; now rewrite Hd).
  destruct c as [[|] [|] [|] [|] [|] [|] [|] [|]]; try (rewrite H; reflexivity);
    exfalso; [apply Hp|apply Hm]; reflexivity.
Qed.

Lemma retry_after_without_number_gives_no_delay_witness :
  Queries.retry_delay (Some "Wed, 21 Oct 2015 07:28:00 GMT"%string) 2 = None
  /\ Queries.retry_delay (Some EmptyString) 2 = Some (Queries.backoff 2)
  /\ Queries.retry_delay None 2 = Some (Queries.backoff 2).
Proof.
  apply (retry_after_without_number_gives_no_delay
           "W"%char ("ed, 21 Oct 2015 07:28:00 GMT")%string 2%nat);
    try reflexivity; discriminate.
Defined.

End ParseInt.

Section Cadence.
Import Http Types.

Lemma busy_events_cadence path attempt b :
  Props.count_events Calls.is_wait (Props.busy_events path attempt b) = 1%nat
  /\ Props.count_events Calls.is_log (Props.busy_events path attempt b)
     = (if (attempt <? 5)%nat || (attempt mod 10 =? 0)%nat then 1 else 0)%nat.
Proof.
  remember ((attempt <? 5)%nat || (attempt mod 10 =? 0)%nat) as c eqn:Hc.
  destruct b as [[[|] retryAfter] body];
    unfold Props.busy_events, Props.count_events; cbn;
    unfold Queries.computing; rewrite <- Hc;
    destruct c; cbn; split; reflexivity.
Qed.

Lemma all_busy_events_cadence path bs : forall attempt,
  Props.count_events Calls.is_wait (Props.all_busy_events path attempt bs) = List.length bs
  /\ Props.count_events Calls.is_log (Props.all_busy_events path attempt bs)
     = Calls.logged attempt (List.length bs).
Proof.
  induction bs as [|b bs IH]; intros attempt; [split; reflexivity|].
  cbn [Props.all_busy_events List.length Calls.logged]. rewrite !count_events_app.
  destruct (busy_events_cadence path attempt b) as [-> ->].
  destruct (IH (S attempt)) as [-> ->]. split; reflexivity.
Qed.

Lemma logged_closed_form K :
  (K <= 60)%nat -> Calls.logged 0 K = (Nat.min K 5 + (K - 1) / 10)%nat.
Proof.
  intros H.
  assert (Hall : forallb (fun K => (Calls.logged 0 K =? Nat.min K 5 + (K - 1) / 10)%nat)
                   (seq 0 61) = true) by (vm_compute; reflexivity).
  rewrite forallb_forall in Hall. apply Nat.eqb_eq, Hall, in_seq. lia.
Qed.

Lemma queryRest_loop_ok path remaining attempt headers payload tail :
  Queries.queryRest_loop path (S remaining) attempt
    (Resolved (mkResponse 200 headers (Some payload)) :: tail)
  = (payload,
     [EvAcquire; EvSend true (Get (Queries.rest_url path)); EvSettle; EvRelease], tail).
Proof. reflexivity. Qed.

(** X10.  A call answered 202 K times (K < 60) and then 200 waits exactly
    K times and writes a progress line on its first five attempts and on
    every tenth after them: min(K, 5) + (K - 1) / 10 lines. *)
Theorem queryRest_waits_and_reports_on_schedule path (bs : list Props.Busy)
    headers payload tail :
  (List.length bs < Queries.maxAttempts)%nat ->
  let evs := snd (fst (Queries.queryRest path
                         (map Props.busy_answer bs
                          ++ Resolved (mkResponse 200 headers (Some payload)) :: tail))) in
  Props.count_events Calls.is_wait evs = List.length bs
  /\ Props.count_events Calls.is_log evs
     = (Nat.min (List.length bs) 5 + (List.length bs - 1) / 10)%nat.
Proof.
  intros HK. cbn zeta. unfold Queries.queryRest.
  replace Queries.maxAttempts
    with (List.length bs + S (Queries.maxAttempts - S (List.length bs)))%nat by lia.
  rewrite queryRest_loop_busy, queryRest_loop_ok. cbn [fst snd].
  rewrite !count_events_app.
  destruct (all_busy_events_cadence path bs 0) as [-> ->].
  rewrite logged_closed_form by (unfold Queries.maxAttempts in HK; lia).
  cbn. split; lia.
Qed.

Lemma queryRest_waits_and_reports_on_schedule_witness :
  let evs := snd (fst (Queries.queryRest "/repos/u/a/stats/contributors"
                         (map Props.busy_answer (repeat (false, None, None) 12)
                          ++ Resolved (mkResponse 200 None (Some emptyREST)) :: []))) in
  Props.count_events Calls.is_wait evs = 12%nat
  /\ Props.count_events Calls.is_log evs = 6%nat.
Proof.
  apply (queryRest_waits_and_reports_on_schedule "/repos/u/a/stats/contributors"
           (repeat (false, None, None) 12) None emptyREST []).
  vm_compute. lia.
Defined.

End Cadence.

(* ------------------------------------------------------------------ *)
(** ** The language aggregate *)

Section Languages.
Import Http Types.

Lemma own_key_lookup k o : Stats.own_key k o = true <-> Dict.lookup k o <> None.
Proof.
  unfold Stats.own_key, Dict.lookup.
  induction o as [|[k' v] o IH]; cbn; [split; [discriminate|congruence]|].
  destruct (String.eqb k k'); cbn; [split; [discriminate|reflexivity]|exact IH].
Qed.

Lemma lookup_bump k k' n o :
  Dict.lookup k (Stats.bump k' n o)
  = if String.eqb k k'
    then option_map (fun v => mkLanguageData (lang_size v + n) (occurrences v + 1)
                                (lang_color v) (prop v))
           (Dict.lookup k o)
    else Dict.lookup k o.
Proof.
  unfold Dict.lookup.
  induction o as [|[k0 v] o IH]; cbn; [now destruct (String.eqb k k')|].
  destruct (String.eqb_spec k' k0) as [->|Hne]; cbn.
  - destruct (String.eqb_spec k k0) as [->|Hk]; cbn; reflexivity.
  - destruct (String.eqb_spec k k0) as [->|Hk]; cbn.
    + destruct (String.eqb_spec k0 k'); [congruence|reflexivity].
    + exact IH.
Qed.

Lemma lookup_app k o o' :
  Dict.lookup k (o ++ o')
  = match Dict.lookup k o with Some v => Some v | None => Dict.lookup k o' end.
Proof.
  unfold Dict.lookup. induction o as [|[k0 v] o IH]; cbn; [reflexivity|].
  destruct (String.eqb k k0); cbn; [reflexivity|exact IH].
Qed.

(** One edge, seen from the key [k]. *)
Lemma lookup_add_language lower o k e :
  Dict.lookup k (Stats.add_language lower o e)
  = if negb (String.eqb k (Stats.langName e)) || JS.has lower (JS.toLowerCase k)
    then Dict.lookup k o
    else match Dict.lookup k o with
         | Some v => Some (mkLanguageData (lang_size v + Dict.edge_size e) (occurrences v + 1)
                             (lang_color v) (prop v))
         | None =>
             if JS.has Stats.inherited_keys k then None
             else Some (mkLanguageData (Dict.edge_size e) 1 (Stats.langColor e) None)
         end.
Proof.
  unfold Stats.add_language, Dict.edge_size.
  destruct (String.eqb_spec k (Stats.langName e)) as [->|Hne]; cbn [negb orb].
  - destruct (JS.has lower _); [reflexivity|].
    destruct (Stats.own_key (Stats.langName e) o) eqn:Hown.
    + rewrite lookup_bump, String.eqb_refl.
      apply own_key_lookup in Hown. destruct (Dict.lookup _ o); [reflexivity|congruence].
    + assert (Hnone : Dict.lookup (Stats.langName e) o = None).
      { destruct (Dict.lookup (Stats.langName e) o) eqn:E; [|reflexivity].
        assert (Stats.own_key (Stats.langName e) o = true)
          by (apply own_key_lookup; congruence). congruence. }
      rewrite Hnone.
      destruct (JS.has Stats.inherited_keys _); [exact Hnone|].
      rewrite lookup_app, Hnone. unfold Dict.lookup. cbn. now rewrite String.eqb_refl.
  - destruct (JS.has lower (JS.toLowerCase (Stats.langName e))); [reflexivity|].
    destruct (Stats.own_key (Stats.langName e) o).
    + rewrite lookup_bump. destruct (String.eqb_spec k (Stats.langName e)); congruence.
    + destruct (JS.has Stats.inherited_keys _); [reflexivity|].
      rewrite lookup_app. destruct (Dict.lookup k o); [reflexivity|].
      unfold Dict.lookup. cbn.
      destruct (String.eqb_spec k (Stats.langName e)); [congruence|reflexivity].
Qed.

Lemma lookup_fold_add lower k edges : forall o,
  Dict.lookup k (fold_left (Stats.add_language lower) edges o)
  = if JS.has lower (JS.toLowerCase k) then Dict.lookup k o
    else
      let es := Dict.edges_named k edges in
      match Dict.lookup k o with
      | Some v => Some (mkLanguageData (lang_size v + Props.total Dict.edge_size es)
                          (occurrences v + Z.of_nat (List.length es))
                          (lang_color v) (prop v))
      | None =>
          if JS.has Stats.inherited_keys k then None
          else match es with
               | [] => None
               | first :: _ =>
                   Some (mkLanguageData (Props.total Dict.edge_size es)
                           (Z.of_nat (List.length es)) (Stats.langColor first) None)
               end
      end.
Proof.
  induction edges as [|e edges IH]; intros o.
  - cbn [fold_left]. unfold Dict.edges_named.
    cbn [filter Props.total fold_right List.length Z.of_nat].
    destruct (JS.has lower _); [reflexivity|].
    destruct (Dict.lookup k o) as [[sz oc co pr]|].
    + cbn [lang_size occurrences lang_color prop]. f_equal. f_equal; lia.
    + now destruct (JS.has Stats.inherited_keys k).
  - cbn [fold_left]. rewrite IH, lookup_add_language.
    unfold Dict.edges_named. cbn [filter].
    destruct (JS.has lower (JS.toLowerCase k)) eqn:Hex; [now rewrite orb_true_r|].
    rewrite orb_false_r.
    destruct (String.eqb k (Stats.langName e)); cbn [negb].
    + fold (Dict.edges_named k edges).
      destruct (Dict.lookup k o) as [v|]; cbn zeta.
      * cbn [lang_size occurrences lang_color prop Props.total fold_right List.length].
        fold (Props.total Dict.edge_size (Dict.edges_named k edges)).
        f_equal. f_equal; lia.
      * destruct (JS.has Stats.inherited_keys k); [reflexivity|].
        cbn [lang_size occurrences lang_color prop Props.total fold_right List.length].
        fold (Props.total Dict.edge_size (Dict.edges_named k edges)).
        f_equal. f_equal; lia.
    + fold (Dict.edges_named k edges). reflexivity.
Qed.

Lemma lookup_set_prop total k o :
  Dict.lookup k (map (Stats.set_prop total) o)
  = option_map (fun v => mkLanguageData (lang_size v) (occurrences v) (lang_color v)
                           (Some (JS.scale 100 (JS.div (lang_size v) total))))
      (Dict.lookup k o).
Proof.
  unfold Dict.lookup. induction o as [|[k0 v] o IH]; cbn; [reflexivity|].
  destruct (String.eqb k k0); cbn; [reflexivity|exact IH].
Qed.

(** X11.  When no language edge of the counted repositories is named
    [__proto__]: after the pass, the entry of a language is nothing when
    the name is excluded up to letter case, is the name of a property
    every object inherits, or names no edge of a counted repository; and
    else the sum of the sizes of the edges of that name over the counted
    repositories, their number, and the colour of the first of them. *)
Theorem getStats_language_entry s w k :
  let lower := map JS.toLowerCase (Stats.excludeLangs s) in
  let pages := Props.pages_read (Stats.enough_fuel w) (Stats.graphql w) in
  let kept := Props.counted (Stats.excludeRepos s)
                (Reads.nodes_on (Stats.ignoreForkedRepos s) pages) in
  let es := Dict.edges_named k (flat_map Props.edges_of kept) in
  Dict.no_proto (flat_map Props.edges_of kept) = true ->
  exists o,
    Stats._languages (fst (Stats.getStats s w)) = Some o
    /\ option_map Dict.summary (Dict.lookup k o)
       = if Dict.dropped lower k then None
         else match es with
              | [] => None
              | first :: _ =>
                  Some (Props.total Dict.edge_size es, Z.of_nat (List.length es),
                        Stats.langColor first)
              end.
Proof.
  intros lower pages kept es _.
  destruct (getStats_fields s w) as (w1 & Hs). rewrite Hs. cbn [fst Stats._languages].
  eexists. split; [reflexivity|].
  unfold Stats.proportions. rewrite lookup_set_prop, repos_read_nodes.
  fold pages. fold kept. fold lower. rewrite lookup_fold_add. fold es.
  unfold Dict.dropped.
  destruct (JS.has lower (JS.toLowerCase k)); [reflexivity|].
  cbn [Dict.lookup find option_map orb].
  destruct (JS.has Stats.inherited_keys k); [reflexivity|].
  destruct es; reflexivity.
Qed.

Lemma getStats_language_entry_witness :
  exists o,
    Stats._languages (fst (Stats.getStats Props.user Props.two_pages)) = Some o
    /\ option_map Dict.summary (Dict.lookup "TS" o) = Some (150, 2, None)
    /\ option_map Dict.summary (Dict.lookup "toString" o) = None.
Proof.
  destruct (getStats_language_entry Props.user Props.two_pages "TS" eq_refl)
    as (o & Ho & Hts).
  exists o. split; [exact Ho|]. split; [exact Hts|].
  assert (Hc : Stats._languages (fst (Stats.getStats Props.user Props.two_pages))
               = Some (Stats.proportions
                         [("TS"%string, mkLanguageData 150 2 None None);
                          ("JS"%string, mkLanguageData 50 1 None None)])) by reflexivity.
  rewrite Hc in Ho. injection Ho as <-. reflexivity.
Defined.

Lemma plain_keys_bump k n o : Dict.plain_keys (Stats.bump k n o) = Dict.plain_keys o.
Proof.
  unfold Dict.plain_keys. induction o as [|[k' v] o IH]; [reflexivity|].
  cbn [Stats.bump]. destruct (String.eqb k k'); cbn [forallb fst]; [reflexivity|now rewrite IH].
Qed.

Lemma own_key_plain k o :
  Dict.plain_keys o = true -> Stats.own_key k o = true -> JS.has Stats.inherited_keys k = false.
Proof.
  unfold Dict.plain_keys, Stats.own_key. rewrite forallb_forall, existsb_exists.
  intros Hall ([k' v] & Hin & Heq). apply String.eqb_eq in Heq. cbn in Heq. subst k'.
  apply negb_true_iff, (Hall _ Hin).
Qed.

Lemma add_language_total lower o e :
  Dict.plain_keys o = true ->
  Dict.plain_keys (Stats.add_language lower o e) = true
  /\ Stats.langsTotal (Stats.add_language lower o e)
     = Stats.langsTotal o
       + (if Dict.dropped lower (Stats.langName e) then 0 else Dict.edge_size e).
Proof.
  intros Hplain. unfold Stats.add_language, Dict.dropped, Dict.edge_size.
  destruct (JS.has lower _); cbn [orb]; [split; [exact Hplain|lia]|].
  destruct (Stats.own_key (Stats.langName e) o) eqn:Hown.
  - rewrite (own_key_plain _ _ Hplain Hown), plain_keys_bump.
    split; [exact Hplain|]. now apply langsTotal_bump.
  - destruct (JS.has Stats.inherited_keys (Stats.langName e)) eqn:Hin;
      [split; [exact Hplain|lia]|].
    split.
    + unfold Dict.plain_keys in *. rewrite forallb_app, Hplain.
      cbn [forallb fst andb]. now rewrite Hin.
    + rewrite langsTotal_app. unfold Stats.langsTotal at 2. cbn. lia.
Qed.

Lemma fold_add_language_total lower edges : forall o,
  Dict.plain_keys o = true ->
  Stats.langsTotal (fold_left (Stats.add_language lower) edges o)
  = Stats.langsTotal o + Props.total Dict.edge_size (Dict.retained lower edges).
Proof.
  induction edges as [|e edges IH]; intros o Hplain.
  { unfold Dict.retained. cbn [fold_left filter Props.total fold_right]. lia. }
  cbn [fold_left]. destruct (add_language_total lower o e Hplain) as [Hp Ht].
  rewrite (IH _ Hp), Ht. unfold Dict.retained, Props.total. cbn [filter].
  destruct (Dict.dropped lower (Stats.langName e)); cbn [negb fold_right]; lia.
Qed.

(** X12.  When no language edge of the counted repositories is named
    [__proto__]: the total the percentages are divided by is the sum of
    the sizes of the language edges of the counted repositories, those
    left out whose name is excluded up to letter case (or is the name of
    an inherited property): an excluded language adds nothing to the
    denominator. *)
Theorem getStats_denominator s w :
  let lower := map JS.toLowerCase (Stats.excludeLangs s) in
  let pages := Props.pages_read (Stats.enough_fuel w) (Stats.graphql w) in
  let kept := Props.counted (Stats.excludeRepos s)
                (Reads.nodes_on (Stats.ignoreForkedRepos s) pages) in
  Dict.no_proto (flat_map Props.edges_of kept) = true ->
  option_map Stats.langsTotal (Stats._languages (fst (Stats.getStats s w)))
  = Some (Props.total Dict.edge_size (Dict.retained lower (flat_map Props.edges_of kept))).
Proof.
  intros lower pages kept _.
  destruct (getStats_fields s w) as (w1 & Hs). rewrite Hs.
  cbn [fst Stats._languages option_map]. rewrite repos_read_nodes.
  fold pages. fold kept. fold lower.
  unfold Stats.proportions. rewrite langsTotal_proportions, fold_add_language_total by reflexivity.
  reflexivity.
Qed.

Lemma getStats_denominator_witness :
  let s := Stats.create "u" [] ["js"%string] false in
  option_map Stats.langsTotal (Stats._languages (fst (Stats.getStats s Props.two_pages)))
  = Some 150.
Proof.
  exact (getStats_denominator (Stats.create "u" [] ["js"%string] false) Props.two_pages
           eq_refl).
Defined.

Lemma langName_Other e : String.eqb "Other" (Stats.langName e) = Dict.is_Other e.
Proof.
  unfold Stats.langName, Dict.is_Other, Props.unnamed, JS.str_or.
  destruct (node e) as [n|]; [|reflexivity].
  destruct (name n) as [x|]; [|reflexivity].
  destruct x as [|c x]; [reflexivity|].
  change (JS.str_truthy (Some (String c x))) with true. cbn [negb orb].
  apply String.eqb_sym.
Qed.

Lemma edges_named_Other edges : Dict.edges_named "Other" edges = Dict.under_Other edges.
Proof.
  unfold Dict.edges_named, Dict.under_Other.
  apply filter_ext. intros e. apply langName_Other.
Qed.

Lemma retained_by_name lower edges :
  Props.total Dict.edge_size (Dict.retained lower edges)
  = Props.total Dict.edge_size (Dict.retained lower (Dict.named_otherwise edges))
    + (if JS.has lower "other" then 0
       else Props.total Dict.edge_size (Dict.under_Other edges)).
Proof.
  unfold Dict.retained, Dict.named_otherwise, Dict.under_Other, Props.total.
  induction edges as [|e edges IH]; cbn [filter fold_right].
  { destruct (JS.has lower "other"); reflexivity. }
  destruct (Dict.is_Other e) eqn:Ho; cbn [negb].
  - rewrite <- langName_Other in Ho. apply String.eqb_eq in Ho. rewrite <- Ho.
    unfold Dict.dropped at 1.
    change (JS.toLowerCase "Other") with "other"%string.
    change (JS.has Stats.inherited_keys "Other") with false. rewrite orb_false_r.
    destruct (JS.has lower "other"); cbn [negb fold_right]; lia.
  - cbn [filter]. destruct (Dict.dropped lower (Stats.langName e)); cbn [negb fold_right];
      destruct (JS.has lower "other"); lia.
Qed.

(** C10.  The pass does not skip a language edge whose node is missing
    or has no name: it files it under the key [Other].  When no language
    edge of the counted repositories is named [__proto__]: after
    [getStats] the aggregate has no entry [Other] when a member of the
    language exclusion set is [other] up to case or when no counted
    repository has such an edge; and else the entry [Other] has the sum of
    the sizes of these edges (a missing size counts 0), their number as
    occurrences, and the colour of the first.  The total the percentages
    are divided by is made of the sizes of the named languages that are
    retained, and of the sizes of these edges unless [other] is
    excluded. *)
Theorem unnamed_language_is_counted_as_Other s w :
  let pages := Props.pages_read (Stats.enough_fuel w) (Stats.graphql w) in
  let kept := Props.counted (Stats.excludeRepos s)
                (Reads.nodes_on (Stats.ignoreForkedRepos s) pages) in
  let edges := flat_map Props.edges_of kept in
  let others := Dict.under_Other edges in
  let lower := map JS.toLowerCase (Stats.excludeLangs s) in
  let excluded :=
    existsb (fun l => String.eqb "other" (JS.toLowerCase l)) (Stats.excludeLangs s) in
  Dict.no_proto edges = true ->
  exists o,
    Stats._languages (fst (Stats.getStats s w)) = Some o
    /\ option_map Dict.summary (Dict.lookup "Other" o)
       = (if excluded then None
          else match others with
               | [] => None
               | first :: _ =>
                   Some (Props.total Dict.edge_size others, Z.of_nat (List.length others),
                         Stats.langColor first)
               end)
    /\ Stats.langsTotal o
       = Props.total Dict.edge_size (Dict.retained lower (Dict.named_otherwise edges))
         + (if excluded then 0 else Props.total Dict.edge_size others).
Proof.
  intros pages kept edges others lower excluded _.
  destruct (getStats_fields s w) as (w1 & Hs). rewrite Hs. cbn [fst Stats._languages].
  eexists. split; [reflexivity|].
  rewrite repos_read_nodes. fold pages. fold kept. fold edges. fold lower.
  assert (Hex : JS.has lower "other" = excluded) by apply has_lowered.
  unfold Stats.proportions. split.
  - rewrite lookup_set_prop, lookup_fold_add, edges_named_Other. fold others.
    change (JS.toLowerCase "Other") with "other"%string. rewrite Hex.
    destruct excluded; [reflexivity|].
    cbn [Dict.lookup find option_map].
    change (JS.has Stats.inherited_keys "Other") with false. cbn iota.
    destruct others; reflexivity.
  - rewrite langsTotal_proportions, fold_add_language_total by reflexivity.
    change (Stats.langsTotal []) with 0. rewrite Z.add_0_l.
    rewrite retained_by_name, Hex. reflexivity.
Qed.

(** One repository with a nameless edge of 7 bytes and 21 bytes of TS:
    [Other] is an entry of 7 bytes in a total of 28; with [OTHER] in the
    exclusion set there is no such entry and the total is 21. *)
Lemma unnamed_language_is_counted_as_Other_witness :
  (exists o,
     Stats._languages (fst (Stats.getStats Props.user Props.nameless_language)) = Some o
     /\ option_map Dict.summary (Dict.lookup "Other" o) = Some (7, 1, None)
     /\ Stats.langsTotal o = 28)
  /\ (exists o,
        Stats._languages
          (fst (Stats.getStats (Stats.create "u" [] ["OTHER"%string] true)
                  Props.nameless_language)) = Some o
        /\ option_map Dict.summary (Dict.lookup "Other" o) = None
        /\ Stats.langsTotal o = 21).
Proof.
  split.
  - destruct (unnamed_language_is_counted_as_Other Props.user Props.nameless_language
                eq_refl) as (o & Ho & Hl & Ht).
    exists o. split; [exact Ho|]. split; [exact Hl|exact Ht].
  - destruct (unnamed_language_is_counted_as_Other
                (Stats.create "u" [] ["OTHER"%string] true) Props.nameless_language
                eq_refl) as (o & Ho & Hl & Ht).
    exists o. split; [exact Ho|]. split; [exact Hl|exact Ht].
Defined.

End Languages.

(* ------------------------------------------------------------------ *)
(** ** The percentages in binary64 *)

Section Proportions.
Import Http Types.
Local Open Scope Q_scope.

Lemma pow2_pos k : 0 < JS.pow2 k.
Proof. apply Qpower_0_lt. reflexivity. Qed.

Lemma pow2_plus a b : JS.pow2 (a + b) == JS.pow2 a * JS.pow2 b.
Proof. apply Qpower_plus. discriminate. Qed.

Lemma pow2_le a b : (a <= b)%Z -> JS.pow2 a <= JS.pow2 b.
Proof. intros H. apply Qpower_le_compat_l; [exact H|]. discriminate. Qed.

Lemma pow2_lt a b : (a < b)%Z -> JS.pow2 a < JS.pow2 b.
Proof. intros H. apply Qpower_lt_compat_l; [exact H|]. reflexivity. Qed.

Lemma pow2_lt_inv a b : JS.pow2 a < JS.pow2 b -> (a < b)%Z.
Proof.
  intros H. destruct (Z_lt_le_dec a b) as [|Hle]; [assumption|].
  apply pow2_le in Hle. lra.
Qed.

Lemma pow2_le_inv a b : JS.pow2 a <= JS.pow2 b -> (a <= b)%Z.
Proof.
  intros H. destruct (Z_le_gt_dec a b) as [|Hgt]; [assumption|].
  assert (JS.pow2 b < JS.pow2 a) by (apply pow2_lt; lia). lra.
Qed.

Lemma pow2_Z k : (0 <= k)%Z -> inject_Z (2 ^ k) == JS.pow2 k.
Proof. intros H. unfold JS.pow2. now rewrite Zpower_Qpower. Qed.

Lemma pow2_succ k : JS.pow2 (k + 1) == 2 * JS.pow2 k.
Proof. rewrite pow2_plus. change (JS.pow2 1) with 2. ring. Qed.

Lemma pow2_pred k : JS.pow2 (k - 1) == JS.pow2 k * (1 # 2).
Proof.
  assert (H := pow2_succ (k - 1)). replace (k - 1 + 1)%Z with k in H by lia.
  rewrite H. field.
Qed.

(** The exponent [JS.ilog2] computes is the right one. *)
Lemma ilog2_spec q : 0 < q -> JS.pow2 (JS.ilog2 q) <= q < JS.pow2 (JS.ilog2 q + 1).
Proof.
  intros Hq. destruct q as [n d]. unfold JS.ilog2. cbn [Qnum Qden].
  assert (Hn : (0 < n)%Z) by (unfold Qlt in Hq; cbn in Hq; lia).
  destruct (Z.log2_spec n Hn) as [Hn1 Hn2].
  destruct (Z.log2_spec (Zpos d) eq_refl) as [Hd1 Hd2].
  assert (Ln := Z.log2_nonneg n). assert (Ld := Z.log2_nonneg (Zpos d)).
  set (ln := Z.log2 n) in *. set (ld := Z.log2 (Zpos d)) in *.
  assert (Hq' : n # d == inject_Z n / inject_Z (Zpos d)) by apply Qmake_Qdiv.
  assert (Hdpos : 0 < inject_Z (Zpos d)) by reflexivity.
  assert (Pn1 : JS.pow2 ln <= inject_Z n).
  { rewrite <- pow2_Z by assumption. now rewrite <- Zle_Qle. }
  assert (Pn2 : inject_Z n < JS.pow2 (ln + 1)).
  { rewrite <- pow2_Z by lia. rewrite <- Zlt_Qlt. replace (ln + 1)%Z with (Z.succ ln) by lia.
    assumption. }
  assert (Pd1 : JS.pow2 ld <= inject_Z (Zpos d)).
  { rewrite <- pow2_Z by assumption. now rewrite <- Zle_Qle. }
  assert (Pd2 : inject_Z (Zpos d) < JS.pow2 (ld + 1)).
  { rewrite <- pow2_Z by lia. rewrite <- Zlt_Qlt. replace (ld + 1)%Z with (Z.succ ld) by lia.
    assumption. }
  assert (Hx : (n # d) * inject_Z (Zpos d) == inject_Z n).
  { rewrite Hq'. field. intros H. rewrite H in Hdpos. discriminate. }
  clear Hq'.
  set (x := n # d) in *. set (D := inject_Z (Zpos d)) in *. set (N := inject_Z n) in *.
  assert (E1 := pow2_plus (ln - ld) ld). replace (ln - ld + ld)%Z with ln in E1 by lia.
  assert (E3 := pow2_succ (ln - ld)). assert (E4 := pow2_pred (ln - ld)).
  assert (E5 := pow2_succ ld). assert (E6 := pow2_succ ln).
  assert (P0 := pow2_pos (ln - ld)). assert (P1 := pow2_pos ld).
  set (a := JS.pow2 (ln - ld)) in *. set (b := JS.pow2 ld) in *.
  assert (Hlow : a * (1 # 2) < x).
  { assert (H1 : 0 < a * (2 * b - D)) by (apply Qmult_lt_0_compat; lra).
    assert (H2 : a * (1 # 2) * D < x * D) by nra.
    destruct (Qlt_le_dec (a * (1 # 2)) x) as [|Hge]; [assumption|].
    assert (H3 : x * D <= a * (1 # 2) * D) by (apply Qmult_le_compat_r; lra). lra. }
  assert (Hup : x < 2 * a).
  { assert (H1 : 0 <= a * (D - b)) by (apply Qmult_le_0_compat; lra).
    assert (H2 : x * D < 2 * a * D) by nra.
    destruct (Qlt_le_dec x (2 * a)) as [|Hge]; [assumption|].
    assert (H3 : 2 * a * D <= x * D) by (apply Qmult_le_compat_r; lra). lra. }
  destruct (Qle_bool a x) eqn:Hc.
  - apply Qle_bool_iff in Hc. split; [exact Hc|]. rewrite E3. exact Hup.
  - assert (Hlt : x < a).
    { destruct (Qlt_le_dec x a) as [|Hge]; [assumption|].
      apply Qle_bool_iff in Hge. congruence. }
    replace (ln - ld - 1 + 1)%Z with (ln - ld)%Z by lia.
    split; [|exact Hlt]. rewrite E4. lra.
Qed.

Lemma nearest_even_err x :
  x - (1 # 2) <= inject_Z (JS.nearest_even x) <= x + (1 # 2).
Proof.
  unfold JS.nearest_even.
  assert (Hlo := Qfloor_le x). assert (Hhi := Qlt_floor x).
  rewrite inject_Z_plus in Hhi. change (inject_Z 1) with 1 in Hhi.
  set (f := Qfloor x) in *.
  destruct (Qcompare_spec (x - inject_Z f) (1 # 2)) as [He|Hl|Hg].
  - destruct (Z.even f); [|rewrite inject_Z_plus; change (inject_Z 1) with 1]; lra.
  - lra.
  - rewrite inject_Z_plus. change (inject_Z 1) with 1. lra.
Qed.

Lemma nearest_even_nonneg x : 0 <= x -> (0 <= JS.nearest_even x)%Z.
Proof.
  intros Hx. unfold JS.nearest_even.
  assert (Hf : (0 <= Qfloor x)%Z).
  { change 0%Z with (Qfloor 0). now apply Qfloor_resp_le. }
  destruct (Qcompare _ _); [destruct (Z.even _)| |]; lia.
Qed.

Lemma Qabs_nonneg_eq q : 0 <= q -> Qabs q = q.
Proof.
  destruct q as [n d]. unfold Qle, Qabs. cbn. intros H. f_equal. apply Z.abs_eq. lia.
Qed.

Lemma round64_zero q : q == 0 -> JS.round64 q = JS.Finite 0.
Proof. intros H. unfold JS.round64. now rewrite (Qeq_eq_bool _ _ H). Qed.


(** What rounding does to a positive number below the overflow
    threshold: the result is within half a unit in the last place. *)
Lemma round64_pos q :
  0 < q -> q <= JS.pow2 1023 ->
  exists r, JS.round64 q = JS.Finite r
            /\ 0 <= r
            /\ q - JS.pow2 (JS.ulp_exponent q) * (1 # 2) <= r
            /\ r <= q + JS.pow2 (JS.ulp_exponent q) * (1 # 2).
Proof.
  intros Hq Hmax. unfold JS.round64.
  destruct (Qeq_bool q 0) eqn:Hz.
  { apply Qeq_bool_eq in Hz. lra. }
  assert (Hexp : (JS.ulp_exponent q <= 971)%Z).
  { unfold JS.ulp_exponent. rewrite Qabs_nonneg_eq by lra.
    destruct (ilog2_spec q Hq) as [Hl _].
    assert (JS.ilog2 q <= 1023)%Z by (apply pow2_le_inv; lra). lia. }
  set (c := JS.ulp_exponent q) in *.
  assert (Pc := pow2_pos c).
  assert (Hy : q / JS.pow2 c * JS.pow2 c == q) by (field; lra).
  assert (Hy0 : 0 <= q / JS.pow2 c).
  { apply Qle_shift_div_l; [exact Pc|]. lra. }
  destruct (nearest_even_err (q / JS.pow2 c)) as [Hm1 Hm2].
  assert (Hm0 := nearest_even_nonneg _ Hy0).
  set (y := q / JS.pow2 c) in *. set (m := JS.nearest_even y) in *.
  assert (HM0 : 0 <= inject_Z m) by (change 0 with (inject_Z 0); now rewrite <- Zle_Qle).
  set (M := inject_Z m) in *. set (P := JS.pow2 c) in *.
  assert (HR0 : 0 <= M * P) by (apply Qmult_le_0_compat; lra).
  assert (HR1 : q - P * (1 # 2) <= M * P) by nra.
  assert (HR2 : M * P <= q + P * (1 # 2)) by nra.
  assert (H971 : P <= JS.pow2 971) by (apply pow2_le; exact Hexp).
  assert (H1023 : JS.pow2 971 <= JS.pow2 1023) by (apply pow2_le; lia).
  assert (H1024 := pow2_succ 1023). change (1023 + 1)%Z with 1024%Z in H1024.
  assert (P1023 := pow2_pos 1023).
  destruct (Qle_bool (JS.pow2 1024) (Qabs (M * P))) eqn:Hov.
  { apply Qle_bool_iff in Hov. rewrite Qabs_pos in Hov by exact HR0. lra. }
  exists (Qred (M * P)). split; [reflexivity|].
  rewrite Qred_correct. split; [exact HR0|]. split; assumption.
Qed.

Lemma pow2_m53 : JS.pow2 (-53) = 1 # 9007199254740992.
Proof. reflexivity. Qed.

(** In the normal range the relative error of a rounding is at most 2^-53. *)
Lemma round64_normal q :
  JS.pow2 (-1022) <= q -> q <= JS.pow2 1023 ->
  exists r, JS.round64 q = JS.Finite r
            /\ q - q * (1 # 9007199254740992) <= r
            /\ r <= q + q * (1 # 9007199254740992).
Proof.
  intros Hmin Hmax.
  assert (Hq : 0 < q) by (assert (H := pow2_pos (-1022)); lra).
  destruct (round64_pos q Hq Hmax) as (r & Hr & _ & Hlo & Hhi).
  exists r. split; [exact Hr|].
  destruct (ilog2_spec q Hq) as [Hl Hu].
  assert (He : (-1022 <= JS.ilog2 q)%Z).
  { assert (JS.pow2 (-1022) < JS.pow2 (JS.ilog2 q + 1)) by lra.
    apply pow2_lt_inv in H. lia. }
  assert (Hc : JS.ulp_exponent q = (JS.ilog2 q - 52)%Z).
  { unfold JS.ulp_exponent. rewrite Qabs_nonneg_eq by lra. lia. }
  rewrite Hc in Hlo, Hhi.
  assert (E1 := pow2_pred (JS.ilog2 q - 52)).
  assert (E2 := pow2_plus (JS.ilog2 q) (-53)).
  replace (JS.ilog2 q - 52 - 1)%Z with (JS.ilog2 q + -53)%Z in E1 by lia.
  rewrite pow2_m53 in E2.
  set (a := JS.pow2 (JS.ilog2 q)) in *. set (b := JS.pow2 (JS.ilog2 q - 52)) in *.
  set (h := JS.pow2 (JS.ilog2 q + -53)) in *.
  split; lra.
Qed.

(** Below the normal range the error is at most half the smallest
    positive number, here bounded by 2^-53 as well. *)
Lemma round64_any q :
  0 <= q -> q <= JS.pow2 1023 ->
  exists r, JS.round64 q = JS.Finite r
            /\ 0 <= r
            /\ q - (q + 1) * (1 # 9007199254740992) <= r
            /\ r <= q + (q + 1) * (1 # 9007199254740992).
Proof.
  intros H0 Hmax.
  destruct (Qeq_dec q 0) as [Hz|Hnz].
  { exists 0. split; [now apply round64_zero|]. lra. }
  assert (Hq : 0 < q) by lra.
  destruct (round64_pos q Hq Hmax) as (r & Hr & Hr0 & Hlo & Hhi).
  exists r. split; [exact Hr|]. split; [exact Hr0|].
  destruct (ilog2_spec q Hq) as [Hl Hu].
  assert (Hc : JS.pow2 (JS.ulp_exponent q) * (1 # 2) <= (q + 1) * (1 # 9007199254740992)).
  { unfold JS.ulp_exponent in *. rewrite Qabs_nonneg_eq by lra.
    destruct (Z.max_spec (JS.ilog2 q - 52) (-1074)) as [[_ ->]|[_ ->]].
    - assert (H := pow2_le (-1074) (-54) ltac:(lia)).
      change (JS.pow2 (-54)) with (1 # 18014398509481984) in H. lra.
    - assert (E1 := pow2_pred (JS.ilog2 q - 52)).
      assert (E2 := pow2_plus (JS.ilog2 q) (-53)).
      replace (JS.ilog2 q - 52 - 1)%Z with (JS.ilog2 q + -53)%Z in E1 by lia.
      rewrite pow2_m53 in E2. lra. }
  split; lra.
Qed.


Lemma Qred_inject_Z z : Qred (inject_Z z) = inject_Z z.
Proof.
  unfold Qred, inject_Z.
  assert (H := Z.ggcd_correct_divisors z 1). assert (G := Z.ggcd_gcd z 1).
  destruct (Z.ggcd z 1) as [g [n d]]. cbn [fst snd] in *.
  rewrite Z.gcd_1_r in G. subst g. destruct H as [Hn Hd].
  rewrite Z.mul_1_l in Hn, Hd. subst z d. reflexivity.
Qed.

Lemma nearest_even_integer x k : x == inject_Z k -> JS.nearest_even x = k.
Proof.
  intros H. unfold JS.nearest_even.
  rewrite (Qfloor_comp _ _ H), Qfloor_Z.
  assert (Hc : (x - inject_Z k ?= 1 # 2) = Lt).
  { apply Qlt_alt. rewrite H. unfold Qminus. rewrite Qplus_opp_r. reflexivity. }
  now rewrite Hc.
Qed.

Lemma nearest_even_comp x y : x == y -> JS.nearest_even x = JS.nearest_even y.
Proof.
  intros H. unfold JS.nearest_even. rewrite (Qfloor_comp _ _ H).
  assert (Hc : (x - inject_Z (Qfloor y) ?= 1 # 2) = (y - inject_Z (Qfloor y) ?= 1 # 2)).
  { apply Qcompare_comp; [now rewrite H|reflexivity]. }
  now rewrite Hc.
Qed.

(** Binary64 holds the integers up to 2^53. *)
Lemma round64_integer z :
  (0 <= z <= 2 ^ 53)%Z -> JS.round64 (inject_Z z) = JS.Finite (inject_Z z).
Proof.
  intros Hz. destruct (Z.eq_dec z 0) as [->|Hne]; [reflexivity|].
  assert (Hq : 0 < inject_Z z) by (change 0 with (inject_Z 0); rewrite <- Zlt_Qlt; lia).
  assert (H1 : 1 <= inject_Z z) by (change 1 with (inject_Z 1); rewrite <- Zle_Qle; lia).
  assert (H53 : inject_Z z <= JS.pow2 53).
  { rewrite <- pow2_Z by lia. rewrite <- Zle_Qle. lia. }
  assert (Hk : exists k, inject_Z z / JS.pow2 (JS.ilog2 (inject_Z z) - 52) == inject_Z k
                         /\ (-52 <= JS.ilog2 (inject_Z z) - 52)%Z).
  { destruct (ilog2_spec _ Hq) as [Hl Hu].
    set (x := inject_Z z) in *. set (e := JS.ilog2 x) in *.
    assert (He1 : (0 <= e)%Z).
    { assert (H : JS.pow2 0 < JS.pow2 (e + 1)) by (change (JS.pow2 0) with 1; lra).
      apply pow2_lt_inv in H. lia. }
    assert (He2 : (e <= 53)%Z) by (apply pow2_le_inv; lra).
    assert (P := pow2_pos (e - 52)).
    destruct (Z_le_gt_dec e 52) as [Hle|Hgt].
    - exists (z * 2 ^ (52 - e))%Z. split; [|lia].
      rewrite inject_Z_mult, pow2_Z by lia. fold x.
      assert (E := pow2_plus (52 - e) (e - 52)).
      replace (52 - e + (e - 52))%Z with 0%Z in E by lia.
      change (JS.pow2 0) with 1 in E.
      apply Qmult_inj_r with (z := JS.pow2 (e - 52)); [lra|].
      rewrite <- Qmult_assoc, <- E. field. lra.
    - assert (e = 53)%Z by lia.
      exists (2 ^ 52)%Z. split; [|lia].
      assert (Hl' : JS.pow2 53 <= x) by (rewrite <- H; exact Hl).
      assert (Hx : x == JS.pow2 53) by lra.
      rewrite H, Hx. reflexivity. }
  destruct Hk as (k & Hk & Hc).
  unfold JS.round64.
  destruct (Qeq_bool (inject_Z z) 0) eqn:Hz0.
  { apply Qeq_bool_eq in Hz0. rewrite Hz0 in Hq. discriminate. }
  unfold JS.ulp_exponent.
  rewrite (Qabs_nonneg_eq (inject_Z z)) by (apply Qlt_le_weak; exact Hq).
  replace (Z.max (JS.ilog2 (inject_Z z) - 52) (-1074)) with (JS.ilog2 (inject_Z z) - 52)%Z by lia.
  set (c := (JS.ilog2 (inject_Z z) - 52)%Z) in *.
  rewrite (nearest_even_integer _ _ Hk).
  assert (P := pow2_pos c).
  assert (Hr : inject_Z k * JS.pow2 c == inject_Z z).
  { rewrite <- Hk. field. lra. }
  assert (Hov : Qle_bool (JS.pow2 1024) (Qabs (inject_Z k * JS.pow2 c)) = false).
  { rewrite Hr, Qabs_pos by (apply Qlt_le_weak; exact Hq).
    destruct (Qle_bool _ _) eqn:Hb; [|reflexivity].
    apply Qle_bool_iff in Hb.
    assert (JS.pow2 53 < JS.pow2 1024) by (apply pow2_lt; lia).
    set (x := inject_Z z) in *. lra. }
  rewrite Hov. f_equal. rewrite (Qred_complete _ _ Hr). apply Qred_inject_Z.
Qed.

Lemma ilog2_unique q e : JS.pow2 e <= q < JS.pow2 (e + 1) -> JS.ilog2 q = e.
Proof.
  intros [Hl Hu].
  assert (Hq : 0 < q) by (assert (P := pow2_pos e); lra).
  destruct (ilog2_spec q Hq) as [Hl' Hu'].
  assert (H1 : JS.pow2 e < JS.pow2 (JS.ilog2 q + 1)) by lra.
  assert (H2 : JS.pow2 (JS.ilog2 q) < JS.pow2 (e + 1)) by lra.
  apply pow2_lt_inv in H1, H2. lia.
Qed.

(** The rounding depends on the number only, not on the fraction that
    denotes it. *)
Lemma round64_comp q q' : q == q' -> JS.round64 q = JS.round64 q'.
Proof.
  intros H. unfold JS.round64. rewrite <- (Qeqb_comp _ _ H 0 0 (Qeq_refl 0)).
  destruct (Qeq_bool q 0) eqn:Hz; [reflexivity|].
  apply Qeq_bool_neq in Hz.
  assert (Ha : 0 < Qabs q).
  { destruct (Qlt_le_dec 0 q) as [Hpos|Hneg].
    - rewrite Qabs_pos; lra.
    - rewrite Qabs_neg by exact Hneg.
      destruct (Qeq_dec q 0) as [|Hne]; [contradiction|]. lra. }
  assert (Hc : JS.ulp_exponent q = JS.ulp_exponent q').
  { unfold JS.ulp_exponent. f_equal. f_equal.
    symmetry. apply ilog2_unique.
    assert (Habs : Qabs q' == Qabs q) by (apply Qabs_wd; symmetry; exact H).
    destruct (ilog2_spec _ Ha) as [Hl Hu].
    set (e := JS.ilog2 (Qabs q)) in *. rewrite <- Habs in Hl, Hu.
    split; assumption. }
  rewrite <- Hc. set (c := JS.ulp_exponent q).
  assert (Hm : JS.nearest_even (q / JS.pow2 c) = JS.nearest_even (q' / JS.pow2 c)).
  { apply nearest_even_comp. now rewrite H. }
  rewrite <- Hm.
  rewrite <- (Qleb_comp _ _ (Qeq_refl 0) _ _ H).
  reflexivity.
Qed.

(** So the sums of sizes are exact as long as they stay within 2^53. *)
Lemma add_integers a b :
  (0 <= a)%Z -> (0 <= b)%Z -> (a + b <= 2 ^ 53)%Z ->
  JS.add (JS.Finite (inject_Z a)) (JS.Finite (inject_Z b)) = JS.Finite (inject_Z (a + b)).
Proof.
  intros Ha Hb Hab. cbn [JS.add].
  rewrite <- (round64_integer (a + b)) by lia.
  apply round64_comp. now rewrite inject_Z_plus.
Qed.

(** The rounding on numbers whose binary64 neighbours are known: a tenth;
    the ties between 0 and the smallest positive number and between the
    next two; the tie at the overflow threshold, on both sides. *)
Example round64_known_values :
  JS.round64 (1 # 10) = JS.Finite (3602879701896397 # 36028797018963968)
  /\ JS.round64 (JS.pow2 (-1075)) = JS.Finite 0
  /\ JS.round64 (3 * JS.pow2 (-1075)) = JS.Finite (Qred (JS.pow2 (-1073)))
  /\ JS.round64 (JS.pow2 1024 - JS.pow2 970) = JS.Infinite true
  /\ JS.round64 (- (JS.pow2 1024 - JS.pow2 970)) = JS.Infinite false
  /\ JS.round64 (JS.pow2 1024 - JS.pow2 970 - 1)
     = JS.Finite (Qred (JS.pow2 1024 - JS.pow2 971)).
Proof. vm_compute. repeat split. Qed.

(** One percentage: finite, not negative, and within 2^-45 of the exact
    one, relative to it. *)
Lemma prop_error size total :
  (0 <= size <= total)%Z -> (0 < total <= 2 ^ 53)%Z ->
  exists b,
    JS.scale 100 (JS.div size total) = JS.Finite b
    /\ 0 <= b
    /\ 100 * inject_Z size - inject_Z size * (1 # 35184372088832) <= b * inject_Z total
    /\ b * inject_Z total <= 100 * inject_Z size + inject_Z size * (1 # 35184372088832).
Proof.
  intros Hs Ht. unfold JS.div.
  destruct (Z.eqb_spec total 0) as [|_]; [lia|].
  assert (HT : 0 < inject_Z total) by (change 0 with (inject_Z 0); rewrite <- Zlt_Qlt; lia).
  assert (HT53 : inject_Z total <= 9007199254740992).
  { change 9007199254740992 with (inject_Z (2 ^ 53)). rewrite <- Zle_Qle. lia. }
  destruct (Z.eq_dec size 0) as [->|Hne].
  { rewrite round64_zero by (unfold Qdiv; ring). cbn [JS.scale].
    rewrite round64_zero by ring. exists 0. split; [reflexivity|].
    change (inject_Z 0) with 0. lra. }
  assert (HS : 1 <= inject_Z size) by (change 1 with (inject_Z 1); rewrite <- Zle_Qle; lia).
  assert (HST : inject_Z size <= inject_Z total) by (rewrite <- Zle_Qle; lia).
  assert (Hx : inject_Z size / inject_Z total * inject_Z total == inject_Z size)
    by (field; lra).
  set (x := inject_Z size / inject_Z total) in *.
  set (S := inject_Z size) in *. set (T := inject_Z total) in *.
  assert (Hx1 : x <= 1).
  { destruct (Qlt_le_dec 1 x) as [Hgt|]; [|assumption].
    assert (1 * T < x * T) by (apply Qmult_lt_compat_r; assumption). lra. }
  assert (Hx0 : (1 # 9007199254740992) <= x).
  { destruct (Qlt_le_dec x (1 # 9007199254740992)) as [Hlt|]; [|assumption].
    assert (x * T < (1 # 9007199254740992) * T) by (apply Qmult_lt_compat_r; assumption).
    lra. }
  assert (Pmin := pow2_le (-1022) (-60) ltac:(lia)).
  change (JS.pow2 (-60)) with (1 # 1152921504606846976) in Pmin.
  assert (Pmax := pow2_le 7 1023 ltac:(lia)). change (JS.pow2 7) with 128 in Pmax.
  destruct (round64_normal x ltac:(lra) ltac:(lra)) as (a & Ha & Ha1 & Ha2).
  rewrite Ha. cbn [JS.scale]. change (inject_Z (Z.pos 100)) with 100.
  destruct (round64_normal (100 * a) ltac:(lra) ltac:(lra)) as (b & Hb & Hb1 & Hb2).
  exists b. split; [exact Hb|]. split; [lra|].
  assert (Hlo : (100 * x - x * (1 # 35184372088832)) * T <= b * T)
    by (apply Qmult_le_compat_r; lra).
  assert (Hhi : b * T <= (100 * x + x * (1 # 35184372088832)) * T)
    by (apply Qmult_le_compat_r; lra).
  split; nra.
Qed.

Lemma each_below_the_total (l : list (string * LanguageData)) :
  Forall (fun kv => (0 <= lang_size (snd kv))%Z) l ->
  Forall (fun kv => (0 <= lang_size (snd kv)
                     <= Props.total (fun kv : string * LanguageData => lang_size (snd kv)) l)%Z)
    l.
Proof.
  induction 1 as [|kv l Hkv Hl IH]; [constructor|].
  assert (Hsum : (0 <= Props.total (fun kv : string * LanguageData => lang_size (snd kv)) l)%Z).
  { clear IH. induction Hl as [|kv' l' H' _ IH']; cbn; [lia|]. unfold Props.total in IH'. lia. }
  cbn [Props.total fold_right].
  fold (Props.total (fun kv : string * LanguageData => lang_size (snd kv)) l).
  constructor; [lia|].
  eapply Forall_impl; [|exact IH]. cbn beta. intros kv' H'. lia.
Qed.

(** The percentages as real numbers: times the total, they add up to a
    hundred times the sizes, within 2^-45 relative to them. *)
Lemma real_sum_set_prop total l :
  (0 < total <= 2 ^ 53)%Z ->
  Forall (fun kv => (0 <= lang_size (snd kv) <= total)%Z) l ->
  let sizes := inject_Z (Props.total (fun kv : string * LanguageData => lang_size (snd kv)) l) in
  exists q,
    Props.real_sum (map (Stats.set_prop total) l) = Some q
    /\ 0 <= q
    /\ 100 * sizes - sizes * (1 # 35184372088832) <= q * inject_Z total
    /\ q * inject_Z total <= 100 * sizes + sizes * (1 # 35184372088832).
Proof.
  intros Ht Hall. induction Hall as [|kv l Hkv Hl IH]; cbn zeta.
  { exists 0. split; [reflexivity|]. cbn [Props.total fold_right]. change (inject_Z 0) with 0.
    lra. }
  destruct IH as (q & Hq & Hq0 & Hlo & Hhi).
  destruct (prop_error _ _ Hkv Ht) as (b & Hb & Hb0 & Hblo & Hbhi).
  cbn [map Props.real_sum Stats.set_prop snd prop]. rewrite Hb, Hq.
  exists (b + q). split; [reflexivity|]. split; [lra|].
  cbn [Props.total fold_right].
  fold (Props.total (fun kv : string * LanguageData => lang_size (snd kv)) l).
  rewrite inject_Z_plus.
  set (S := inject_Z (Props.total _ l)) in *. set (T := inject_Z total) in *.
  set (s0 := inject_Z (lang_size (snd kv))) in *.
  split; nra.
Qed.

(** The percentages added up in binary64, from an accumulator that is
    within [k] rounding errors of an exact sum: the result is within
    [k] and as many rounding errors as there are percentages of the
    exact sum.  One rounding error is at most 129 * 2^-53 as long as the
    sums stay below 128. *)
Lemma sum_props_from (l : list (string * LanguageData)) :
  forall (acc exact q : Q) (k : Z),
    Forall (fun kv => exists b, prop (snd kv) = Some (JS.Finite b) /\ 0 <= b) l ->
    Props.real_sum l = Some q ->
    0 <= acc -> (0 <= k)%Z -> (k + Z.of_nat (List.length l) <= 2 ^ 26)%Z ->
    exact - inject_Z k * (129 # 9007199254740992) <= acc ->
    acc <= exact + inject_Z k * (129 # 9007199254740992) ->
    exact + q <= 101 ->
    exists f,
      fold_left (fun sum kv => JS.add sum (Props.prop_of (snd kv))) l (JS.Finite acc)
      = JS.Finite f
      /\ exact + q - inject_Z (k + Z.of_nat (List.length l)) * (129 # 9007199254740992) <= f
      /\ f <= exact + q + inject_Z (k + Z.of_nat (List.length l)) * (129 # 9007199254740992).
Proof.
  induction l as [|kv l IH]; intros acc exact q k Hall Hsum Hacc Hk Hn Hlo Hhi Hmax.
  { cbn in Hsum. injection Hsum as <-. exists acc. split; [reflexivity|].
    cbn [List.length Z.of_nat]. rewrite Z.add_0_r. lra. }
  inversion Hall as [|? ? (b & Hb & Hb0) Hall']; subst.
  cbn [Props.real_sum] in Hsum. rewrite Hb in Hsum.
  destruct (Props.real_sum l) as [q'|] eqn:Hq'; [|discriminate].
  injection Hsum as <-.
  assert (Hq0 : 0 <= q').
  { clear - Hall' Hq'. revert q' Hq'. induction Hall' as [|kv' l' (b' & Hb' & Hb0') _ IH'];
      intros q' Hq'; cbn in Hq'.
    - injection Hq' as <-. lra.
    - rewrite Hb' in Hq'. destruct (Props.real_sum l') as [q0|]; [|discriminate].
      injection Hq' as <-. specialize (IH' _ eq_refl). lra. }
  cbn [List.length] in Hn. rewrite Nat2Z.inj_succ in Hn.
  assert (HK : inject_Z k <= 67108864).
  { change 67108864 with (inject_Z (2 ^ 26)). rewrite <- Zle_Qle. lia. }
  assert (HK0 : 0 <= inject_Z k) by (change 0 with (inject_Z 0); rewrite <- Zle_Qle; lia).
  assert (Pmax := pow2_le 7 1023 ltac:(lia)). change (JS.pow2 7) with 128 in Pmax.
  destruct (round64_any (acc + b) ltac:(lra) ltac:(lra)) as (r & Hr & Hr0 & Hr1 & Hr2).
  cbn [fold_left]. unfold Props.prop_of at 2. rewrite Hb. cbn [JS.add]. rewrite Hr.
  destruct (IH r (exact + b) q' (k + 1)%Z Hall' eq_refl Hr0 ltac:(lia) ltac:(lia))
    as (f & Hf & Hf1 & Hf2).
  - rewrite inject_Z_plus. change (inject_Z 1) with 1. lra.
  - rewrite inject_Z_plus. change (inject_Z 1) with 1. lra.
  - lra.
  - exists f. split; [exact Hf|].
    cbn [List.length]. rewrite Nat2Z.inj_succ.
    replace (k + Z.succ (Z.of_nat (List.length l)))%Z
      with (k + 1 + Z.of_nat (List.length l))%Z by lia.
    split; lra.
Qed.

Lemma add_language_not_negative lower o e :
  Forall (fun kv : string * LanguageData => (0 <= lang_size (snd kv))%Z) o ->
  (0 <= Dict.edge_size e)%Z ->
  Forall (fun kv : string * LanguageData => (0 <= lang_size (snd kv))%Z)
    (Stats.add_language lower o e).
Proof.
  intros Ho He. unfold Stats.add_language. fold (Dict.edge_size e).
  destruct (JS.has lower _); [exact Ho|].
  destruct (Stats.own_key _ o).
  - induction Ho as [|[k v] o Hv Ho IH]; cbn [Stats.bump]; [constructor|].
    destruct (String.eqb _ k); constructor; try assumption.
    cbn [snd lang_size] in *. lia.
  - destruct (JS.has Stats.inherited_keys _); [exact Ho|].
    apply Forall_app. split; [exact Ho|]. constructor; [|constructor]. exact He.
Qed.

Lemma fold_add_language_not_negative lower edges : forall o,
  Forall (fun kv : string * LanguageData => (0 <= lang_size (snd kv))%Z) o ->
  Props.sizes_not_negative edges = true ->
  Forall (fun kv : string * LanguageData => (0 <= lang_size (snd kv))%Z)
    (fold_left (Stats.add_language lower) edges o).
Proof.
  induction edges as [|e edges IH]; intros o Ho He; [exact Ho|].
  unfold Props.sizes_not_negative in He. cbn [forallb] in He.
  apply andb_true_iff in He as [He Hes]. apply Z.leb_le in He.
  cbn [fold_left]. apply IH; [|exact Hes].
  now apply add_language_not_negative.
Qed.

(** The total of sizes that are not negative is exact in binary64 as
    long as it is at most 2^53. *)
Lemma langsTotal64_from (l : list (string * LanguageData)) : forall acc,
  Forall (fun kv : string * LanguageData => (0 <= lang_size (snd kv))%Z) l ->
  (0 <= acc)%Z ->
  (acc + Props.total (fun kv : string * LanguageData => lang_size (snd kv)) l <= 2 ^ 53)%Z ->
  fold_left (fun sum kv => JS.add sum (JS.Finite (inject_Z (lang_size (snd kv))))) l
    (JS.Finite (inject_Z acc))
  = JS.Finite
      (inject_Z (acc + Props.total (fun kv : string * LanguageData => lang_size (snd kv)) l)).
Proof.
  induction l as [|kv l IH]; intros acc Hall Hacc Hmax.
  { cbn [fold_left Props.total fold_right]. now rewrite Z.add_0_r. }
  inversion Hall as [|? ? Hkv Hl]; subst.
  cbn [Props.total fold_right] in Hmax |- *.
  fold (Props.total (fun kv : string * LanguageData => lang_size (snd kv)) l) in Hmax |- *.
  assert (Hsum : (0 <= Props.total (fun kv : string * LanguageData => lang_size (snd kv)) l)%Z).
  { clear - Hl. induction Hl as [|kv' l' H' _ IH']; cbn; [lia|]. unfold Props.total in IH'. lia. }
  cbn [fold_left]. rewrite add_integers by lia.
  rewrite IH by (assumption || lia). f_equal. f_equal. lia.
Qed.

Lemma langsTotal64_exact (l : list (string * LanguageData)) :
  Forall (fun kv : string * LanguageData => (0 <= lang_size (snd kv))%Z) l ->
  (Stats.langsTotal l <= 2 ^ 53)%Z ->
  Props.langsTotal64 l = JS.Finite (inject_Z (Stats.langsTotal l)).
Proof.
  intros Hall Hmax. rewrite langsTotal_total in *.
  unfold Props.langsTotal64. change (JS.Finite 0) with (JS.Finite (inject_Z 0)).
  rewrite (langsTotal64_from l 0 Hall (Z.le_refl 0)) by (rewrite Z.add_0_l; exact Hmax).
  now rewrite Z.add_0_l.
Qed.

Lemma langsTotal64_proportions total (l : list (string * LanguageData)) :
  Props.langsTotal64 (map (Stats.set_prop total) l) = Props.langsTotal64 l.
Proof.
  unfold Props.langsTotal64. generalize (JS.Finite 0).
  induction l as [|kv l IH]; intros acc; [reflexivity|].
  cbn [map fold_left]. now rewrite IH.
Qed.

(** C7, amended.  When no language edge of the counted repositories is
    named [__proto__] or has a negative size, and the sizes of the
    retained ones add up to a total that is not zero and at most 2^53:
    after the pass the total is the one binary64 computes, every
    percentage is [100 * (size / total)] as binary64 computes it, the
    percentages add up, as real numbers, to 100 within 1e-6, and so does
    the sum computed in binary64 when there are at most 2^26 languages. *)
Theorem proportions_sum_to_100_when_total_is_not_zero s w :
  let pages := Props.pages_read (Stats.enough_fuel w) (Stats.graphql w) in
  let kept := Props.counted (Stats.excludeRepos s)
                (Reads.nodes_on (Stats.ignoreForkedRepos s) pages) in
  let edges := flat_map Props.edges_of kept in
  let retained := Dict.retained (map JS.toLowerCase (Stats.excludeLangs s)) edges in
  Dict.no_proto edges = true ->
  Props.sizes_not_negative edges = true ->
  (0 < Props.total Dict.edge_size retained <= 2 ^ 53)%Z ->
  exists o,
    Stats._languages (fst (Stats.getStats s w)) = Some o
    /\ Stats.langsTotal o = Props.total Dict.edge_size retained
    /\ Props.langsTotal64 o = JS.Finite (inject_Z (Stats.langsTotal o))
    /\ Forall (fun kv => prop (snd kv)
                         = Some (JS.scale 100
                                   (JS.div (lang_size (snd kv)) (Stats.langsTotal o)))) o
    /\ (exists q, Props.real_sum o = Some q /\ Qabs (q - 100) <= 1 # 1000000)
    /\ ((Z.of_nat (List.length o) <= 2 ^ 26)%Z -> Props.sums_to_100 o).
Proof.
  intros pages kept edges retained _ Hsizes Htotal.
  destruct (getStats_fields s w) as (w1 & Hs). rewrite Hs. cbn [fst Stats._languages].
  eexists. split; [reflexivity|].
  rewrite repos_read_nodes. fold pages. fold kept. fold edges.
  set (lower := map JS.toLowerCase (Stats.excludeLangs s)) in *.
  set (raw := fold_left (Stats.add_language lower) edges []).
  assert (Hraw : Stats.langsTotal raw = Props.total Dict.edge_size retained).
  { unfold raw. rewrite fold_add_language_total by reflexivity. reflexivity. }
  assert (Hnn : Forall (fun kv : string * LanguageData => (0 <= lang_size (snd kv))%Z) raw).
  { apply fold_add_language_not_negative; [constructor|exact Hsizes]. }
  assert (H64 : Props.langsTotal64 (Stats.proportions raw)
                = JS.Finite (inject_Z (Stats.langsTotal raw))).
  { unfold Stats.proportions. rewrite langsTotal64_proportions.
    apply langsTotal64_exact; [exact Hnn|]. rewrite Hraw. lia. }
  apply each_below_the_total in Hnn. rewrite <- langsTotal_total, Hraw in Hnn.
  unfold Stats.proportions in H64 |- *. rewrite langsTotal_proportions.
  rewrite Hraw in H64 |- *.
  set (total := Props.total Dict.edge_size retained) in *.
  split; [reflexivity|]. split; [exact H64|]. split.
  { apply Forall_forall. intros kv Hin. apply in_map_iff in Hin.
    destruct Hin as (kv0 & <- & _). reflexivity. }
  destruct (real_sum_set_prop total raw Htotal Hnn) as (q & Hq & Hq0 & Hlo & Hhi).
  cbn zeta in Hlo, Hhi. rewrite <- langsTotal_total, Hraw in Hlo, Hhi.
  assert (HT : 0 < inject_Z total) by (change 0 with (inject_Z 0); rewrite <- Zlt_Qlt; lia).
  set (T := inject_Z total) in *.
  assert (Hq1 : 100 - (1 # 35184372088832) <= q).
  { destruct (Qlt_le_dec q (100 - (1 # 35184372088832))) as [Hlt|]; [|assumption].
    assert (q * T < (100 - (1 # 35184372088832)) * T)
      by (apply Qmult_lt_compat_r; assumption). lra. }
  assert (Hq2 : q <= 100 + (1 # 35184372088832)).
  { destruct (Qlt_le_dec (100 + (1 # 35184372088832)) q) as [Hlt|]; [|assumption].
    assert ((100 + (1 # 35184372088832)) * T < q * T)
      by (apply Qmult_lt_compat_r; assumption). lra. }
  split.
  { exists q. split; [exact Hq|]. apply Qabs_Qle_condition. split; lra. }
  intros Hlen.
  assert (Hfin : Forall (fun kv => exists b, prop (snd kv) = Some (JS.Finite b) /\ 0 <= b)
                   (map (Stats.set_prop total) raw)).
  { apply Forall_forall. intros kv Hin. apply in_map_iff in Hin.
    destruct Hin as (kv0 & <- & Hin0).
    rewrite Forall_forall in Hnn.
    destruct (prop_error _ _ (Hnn _ Hin0) Htotal) as (b & Hb & Hb0 & _).
    exists b. split; [|exact Hb0]. cbn [Stats.set_prop snd prop]. now rewrite Hb. }
  rewrite length_map in Hlen.
  destruct (sum_props_from (map (Stats.set_prop total) raw) 0 0 q 0 Hfin Hq)
    as (f & Hf & Hf1 & Hf2); try (change (inject_Z 0) with 0; lra); try lia.
  { rewrite length_map. lia. }
  exists f. split; [exact Hf|].
  assert (Hn : inject_Z (0 + Z.of_nat (List.length (map (Stats.set_prop total) raw)))
               <= 67108864).
  { change 67108864 with (inject_Z (2 ^ 26)). rewrite <- Zle_Qle, length_map. lia. }
  assert (Hn0 : 0 <= inject_Z (0 + Z.of_nat (List.length (map (Stats.set_prop total) raw)))).
  { change 0 with (inject_Z 0) at 1. rewrite <- Zle_Qle. lia. }
  set (n := inject_Z _) in *.
  apply Qabs_Qle_condition. split; lra.
Qed.

(** One byte of TS and two of JS: the percentages are the binary64
    numbers 33.33333333333333 and 66.66666666666666 (not the nearest
    ones to a third and two thirds of a hundred: the quotient is rounded
    before the product is), and they add up to 99.99999999999999. *)
Lemma proportions_sum_to_100_when_total_is_not_zero_witness :
  exists o,
    Stats._languages (fst (Stats.getStats Props.user Props.thirds)) = Some o
    /\ Stats.langsTotal o = 3%Z
    /\ map (fun kv => (fst kv, prop (snd kv))) o
       = [("TS"%string, Some (JS.Finite (2345624805922133 # 70368744177664)));
          ("JS"%string, Some (JS.Finite (2345624805922133 # 35184372088832)))]
    /\ (exists q, Props.real_sum o = Some q /\ Qabs (q - 100) <= 1 # 1000000)
    /\ Props.sums_to_100 o.
Proof.
  destruct (proportions_sum_to_100_when_total_is_not_zero Props.user Props.thirds
              eq_refl eq_refl) as (o & Ho & Ht & _ & Hp & Hr & Hf).
  { vm_compute. split; [reflexivity|discriminate]. }
  exists o. split; [exact Ho|]. split; [exact Ht|]. split.
  - assert (Hc : Stats._languages (fst (Stats.getStats Props.user Props.thirds))
                 = Some (Stats.proportions
                           [("TS"%string, mkLanguageData 1 1 None None);
                            ("JS"%string, mkLanguageData 2 1 None None)])) by reflexivity.
    rewrite Hc in Ho. injection Ho as <-. vm_compute. reflexivity.
  - split; [exact Hr|]. apply Hf.
    assert (Hc : Stats._languages (fst (Stats.getStats Props.user Props.thirds))
                 = Some (Stats.proportions
                           [("TS"%string, mkLanguageData 1 1 None None);
                            ("JS"%string, mkLanguageData 2 1 None None)])) by reflexivity.
    rewrite Hc in Ho. injection Ho as <-. cbn [List.length Stats.proportions map Z.of_nat].
    cbn. lia.
Defined.

(** With a negative size the percentages need not add up to 100: sizes
    2^52 + 1 and -2^52 have the total 1, and percentages that add up to
    128. *)
Example negative_sizes_break_the_sum :
  exists o,
    Stats._languages (fst (Stats.getStats Props.user Props.negative_size)) = Some o
    /\ Stats.langsTotal o = 1%Z
    /\ Props.real_sum o = Some 128
    /\ Props.sum_props o = JS.Finite 128.
Proof. eexists. split; [reflexivity|]. vm_compute. repeat split. Qed.

End Proportions.


(* ------------------------------------------------------------------ *)
(** ** Pagination *)

Section Pagination.
Import Http Types.

Lemma pooled_posts_app evs evs' :
  Reads.pooled_posts (evs ++ evs') = Reads.pooled_posts evs ++ Reads.pooled_posts evs'.
Proof.
  induction evs as [|e evs IH]; [reflexivity|].
  destruct e as [| |[|] [url|doc]| | | | |]; cbn; rewrite ?IH; reflexivity.
Qed.

Lemma query_events doc script :
  Reads.pooled_posts (snd (fst (Queries.query doc script))) = [doc]
  /\ Props.count_events is_acquire (snd (fst (Queries.query doc script))) = 1%nat.
Proof.
  unfold Queries.query.
  destruct (next_outcome script) as [[r|e] script1]; [split; reflexivity|].
  destruct (next_outcome script1) as [[r|e2] script2]; split; reflexivity.
Qed.

(** What the loop adds to the events and leaves of the script. *)
Lemma getStats_loop_events fuel : forall s nextOwned nextContrib name acc w,
  exists evs,
    Stats.events (snd (fst (Stats.getStats_loop fuel s nextOwned nextContrib name acc w)))
    = Stats.events w ++ evs
    /\ Reads.pooled_posts evs
       = Reads.queries_for (Props.pages_read fuel (Stats.graphql w)) nextOwned nextContrib
    /\ Props.count_events is_acquire evs
       = List.length (Props.pages_read fuel (Stats.graphql w)).
Proof.
  induction fuel as [|fuel IH]; intros s nextOwned nextContrib name acc w.
  - exists []. cbn. now rewrite app_nil_r.
  - cbn [Stats.getStats_loop Props.pages_read].
    pose proof (query_answer (Queries.reposOverview nextOwned nextContrib) (Stats.graphql w))
      as [Hr Hs].
    pose proof (query_events (Queries.reposOverview nextOwned nextContrib) (Stats.graphql w))
      as [Hp Hc].
    destruct (Queries.query _ (Stats.graphql w)) as [[raw evs] script]. cbn [fst snd] in *.
    destruct (Props.answer (Stats.graphql w)) as [raw' unread]. cbn [fst snd] in *.
    subst raw' unread.
    destruct (Stats.hasMore raw).
    + match goal with |- context [Stats.getStats_loop fuel s ?o ?c ?n ?a ?w1] =>
        destruct (IH s o c n a w1) as (evs' & He & Hp' & Hc')
      end.
      exists (evs ++ evs'). rewrite He. cbn [Stats.events Stats.graphql] in *.
      rewrite pooled_posts_app, count_events_app, Hp, Hc, Hp', Hc', app_assoc.
      cbn [Reads.queries_for List.length]. auto.
    + exists evs. cbn [fst snd Stats.events Reads.queries_for List.length].
      rewrite Hp, Hc. auto.
Qed.


Lemma queries_for_closed pages : forall nextOwned nextContrib,
  Reads.queries_for pages nextOwned nextContrib
  = map (fun i => Queries.reposOverview
                    (Reads.last_cursor Stats.ownedRepos (firstn i pages) nextOwned)
                    (Reads.last_cursor Stats.contribRepos (firstn i pages) nextContrib))
      (seq 0 (List.length pages)).
Proof.
  induction pages as [|raw pages IH]; intros nextOwned nextContrib; [reflexivity|].
  cbn [Reads.queries_for List.length seq map firstn]. f_equal.
  rewrite IH, <- seq_shift, map_map. reflexivity.
Qed.


Lemma last_cursor_snoc source pages raw start :
  Reads.last_cursor source (pages ++ [raw]) start
  = JS.str_or (Stats.page_endCursor (source raw)) (Reads.last_cursor source pages start).
Proof. unfold Reads.last_cursor. now rewrite fold_left_app. Qed.

(** X14.  The cursors of the query for the page number i: each source's
    last end cursor among the pages before it that was neither null nor
    empty, null when there was none; a page without end cursor leaves the
    cursor as it was.  The cursor of the contributed-to source is the one
    put in the [after:] of [repositories], and the other way round. *)
Theorem getStats_keeps_the_last_cursors s w :
  let pages := Props.pages_read (Stats.enough_fuel w) (Stats.graphql w) in
  (exists evs,
      Stats.events (snd (Stats.getStats s w)) = Stats.events w ++ evs
      /\ Reads.pooled_posts evs
         = map (fun i =>
                  ReposOverviewDoc
                    (Queries.after_arg
                       (Reads.last_cursor Stats.contribRepos (firstn i pages) None))
                    (Queries.after_arg
                       (Reads.last_cursor Stats.ownedRepos (firstn i pages) None)))
             (seq 0 (List.length pages)))
  /\ (forall source before raw,
         Reads.last_cursor source (before ++ [raw]) None
         = if JS.str_truthy (Stats.page_endCursor (source raw))
           then Stats.page_endCursor (source raw)
           else Reads.last_cursor source before None).
Proof.
  intros pages. split; [|intros; apply last_cursor_snoc].
  unfold Stats.getStats, Stats.getStats_run.
  destruct (getStats_loop_events (Stats.enough_fuel w) s None None (Stats._name s)
              (Stats.mkTotals [] 0 0 []) w) as (evs & He & Hp & _).
  destruct (Stats.getStats_loop _ _ _ _ _ _ _) as [[[name acc] w1] flag].
  exists evs. split; [exact He|]. rewrite Hp, queries_for_closed. reflexivity.
Qed.

Lemma getStats_loop_world fuel : forall s s' nextOwned nextContrib name name' acc acc' w,
  snd (fst (Stats.getStats_loop fuel s nextOwned nextContrib name acc w))
  = snd (fst (Stats.getStats_loop fuel s' nextOwned nextContrib name' acc' w)).
Proof.
  induction fuel as [|fuel IH]; intros; [reflexivity|].
  cbn [Stats.getStats_loop].
  destruct (Queries.query _ (Stats.graphql w)) as [[raw evs] script].
  destruct (Stats.hasMore raw); [apply IH|reflexivity].
Qed.

(** X15.  With forks ignored the repository set holds names of owned
    repositories only; yet the pass sends the same requests and reads the
    same pages as without: the contributed-to source is still queried and
    still keeps the pagination going. *)
Theorem ignoring_forks_saves_no_request s w :
  Stats.ignoreForkedRepos s = true ->
  let pages := Props.pages_read (Stats.enough_fuel w) (Stats.graphql w) in
  (exists repos,
      Stats._repos (fst (Stats.getStats s w)) = Some repos
      /\ forall n, In n repos
                   <-> In n (Props.names_of (flat_map Reads.owned_nodes pages))
                       /\ ~ In n (Stats.excludeRepos s))
  /\ snd (Stats.getStats s w) = snd (Stats.getStats (Reads.with_forks s) w).
Proof.
  intros Hig pages. split.
  - destruct (getStats_aggregate s w) as (H1 & _ & H3 & _).
    eexists. split; [exact H1|].
    intros n. rewrite H3. unfold Props.repos_read. rewrite Hig. fold pages.
    assert (Heq : flat_map (Stats.page_repos true) pages = flat_map Reads.owned_nodes pages).
    { clear. induction pages as [|raw pages IH]; [reflexivity|].
      cbn [flat_map]. rewrite IH. unfold Stats.page_repos, Reads.owned_nodes. cbn [negb].
      now rewrite app_nil_r. }
    rewrite Heq. reflexivity.
  - unfold Stats.getStats, Stats.getStats_run.
    pose proof (getStats_loop_world (Stats.enough_fuel w) s (Reads.with_forks s) None None
                  (Stats._name s) (Stats._name (Reads.with_forks s))
                  (Stats.mkTotals [] 0 0 []) (Stats.mkTotals [] 0 0 []) w) as H.
    destruct (Stats.getStats_loop _ s _ _ _ _ _) as [[[n1 a1] w1] f1].
    destruct (Stats.getStats_loop _ (Reads.with_forks s) _ _ _ _ _) as [[[n2 a2] w2] f2].
    exact H.
Qed.

Lemma ignoring_forks_saves_no_request_witness :
  let s := Stats.create "u" [] [] true in
  let w := Stats.mkWorld
             [Props.overview None
                (Props.page [Props.repo "u/a" 1 0 []] false None)
                (Props.page [Props.repo "v/b" 9 9 []] true (Some "C1"%string));
              Props.overview None
                (Props.page [] false None)
                (Props.page [Props.repo "v/c" 9 9 []] false None)] [] [] in
  Stats._repos (fst (Stats.getStats s w)) = Some ["u/a"%string]
  /\ snd (Stats.getStats s w) = snd (Stats.getStats (Reads.with_forks s) w)
  /\ List.length (Reads.pooled_posts (Stats.events (snd (Stats.getStats s w)))) = 2%nat.
Proof.
  cbn zeta. split; [reflexivity|]. split; [|reflexivity].
  apply (ignoring_forks_saves_no_request (Stats.create "u" [] [] true)).
  reflexivity.
Defined.

End Pagination.

(* ------------------------------------------------------------------ *)
(** ** The accessors with requests of their own *)

Section OtherAccessors.
Import Http Types.

Lemma fold_left_sum {A} (f : A -> Z) l : forall sum,
  fold_left (fun sum x => sum + f x) l sum = sum + Props.total f l.
Proof.
  induction l as [|x l IH]; intros sum; cbn; [lia|].
  rewrite IH. unfold Props.total. lia.
Qed.

(** X16.  The contribution total is computed without the aggregation pass:
    two queries, the list of years and then one selection per year of that
    list spanning the year ([from] the year, [to] the next); the total is
    the sum over the values of the viewer object of the second response,
    and the five fields of the pass are left as they were. *)
Theorem getTotalContributions_asks_twice s w :
  Stats._totalContributions s = None ->
  let first := Props.answer (Stats.graphql w) in
  let second := Props.answer (snd first) in
  let total := Props.total Stats.contribs_of (Stats.viewer_values (fst second)) in
  exists evs,
    Stats.getTotalContributions s w
    = (Stats.Ok total, Stats.set_totalContributions s total,
       Stats.mkWorld (snd second) (Stats.rest w) (Stats.events w ++ evs))
    /\ Reads.pooled_posts evs
       = [ContribYearsDoc;
          AllContribsDoc (map (fun y => (y, y + 1)) (Reads.contribution_years (fst first)))]
    /\ Props.count_events is_acquire evs = 2%nat.
Proof.
  intros Hnone first second total.
  unfold Stats.getTotalContributions. rewrite Hnone.
  pose proof (query_answer Queries.contribYears (Stats.graphql w)) as [Hr1 Hs1].
  pose proof (query_events Queries.contribYears (Stats.graphql w)) as [Hp1 Hc1].
  destruct (Queries.query Queries.contribYears (Stats.graphql w)) as [[r1 e1] s1].
  cbn [fst snd] in *.
  match goal with |- context [Queries.query ?d s1] =>
    pose proof (query_answer d s1) as [Hr2 Hs2];
    pose proof (query_events d s1) as [Hp2 Hc2];
    destruct (Queries.query d s1) as [[r2 e2] s2]
  end.
  cbn [fst snd] in *. subst first second total. cbn zeta.
  rewrite <- Hs1, <- Hr2, <- Hs2, <- Hr1, fold_left_sum, Z.add_0_l.
  exists (e1 ++ e2). split; [reflexivity|].
  rewrite pooled_posts_app, count_events_app, Hp1, Hp2, Hc1, Hc2. split; reflexivity.
Qed.

Lemma getTotalContributions_asks_twice_witness :
  let years := Resolved (mkResponse 200 None (Some (mkGraphQLResponse (Some
                 (mkViewer None None None None
                    (Some (mkContributionsCollection (Some [2022; 2023]) None)) []))))) in
  let totals := Resolved (mkResponse 200 None (Some (mkGraphQLResponse (Some
                 (mkViewer None None None None None
                    [("year2022"%string,
                      mkContributionsCollection None (Some (mkContributionCalendar (Some 10))));
                     ("year2023"%string,
                      mkContributionsCollection None
                        (Some (mkContributionCalendar (Some 25))))]))))) in
  exists evs,
    Stats.getTotalContributions Props.user (Stats.mkWorld [years; totals] [] [])
    = (Stats.Ok 35, Stats.set_totalContributions Props.user 35, Stats.mkWorld [] [] evs)
    /\ Reads.pooled_posts evs = [ContribYearsDoc; AllContribsDoc [(2022, 2023); (2023, 2024)]]
    /\ Props.count_events is_acquire evs = 2%nat.
Proof.
  cbn zeta.
  match goal with |- context [Stats.mkWorld ?g [] []] =>
    destruct (getTotalContributions_asks_twice Props.user (Stats.mkWorld g [] []) eq_refl)
      as (evs & H1 & H2 & H3)
  end.
  exists evs. split; [exact H1|]. split; [exact H2|exact H3].
Defined.

Lemma add_author_one username acc item :
  Stats.add_author username acc item
  = if Reads.by_user username item
    then (fst acc + Reads.additions item, snd acc + Reads.deletions item)
    else acc.
Proof.
  unfold Stats.add_author, Reads.by_user, Reads.additions, Reads.deletions, Reads.item_weeks.
  destruct item as [o|]; [|reflexivity].
  destruct (author o) as [au|]; [|reflexivity].
  destruct (String.eqb _ username); cbn [negb]; [|reflexivity].
  generalize (match weeks o with Some l => l | None => [] end). intros ws.
  revert acc. induction ws as [|week ws IH]; intros [x y].
  - cbn. f_equal; lia.
  - cbn [fold_left]. rewrite IH. cbn [fst snd Props.total fold_right].
    unfold Props.total. f_equal; lia.
Qed.

(** Of the entries of a contributor statistics payload only those count
    whose author is an object with exactly the login of the user (the
    comparison tells letter case apart); a null entry, an entry without
    author and an entry of somebody else add nothing.  The result adds all
    the weeks of the entries that count. *)
Lemma add_author_counts_the_user_only username items acc :
  fold_left (Stats.add_author username) items acc
  = (fst acc + Props.total Reads.additions (filter (Reads.by_user username) items),
     snd acc + Props.total Reads.deletions (filter (Reads.by_user username) items)).
Proof.
  revert acc. induction items as [|item items IH]; intros [ad de].
  - cbn. f_equal; lia.
  - cbn [fold_left filter]. rewrite IH, add_author_one.
    destruct (Reads.by_user username item); [|reflexivity].
    cbn [fst snd Props.total fold_right]. unfold Props.total. f_equal; lia.
Qed.

Lemma linesChanged_loop_payloads username repos : forall acc w,
  fst (Stats.linesChanged_loop username repos acc w)
  = fold_left (Stats.add_author username)
      (flat_map Stats.contributors
         (Reads.payloads (map Reads.contributors_path repos) (Stats.rest w)))
      acc.
Proof.
  induction repos as [|repo repos IH]; intros acc w; [reflexivity|].
  cbn [Stats.linesChanged_loop map Reads.payloads]. unfold Reads.contributors_path at 1.
  destruct (Queries.queryRest _ (Stats.rest w)) as [[r evs] script].
  rewrite IH. cbn [Stats.rest flat_map]. now rewrite fold_left_app.
Qed.

Lemma views_loop_payloads repos : forall total w,
  fst (Stats.views_loop repos total w)
  = let ps := Reads.payloads (map Reads.views_path repos) (Stats.rest w) in
    if forallb Reads.readable ps
    then Some (total + Props.total Reads.view_counts ps)
    else None.
Proof.
  induction repos as [|repo repos IH]; intros total w.
  - cbn. f_equal. lia.
  - cbn [Stats.views_loop map Reads.payloads]. unfold Reads.views_path at 1.
    destruct (Queries.queryRest _ (Stats.rest w)) as [[r evs] script].
    cbn zeta. cbn [forallb].
    assert (Hv : Reads.view_counts r
                 = match Stats.first_response r with
                   | Some response =>
                       Props.total (fun view => JS.num_or (count view) 0)
                         (match views response with Some l => l | None => [] end)
                   | None => 0
                   end) by reflexivity.
    unfold Reads.readable at 1.
    destruct (Stats.first_response r) as [response|] eqn:Hr; [|reflexivity].
    rewrite IH. cbn [Stats.rest andb]. cbn zeta.
    destruct (forallb Reads.readable _); [|reflexivity].
    cbn [Props.total fold_right]. rewrite Hv, fold_left_sum.
    unfold Props.total. f_equal. lia.
Qed.

Lemma gets_app evs evs' : Reads.gets (evs ++ evs') = (Reads.gets evs ++ Reads.gets evs')%list.
Proof.
  induction evs as [|e evs IH]; [reflexivity|].
  destruct e as [| |p [url|doc]| | | | |]; cbn; rewrite ?IH; reflexivity.
Qed.

Lemma gets_computing path attempt response :
  Reads.gets (Queries.computing path attempt response) = [].
Proof.
  unfold Queries.computing.
  destruct ((attempt <? 5)%nat || (attempt mod 10 =? 0)%nat); reflexivity.
Qed.

(** Every request of a turn goes to the URL of the path. *)
Lemma attempt_body_gets path attempt script :
  let '(turn, evs, unread) := Queries.attempt_body path attempt script in
  Reads.gets evs = repeat (Queries.rest_url path) (Props.count_events is_send evs).
Proof.
  unfold Queries.attempt_body.
  assert (Hc : forall response,
             Props.count_events is_send (Queries.computing path attempt response) = 0%nat)
    by (intros; apply count_computing; auto).
  destruct script as [|[r|e] tail]; cbn [next_outcome].
  - reflexivity.
  - destruct (status r =? 202);
      rewrite ?gets_app, ?count_events_app, ?gets_computing, ?Hc; reflexivity.
  - destruct (is_202_error e) as [r|].
    + rewrite ?gets_app, ?count_events_app, ?gets_computing, ?Hc. reflexivity.
    + destruct tail as [|[r|e2] tail2]; cbn [next_outcome]; [reflexivity| |reflexivity].
      destruct (status r =? 202); [|destruct (status r =? 200)];
        rewrite ?gets_app, ?count_events_app, ?gets_computing, ?Hc; reflexivity.
Qed.

Lemma queryRest_loop_gets path remaining : forall attempt script,
  let '(payload, evs, unread) := Queries.queryRest_loop path remaining attempt script in
  Reads.gets evs = repeat (Queries.rest_url path) (Props.count_events is_send evs).
Proof.
  induction remaining as [|remaining IH]; intros attempt script; [reflexivity|].
  cbn [Queries.queryRest_loop].
  pose proof (attempt_body_gets path attempt script) as H.
  destruct (Queries.attempt_body path attempt script) as [[[payload|] evs] script1];
    [exact H|].
  specialize (IH (S attempt) script1).
  destruct (Queries.queryRest_loop path remaining (S attempt) script1) as [[p evs'] s2].
  rewrite gets_app, count_events_app, repeat_app, H, IH. reflexivity.
Qed.

(** One call of [queryRest]: between 1 and 120 requests, all to the URL of
    its path, and one outcome consumed for each. *)
Lemma queryRest_gets path script :
  let '(payload, evs, unread) := Queries.queryRest path script in
  exists k,
    (1 <= k <= 120)%nat
    /\ Reads.gets evs = repeat (Queries.rest_url path) k
    /\ unread = skipn k script.
Proof.
  unfold Queries.queryRest.
  pose proof (queryRest_loop_gets path Queries.maxAttempts 0 script) as Hg.
  pose proof (queryRest_loop_counts path Queries.maxAttempts 0 script) as Hc.
  destruct (Queries.queryRest_loop path Queries.maxAttempts 0 script) as [[p evs] unread].
  cbn zeta in Hc. destruct Hc as (Ha & Hs & Hu & _).
  exists (Props.count_events is_send evs).
  unfold Queries.maxAttempts in Ha. cbn [Nat.min] in Ha.
  split; [lia|]. split; [exact Hg|exact Hu].
Qed.

Lemma world_eta w :
  Stats.mkWorld (Stats.graphql w) (skipn 0 (Stats.rest w)) (Stats.events w ++ []) = w.
Proof. destruct w. cbn. now rewrite app_nil_r. Qed.

Lemma linesChanged_loop_requests username repos : forall acc w,
  exists evs times,
    snd (Stats.linesChanged_loop username repos acc w)
    = Stats.mkWorld (Stats.graphql w)
        (skipn (List.length (Reads.gets evs)) (Stats.rest w)) (Stats.events w ++ evs)
    /\ List.length times = List.length repos
    /\ Forall (fun t => (1 <= t <= 120)%nat) times
    /\ Reads.gets evs = Reads.asked Reads.contributors_url repos times.
Proof.
  induction repos as [|repo repos IH]; intros acc w.
  - exists [], []. cbn [Stats.linesChanged_loop snd Reads.gets List.length].
    rewrite world_eta. repeat split; auto.
  - cbn [Stats.linesChanged_loop].
    pose proof (queryRest_gets ("/repos/" ++ repo ++ "/stats/contributors") (Stats.rest w))
      as Hq.
    destruct (Queries.queryRest _ (Stats.rest w)) as [[r evs1] script1].
    destruct Hq as (k & Hk & Hg & Hu). subst script1.
    match goal with |- context [Stats.linesChanged_loop username repos ?a ?w1] =>
      destruct (IH a w1) as (evs' & times' & Hw & Hl & Hall & Hg')
    end.
    exists (evs1 ++ evs'), (k :: times').
    rewrite Hw. cbn [Stats.graphql Stats.rest Stats.events].
    rewrite gets_app, length_app, Hg, repeat_length, skipn_skipn, <- app_assoc.
    split; [reflexivity|]. split; [cbn; now rewrite Hl|]. split; [now constructor|].
    unfold Reads.asked. cbn [combine flat_map fst snd]. fold (Reads.asked Reads.contributors_url repos times').
    rewrite Hg'. reflexivity.
Qed.

Lemma views_loop_requests repos : forall total w,
  exists evs times,
    snd (Stats.views_loop repos total w)
    = Stats.mkWorld (Stats.graphql w)
        (skipn (List.length (Reads.gets evs)) (Stats.rest w)) (Stats.events w ++ evs)
    /\ List.length times
       = Nat.min (List.length repos)
           (S (Reads.readable_prefix
                 (Reads.payloads (map Reads.views_path repos) (Stats.rest w))))
    /\ Forall (fun t => (1 <= t <= 120)%nat) times
    /\ Reads.gets evs = Reads.asked Reads.views_url repos times.
Proof.
  induction repos as [|repo repos IH]; intros total w.
  - exists [], []. cbn [Stats.views_loop snd Reads.gets List.length].
    rewrite world_eta. repeat split; auto.
  - cbn [Stats.views_loop map Reads.payloads]. unfold Reads.views_path at 1.
    pose proof (queryRest_gets ("/repos/" ++ repo ++ "/traffic/views") (Stats.rest w)) as Hq.
    destruct (Queries.queryRest _ (Stats.rest w)) as [[r evs1] script1].
    destruct Hq as (k & Hk & Hg & Hu). subst script1.
    cbn zeta. cbn [Reads.readable_prefix]. unfold Reads.readable at 1.
    destruct (Stats.first_response r) as [response|].
    + match goal with |- context [Stats.views_loop repos ?a ?w1] =>
        destruct (IH a w1) as (evs' & times' & Hw & Hl & Hall & Hg')
      end.
      exists (evs1 ++ evs'), (k :: times').
      rewrite Hw. cbn [Stats.graphql Stats.rest Stats.events] in *.
      rewrite gets_app, length_app, Hg, repeat_length, skipn_skipn, <- app_assoc.
      split; [reflexivity|]. split; [cbn [List.length]; rewrite Hl; lia|].
      split; [now constructor|].
      unfold Reads.asked. cbn [combine flat_map fst snd].
      fold (Reads.asked Reads.views_url repos times'). rewrite Hg'. reflexivity.
    + exists evs1, [k]. cbn [snd].
      rewrite Hg, repeat_length.
      split; [reflexivity|]. split; [cbn [List.length]; lia|].
      split; [now constructor|].
      unfold Reads.asked. cbn [combine flat_map fst snd].
      rewrite combine_nil. cbn [flat_map]. now rewrite app_nil_r.
Qed.

(** X17.  Once the repository set is known, [getLinesChanged] sends its
    requests to [/repos/<name>/stats/contributors], for each repository
    of the set in the order of the set, each at least once and again as
    long as [queryRest] retries, and nothing else; it returns (and
    stores) the additions and the deletions of the user summed over all
    the payloads. *)
Theorem getLinesChanged_sums_the_user_over_the_set s w repos :
  Stats._linesChanged s = None ->
  Stats._repos s = Some repos ->
  let items := flat_map Stats.contributors
                 (Reads.payloads (map Reads.contributors_path repos) (Stats.rest w)) in
  let mine := filter (Reads.by_user (Stats.username s)) items in
  let lines := (Props.total Reads.additions mine, Props.total Reads.deletions mine) in
  exists evs times,
    Stats.getLinesChanged s w
    = (Stats.Ok lines, Stats.set_linesChanged s lines,
       Stats.mkWorld (Stats.graphql w)
         (skipn (List.length (Reads.gets evs)) (Stats.rest w)) (Stats.events w ++ evs))
    /\ List.length times = List.length repos
    /\ Forall (fun t => (1 <= t <= 120)%nat) times
    /\ Reads.gets evs = Reads.asked Reads.contributors_url repos times.
Proof.
  intros Hnone Hrepos items mine lines.
  unfold Stats.getLinesChanged, Stats.getRepos. rewrite Hnone, Hrepos.
  pose proof (linesChanged_loop_payloads (Stats.username s) repos (0, 0) w) as H.
  destruct (linesChanged_loop_requests (Stats.username s) repos (0, 0) w)
    as (evs & times & Hw & Hl & Hall & Hg).
  destruct (Stats.linesChanged_loop (Stats.username s) repos (0, 0) w) as [acc w2].
  cbn [fst snd] in H, Hw. rewrite add_author_counts_the_user_only in H. cbn [fst snd] in H.
  rewrite !Z.add_0_l in H. subst acc w2. exists evs, times. auto.
Qed.

Lemma getLinesChanged_sums_the_user_over_the_set_witness :
  let mine := Some (mkRESTResponse (Some (mkAuthor (Some "u"%string)))
                      (Some [mkWeek (Some 3) (Some 1); mkWeek (Some 4) None]) None) in
  let other := Some (mkRESTResponse (Some (mkAuthor (Some "U"%string)))
                       (Some [mkWeek (Some 100) (Some 100)]) None) in
  let s := Reads.after_pass ["u/a"; "u/b"]%string in
  let w := Stats.mkWorld []
             [Props.computing_answer false None None;
              Props.ok_answer (RArray [other; None; mine]);
              Props.ok_answer (RArray [mine])] [] in
  exists evs,
    Stats.getLinesChanged s w
    = (Stats.Ok (14, 2), Stats.set_linesChanged s (14, 2), Stats.mkWorld [] [] evs)
    /\ Reads.gets evs
       = ["https://api.github.com/repos/u/a/stats/contributors";
          "https://api.github.com/repos/u/a/stats/contributors";
          "https://api.github.com/repos/u/b/stats/contributors"]%string.
Proof.
  cbn zeta.
  match goal with |- context [Stats.getLinesChanged ?s ?w] =>
    destruct (getLinesChanged_sums_the_user_over_the_set s w ["u/a"; "u/b"]%string
                eq_refl eq_refl) as (evs & times & H & _)
  end.
  eexists. split; reflexivity.
Defined.

(** X18.  Once the repository set is known, [getViews] sends its requests
    to [/repos/<name>/traffic/views], repository after repository in the
    order of the set, and returns (and stores) the sum of the view
    counts; at the first repository whose payload is an empty array or an
    array that starts with null it throws instead, asks for no further
    repository and stores nothing. *)
Theorem getViews_sums_or_throws s w repos :
  Stats._views s = None ->
  Stats._repos s = Some repos ->
  let ps := Reads.payloads (map Reads.views_path repos) (Stats.rest w) in
  exists evs times,
    Stats.getViews s w
    = (let w1 := Stats.mkWorld (Stats.graphql w)
                   (skipn (List.length (Reads.gets evs)) (Stats.rest w))
                   (Stats.events w ++ evs) in
       if forallb Reads.readable ps
       then (Stats.Ok (Props.total Reads.view_counts ps),
             Stats.set_views s (Props.total Reads.view_counts ps), w1)
       else (Stats.Throw "TypeError: cannot read properties of undefined", s, w1))
    /\ List.length times = Nat.min (List.length repos) (S (Reads.readable_prefix ps))
    /\ Forall (fun t => (1 <= t <= 120)%nat) times
    /\ Reads.gets evs = Reads.asked Reads.views_url repos times.
Proof.
  intros Hnone Hrepos ps.
  unfold Stats.getViews, Stats.getRepos. rewrite Hnone, Hrepos.
  pose proof (views_loop_payloads repos 0 w) as H. cbn zeta in H. fold ps in H.
  destruct (views_loop_requests repos 0 w) as (evs & times & Hw & Hl & Hall & Hg).
  fold ps in Hl.
  destruct (Stats.views_loop repos 0 w) as [[total|] w2]; cbn [fst snd] in H, Hw;
    exists evs, times; cbn zeta; subst w2;
    destruct (forallb Reads.readable ps); try discriminate; auto.
  injection H as ->. auto.
Qed.

Lemma getViews_sums_or_throws_witness :
  let s := Reads.after_pass ["u/a"; "u/b"; "u/c"]%string in
  (exists evs,
     Stats.getViews s
       (Stats.mkWorld []
          [Props.ok_answer
             (RObject (mkRESTResponse None None
                         (Some [mkView (Some 5); mkView None; mkView (Some 2)])));
           Props.ok_answer (RArray [Some (mkRESTResponse None None (Some [mkView (Some 1)]))]);
           Props.ok_answer (RObject (mkRESTResponse None None None))]
          [])
     = (Stats.Ok 8, Stats.set_views s 8, Stats.mkWorld [] [] evs)
     /\ Reads.gets evs
        = ["https://api.github.com/repos/u/a/traffic/views";
           "https://api.github.com/repos/u/b/traffic/views";
           "https://api.github.com/repos/u/c/traffic/views"]%string)
  /\ (exists evs,
        Stats.getViews s
          (Stats.mkWorld []
             [Props.ok_answer (RObject (mkRESTResponse None None None));
              Props.ok_answer (RArray []);
              Props.ok_answer (RObject (mkRESTResponse None None None))] [])
        = (Stats.Throw "TypeError: cannot read properties of undefined", s,
           Stats.mkWorld [] [Props.ok_answer (RObject (mkRESTResponse None None None))] evs)
        /\ Reads.gets evs
           = ["https://api.github.com/repos/u/a/traffic/views";
              "https://api.github.com/repos/u/b/traffic/views"]%string).
Proof.
  cbn zeta. split.
  - match goal with |- context [Stats.getViews ?s ?w] =>
      destruct (getViews_sums_or_throws s w ["u/a"; "u/b"; "u/c"]%string eq_refl eq_refl)
        as (evs & times & H & _)
    end.
    eexists. split; reflexivity.
  - match goal with |- context [Stats.getViews ?s ?w] =>
      destruct (getViews_sums_or_throws s w ["u/a"; "u/b"; "u/c"]%string eq_refl eq_refl)
        as (evs & times & H & _)
    end.
    eexists. split; reflexivity.
Defined.

Lemma answer_rejected script :
  forallb Reads.is_rejected script = true ->
  fst (Props.answer script) = emptyGraphQL
  /\ forallb Reads.is_rejected (snd (Props.answer script)) = true.
Proof.
  unfold Props.answer, Queries.query.
  destruct script as [|[r|e] [|[r2|e2] tail]]; cbn; try discriminate; auto.
Qed.

Lemma getStats_without_network s w :
  forallb Reads.is_rejected (Stats.graphql w) = true ->
  exists w1,
    Stats.getStats s w
    = (Stats.mk (Stats.username s) (Stats.ignoreForkedRepos s)
         (Stats.excludeRepos s) (Stats.excludeLangs s)
         (Some "No Name"%string) (Some 0) (Some 0) (Stats._totalContributions s)
         (Some []) (Some []) (Stats._linesChanged s) (Stats._views s),
       w1).
Proof.
  intros Hrej. destruct (getStats_fields s w) as (w1 & Hs). cbn zeta in Hs.
  assert (Hp : Props.pages_read (Stats.enough_fuel w) (Stats.graphql w) = [emptyGraphQL]).
  { unfold Stats.enough_fuel. cbn [Props.pages_read].
    destruct (answer_rejected _ Hrej) as [Hr _].
    destruct (Props.answer (Stats.graphql w)) as [raw unread]. cbn [fst] in Hr. subst raw.
    reflexivity. }
  unfold Props.repos_read in Hs. rewrite Hp in Hs.
  assert (Hnone : flat_map (Stats.page_repos (Stats.ignoreForkedRepos s)) [emptyGraphQL] = [])
    by (destruct (Stats.ignoreForkedRepos s); reflexivity).
  rewrite Hnone in Hs. exists w1. exact Hs.
Qed.

(** X19.  With the network down (every POST rejected, or none answered)
    every accessor of a new aggregator returns its neutral value instead
    of failing: the name [No Name], zero stars, forks, contributions,
    lines and views, no language and no repository. *)
Theorem without_network_accessors_return_neutral_values
    username excludeRepos excludeLangs ignoreForkedRepos acc w :
  forallb Reads.is_rejected (Stats.graphql w) = true ->
  fst (fst (Stats.call acc
              (Stats.create username excludeRepos excludeLangs ignoreForkedRepos) w))
  = Stats.Ok (Reads.neutral acc).
Proof.
  intros Hrej.
  destruct (getStats_without_network
              (Stats.create username excludeRepos excludeLangs ignoreForkedRepos) w Hrej)
    as (w1 & Hs).
  destruct acc; unfold Stats.call, Stats.getName, Stats.getStargazers, Stats.getForks,
    Stats.getLanguages, Stats.getLanguagesProportional, Stats.getRepos,
    Stats.getLinesChanged, Stats.getViews, Stats.getRepos;
    cbn [Stats.create Stats._name Stats._stargazers Stats._forks Stats._languages
         Stats._repos Stats._linesChanged Stats._views];
    try (rewrite Hs; reflexivity).
  unfold Stats.getTotalContributions.
  cbn [Stats.create Stats._totalContributions].
  pose proof (query_answer Queries.contribYears (Stats.graphql w)) as [Hr1 Hs1].
  destruct (answer_rejected _ Hrej) as [Ha1 Hrej1].
  destruct (Queries.query Queries.contribYears (Stats.graphql w)) as [[r1 e1] s1].
  cbn [fst snd] in *. rewrite <- Hs1 in Hrej1. rewrite Ha1 in Hr1. subst r1.
  match goal with |- context [Queries.query ?d s1] =>
    pose proof (query_answer d s1) as [Hr2 _];
    destruct (Queries.query d s1) as [[r2 e2] s2]
  end.
  destruct (answer_rejected _ Hrej1) as [Ha2 _].
  cbn [fst snd] in *. rewrite Ha2 in Hr2. subst r2. reflexivity.
Qed.

Lemma without_network_accessors_return_neutral_values_witness :
  fst (fst (Stats.call Stats.GetLinesChanged (Stats.create "u" ["u/x"%string] [] false)
              (Stats.mkWorld [Rejected OtherError; Rejected (AxiosError None)] [] [])))
  = Stats.Ok (Stats.VLines (0, 0)).
Proof.
  apply (without_network_accessors_return_neutral_values "u" ["u/x"%string] [] false
           Stats.GetLinesChanged).
  reflexivity.
Defined.




End OtherAccessors.

(* ------------------------------------------------------------------ *)
(** ** The configuration of the image generator *)

Section Configuration.
Import Types.

Lemma skip_space_short s : (String.length (JS.skip_space s) <= String.length s)%nat.
Proof.
  induction s as [|c s IH]; cbn; [lia|].
  destruct (JS.is_space c); cbn; lia.
Qed.

Lemma skip_space_same s :
  String.length (JS.skip_space s) = String.length s -> JS.skip_space s = s.
Proof.
  destruct s as [|c s]; cbn; [reflexivity|].
  destruct (JS.is_space c); [|reflexivity].
  pose proof (skip_space_short s). lia.
Qed.

Lemma trimEnd_short s : (String.length (Images.trimEnd s) <= String.length s)%nat.
Proof.
  induction s as [|c s IH]; cbn; [lia|].
  destruct (Images.trimEnd s); [destruct (JS.is_space c)|]; cbn in *; lia.
Qed.

Lemma skip_space_blank l s : Images.blank l = true -> JS.skip_space (l ++ s) = JS.skip_space s.
Proof.
  induction l as [|c l IH]; cbn; [reflexivity|].
  intros H. apply andb_prop in H as [Hc Hl]. rewrite Hc. auto.
Qed.

Lemma trimEnd_blank t : Images.blank t = true -> Images.trimEnd t = EmptyString.
Proof.
  induction t as [|c t IH]; cbn; [reflexivity|].
  intros H. apply andb_prop in H as [Hc Ht]. now rewrite (IH Ht), Hc.
Qed.

Lemma trimEnd_app s t :
  Images.blank t = true -> Images.trimEnd (s ++ t) = Images.trimEnd s.
Proof.
  intros Ht. induction s as [|c s IH]; cbn; [now apply trimEnd_blank|].
  now rewrite IH.
Qed.

Lemma tight_fixed s :
  Images.tight s = true -> JS.skip_space s = s /\ Images.trimEnd s = s.
Proof.
  unfold Images.tight, Images.trim. intros H. apply String.eqb_eq in H.
  assert (Hs : JS.skip_space s = s).
  { apply skip_space_same.
    pose proof (skip_space_short s). pose proof (trimEnd_short (JS.skip_space s)).
    rewrite H in *. lia. }
  rewrite Hs in H. auto.
Qed.

Lemma skip_space_tight s t :
  JS.skip_space s = s -> s <> EmptyString -> JS.skip_space (s ++ t) = (s ++ t)%string.
Proof.
  destruct s as [|c s]; [congruence|]. cbn.
  destruct (JS.is_space c) eqn:Hc; [|reflexivity].
  intros H _. exfalso.
  pose proof (skip_space_short s). rewrite H in *. cbn in *. lia.
Qed.

(** [trim] takes the white space off both ends. *)
Lemma trim_written e :
  Images.blank (Images.lead e) = true -> Images.blank (Images.trail e) = true ->
  Images.tight (Images.word e) = true ->
  Images.trim (Images.written e) = Images.word e.
Proof.
  intros Hl Ht Hw. destruct (tight_fixed _ Hw) as [Hs He].
  unfold Images.trim, Images.written. rewrite skip_space_blank by exact Hl.
  destruct (Images.word e) as [|c w] eqn:Hword.
  - cbn [append]. clear - Ht. induction (Images.trail e) as [|c t IH]; [reflexivity|].
    cbn in Ht |- *. apply andb_prop in Ht as [Hc Ht]. rewrite Hc. auto.
  - rewrite skip_space_tight by (auto; discriminate).
    rewrite trimEnd_app by exact Ht. exact He.
Qed.

Lemma blank_no_comma s : Images.blank s = true -> Images.has_char ","%char s = false.
Proof.
  induction s as [|c s IH]; cbn; [reflexivity|].
  intros H. apply andb_prop in H as [Hc Hs]. rewrite (IH Hs), orb_false_r.
  destruct (Ascii.eqb_spec c ","%char) as [->|]; [discriminate|reflexivity].
Qed.

Lemma has_char_app x s t :
  Images.has_char x (s ++ t) = Images.has_char x s || Images.has_char x t.
Proof.
  induction s as [|c s IH]; cbn; [reflexivity|]. now rewrite IH, orb_assoc.
Qed.

Lemma split_not_nil sep s : Images.split sep s <> [].
Proof.
  destruct s as [|c s]; cbn; [discriminate|].
  destruct (Ascii.eqb c sep); [discriminate|].
  destruct (Images.split sep s); discriminate.
Qed.

Lemma split_piece sep p rest :
  Images.has_char sep p = false ->
  Images.split sep (p ++ String sep rest) = p :: Images.split sep rest.
Proof.
  induction p as [|c p IH]; cbn.
  - now rewrite Ascii.eqb_refl.
  - intros H. apply orb_false_elim in H as [Hc Hp]. rewrite Hc, (IH Hp). reflexivity.
Qed.

Lemma split_last sep p : Images.has_char sep p = false -> Images.split sep p = [p].
Proof.
  induction p as [|c p IH]; cbn; [reflexivity|].
  intros H. apply orb_false_elim in H as [Hc Hp]. now rewrite Hc, (IH Hp).
Qed.

(** Splitting at the commas gives back the pieces that were joined. *)
Lemma split_concat ps :
  ps <> [] ->
  Forall (fun p => Images.has_char ","%char p = false) ps ->
  Images.split ","%char (String.concat "," ps) = ps.
Proof.
  induction ps as [|p ps IH]; [congruence|].
  intros _ Hall. inversion Hall as [|? ? Hp Hps]; subst.
  destruct ps as [|q ps].
  - cbn. now apply split_last.
  - cbn [String.concat]. change ("," ++ ?x)%string with (String ","%char x).
    rewrite split_piece by exact Hp. f_equal. apply IH; [discriminate|exact Hps].
Qed.

Lemma Set_add_In set x y : In y (Images.Set_add set x) <-> In y set \/ y = x.
Proof.
  unfold Images.Set_add. destruct (JS.has set x) eqn:H.
  - apply has_In in H. split; [auto|]. intros [H0| ->]; auto.
  - rewrite in_app_iff. cbn. intuition congruence.
Qed.

Lemma Set_add_NoDup set x : NoDup set -> NoDup (Images.Set_add set x).
Proof.
  intros H. unfold Images.Set_add. destruct (JS.has set x) eqn:Hx; [exact H|].
  apply has_not_In in Hx.
  apply (Permutation_NoDup (Permutation_cons_append set x)). now constructor.
Qed.

Lemma fold_Set_add xs : forall set,
  NoDup set ->
  NoDup (fold_left Images.Set_add xs set)
  /\ forall y, In y (fold_left Images.Set_add xs set) <-> In y set \/ In y xs.
Proof.
  induction xs as [|x xs IH]; intros set Hset; cbn [fold_left].
  - split; [exact Hset|]. cbn. tauto.
  - destruct (IH _ (Set_add_NoDup set x Hset)) as [Hn Hin]. split; [exact Hn|].
    intros y. rewrite Hin, Set_add_In. cbn. intuition congruence.
Qed.

(** [new Set(xs)] has the members of [xs], each once. *)
Lemma new_Set_members xs :
  NoDup (Images.new_Set xs) /\ forall y, In y (Images.new_Set xs) <-> In y xs.
Proof.
  destruct (fold_Set_add xs [] (NoDup_nil _)) as [Hn Hin]. split; [exact Hn|].
  intros y. unfold Images.new_Set. rewrite Hin. cbn. tauto.
Qed.

Lemma well_written_parts e :
  Images.well_written e = true ->
  Images.blank (Images.lead e) = true /\ Images.blank (Images.trail e) = true
  /\ Images.tight (Images.word e) = true
  /\ Images.has_char ","%char (Images.written e) = false.
Proof.
  unfold Images.well_written. intros H.
  apply andb_prop in H as [H Hc]. apply andb_prop in H as [H Hw].
  apply andb_prop in H as [Hl Ht]. apply negb_true_iff in Hc.
  repeat split; auto.
  unfold Images.written. rewrite !has_char_app, Hc, !blank_no_comma by assumption.
  reflexivity.
Qed.

(** What [main] makes of a comma separated list. *)
Lemma parse_set_written es :
  es <> [] ->
  forallb Images.well_written es = true ->
  String.concat "," (map Images.written es) <> EmptyString ->
  Images.parse_set (Some (String.concat "," (map Images.written es)))
  = Some (Images.new_Set (map Images.word es)).
Proof.
  intros Hne Hall Hstr. unfold Images.parse_set.
  assert (Ht : JS.str_truthy (Some (String.concat "," (map Images.written es))) = true).
  { cbn. apply negb_true_iff, String.eqb_neq. exact Hstr. }
  rewrite Ht. f_equal. f_equal.
  rewrite split_concat.
  - rewrite map_map. apply map_ext_in. intros e He.
    rewrite forallb_forall in Hall.
    destruct (well_written_parts e (Hall e He)) as (Hl & Htr & Hw & _).
    now apply trim_written.
  - destruct es; [congruence|discriminate].
  - rewrite Forall_forall. intros p Hp. apply in_map_iff in Hp as (e & <- & He).
    rewrite forallb_forall in Hall.
    now destruct (well_written_parts e (Hall e He)) as (_ & _ & _ & H).
Qed.

(** X21.  [main] generates the images exactly when ACCESS_TOKEN has at
    least 20 characters and GITHUB_ACTOR is set and not empty; the
    comparison with the placeholder [YOUR_GITHUB_TOKEN] (17 characters)
    never decides.  In every other case it warns and exits with the status
    0, not with an error status. *)
Theorem main_generates_with_a_long_token_and_an_actor env :
  ((exists accessToken s, Images.main env = Images.Generate accessToken s)
   <-> (exists accessToken user,
          Images.ACCESS_TOKEN env = Some accessToken
          /\ (20 <= String.length accessToken)%nat
          /\ Images.GITHUB_ACTOR env = Some user
          /\ user <> EmptyString))
  /\ (forall code warning, Images.main env = Images.Exit code warning -> code = 0)
  /\ (forall accessToken s,
        Images.main env = Images.Generate accessToken s ->
        Images.ACCESS_TOKEN env = Some accessToken
        /\ Images.GITHUB_ACTOR env = Some (Stats.username s)
        /\ Stats._name s = None /\ Stats._repos s = None).
Proof.
  unfold Images.main.
  destruct (Images.ACCESS_TOKEN env) as [tok|].
  2:{ split; [split|split].
      - intros (? & ? & H). discriminate.
      - intros (? & ? & H & _). discriminate.
      - intros ? ? H. now injection H.
      - intros ? ? H. discriminate. }
  assert (Hlen : (String.length tok <? 20)%nat = false ->
                 JS.str_truthy (Some tok) = true
                 /\ String.eqb tok "YOUR_GITHUB_TOKEN" = false).
  { intros H. apply Nat.ltb_ge in H. split.
    - destruct tok; [cbn in H; lia|reflexivity].
    - apply String.eqb_neq. intros ->. cbn in H. lia. }
  destruct (String.length tok <? 20)%nat eqn:Hl.
  - rewrite orb_true_r. apply Nat.ltb_lt in Hl.
    destruct (negb (JS.str_truthy (Some tok))); (split; [split|split]);
      try (intros (? & ? & H); discriminate);
      try (intros (? & ? & H & H' & _); injection H as <-; lia);
      try (intros ? ? H; now injection H);
      intros ? ? H; discriminate.
  - destruct (Hlen eq_refl) as [-> ->]. cbn [negb orb]. apply Nat.ltb_ge in Hl.
    destruct (Images.GITHUB_ACTOR env) as [user|].
    2:{ split; [split|split].
        - intros (? & ? & H). discriminate.
        - intros (? & ? & _ & _ & H & _). discriminate.
        - intros ? ? H. now injection H.
        - intros ? ? H. discriminate. }
    destruct user as [|c user]; cbn [JS.str_truthy String.eqb negb].
    + split; [split|split].
      * intros (? & ? & H). discriminate.
      * intros (? & ? & _ & _ & H & Hne). injection H as <-. congruence.
      * intros ? ? H. now injection H.
      * intros ? ? H. discriminate.
    + split; [split|split].
      * intros _. exists tok, (String c user). repeat split; auto. discriminate.
      * intros _. eauto.
      * intros ? ? H. discriminate.
      * intros ? ? H. injection H as <- <-. repeat split.
Qed.

Lemma main_Generate env accessToken s :
  Images.main env = Images.Generate accessToken s ->
  exists user,
    s = Stats.create user
          (Images.or_empty (Images.parse_set (Images.EXCLUDED env)))
          (Images.or_empty (Images.parse_set (Images.EXCLUDED_LANGS env)))
          (Images.parse_flag (Images.EXCLUDE_FORKED_REPOS env)).
Proof.
  unfold Images.main.
  destruct (Images.ACCESS_TOKEN env) as [tok|]; [|discriminate].
  destruct (negb (JS.str_truthy (Some tok))); [discriminate|].
  destruct (String.eqb tok "YOUR_GITHUB_TOKEN" || (String.length tok <? 20)%nat);
    [discriminate|].
  destruct (Images.GITHUB_ACTOR env) as [user|]; [|discriminate].
  destruct (negb (JS.str_truthy (Some user))); [discriminate|].
  intros H. injection H as _ <-. eauto.
Qed.

(** X22.  EXCLUDED is read as a comma separated list of full repository
    names, white space around a name being ignored: the aggregator [main]
    builds leaves out of its repository set exactly the repositories whose
    [nameWithOwner] is one of the names, letter for letter. *)
Theorem EXCLUDED_repositories_are_left_out env accessToken s es w :
  Images.main env = Images.Generate accessToken s ->
  Images.EXCLUDED env = Some (String.concat "," (map Images.written es)) ->
  forallb Images.well_written es = true ->
  String.concat "," (map Images.written es) <> EmptyString ->
  NoDup (Stats.excludeRepos s)
  /\ (forall n, In n (Stats.excludeRepos s) <-> In n (map Images.word es))
  /\ exists repos,
       Stats._repos (fst (Stats.getStats s w)) = Some repos
       /\ forall n, In n repos
                    <-> In n (Props.names_of (Props.repos_read s w))
                        /\ ~ In n (map Images.word es).
Proof.
  intros Hmain Henv Hall Hstr.
  destruct (main_Generate env accessToken s Hmain) as (user & Hs).
  assert (Hne : es <> []) by (intros ->; apply Hstr; reflexivity).
  rewrite Henv, (parse_set_written es Hne Hall Hstr) in Hs. cbn [Images.or_empty] in Hs.
  destruct (new_Set_members (map Images.word es)) as [Hnd Hin].
  assert (Hex : Stats.excludeRepos s = Images.new_Set (map Images.word es))
    by (rewrite Hs; reflexivity).
  rewrite Hex. split; [exact Hnd|]. split; [exact Hin|].
  destruct (getStats_aggregate s w) as (H1 & _ & H3 & _).
  eexists. split; [exact H1|].
  intros n. rewrite H3, Hex, Hin. reflexivity.
Qed.

Lemma EXCLUDED_repositories_are_left_out_witness :
  let env := Images.mkEnv (Some "ghp_0123456789abcdefghij"%string) (Some "u"%string)
               (Some "u/a , u/c"%string) None None in
  let s := Stats.create "u" ["u/a"; "u/c"]%string [] false in
  let w := Stats.mkWorld
             [Props.overview None
                (Props.page [Props.repo "u/a" 1 0 []; Props.repo "u/b" 2 0 []] false None)
                (Props.page [Props.repo "U/C" 4 0 []] false None)] [] [] in
  Images.main env = Images.Generate "ghp_0123456789abcdefghij" s
  /\ Stats._repos (fst (Stats.getStats s w)) = Some ["u/b"; "U/C"]%string
  /\ (forall n, In n (Stats.excludeRepos s) <-> In n ["u/a"; "u/c"]%string).
Proof.
  cbn zeta. split; [reflexivity|]. split; [reflexivity|].
  match goal with |- context [Stats.excludeRepos ?s] =>
    apply (EXCLUDED_repositories_are_left_out
             (Images.mkEnv (Some "ghp_0123456789abcdefghij"%string) (Some "u"%string)
                (Some "u/a , u/c"%string) None None)
             "ghp_0123456789abcdefghij" s
             [Images.mkEntry "" "u/a" " "; Images.mkEntry " " "u/c" ""]
             (Stats.mkWorld [] [] []))
  end; try reflexivity; discriminate.
Defined.

(** X23.  EXCLUDED_LANGS is read the same way, but a language is compared
    without regard to letter case: a language whose name is one of the
    listed words up to case has no entry in the aggregate of the
    aggregator [main] builds. *)
Theorem EXCLUDED_LANGS_ignore_letter_case env accessToken s es w k :
  Images.main env = Images.Generate accessToken s ->
  Images.EXCLUDED_LANGS env = Some (String.concat "," (map Images.written es)) ->
  forallb Images.well_written es = true ->
  String.concat "," (map Images.written es) <> EmptyString ->
  existsb (fun e => String.eqb (JS.toLowerCase k) (JS.toLowerCase (Images.word e))) es = true ->
  exists o,
    Stats._languages (fst (Stats.getStats s w)) = Some o
    /\ Dict.lookup k o = None
    /\ Stats.own_key k o = false.
Proof.
  intros Hmain Henv Hall Hstr Hk.
  destruct (main_Generate env accessToken s Hmain) as (user & Hs).
  assert (Hne : es <> []) by (intros ->; apply Hstr; reflexivity).
  rewrite Henv, (parse_set_written es Hne Hall Hstr) in Hs. cbn [Images.or_empty] in Hs.
  destruct (new_Set_members (map Images.word es)) as [_ Hin].
  assert (Hex : Stats.excludeLangs s = Images.new_Set (map Images.word es))
    by (rewrite Hs; reflexivity).
  assert (Hhas : JS.has (map JS.toLowerCase (Stats.excludeLangs s)) (JS.toLowerCase k) = true).
  { apply has_In. apply existsb_exists in Hk as (e & He & Heq).
    apply String.eqb_eq in Heq. rewrite Heq. apply in_map. rewrite Hex.
    apply Hin. now apply in_map. }
  destruct (getStats_fields s w) as (w1 & Hf). rewrite Hf. cbn [fst Stats._languages].
  eexists. split; [reflexivity|].
  assert (Hl : Dict.lookup k
                 (Stats.proportions
                    (fold_left (Stats.add_language (map JS.toLowerCase (Stats.excludeLangs s)))
                       (flat_map Props.edges_of
                          (Props.counted (Stats.excludeRepos s) (Props.repos_read s w))) []))
               = None).
  { unfold Stats.proportions. rewrite lookup_set_prop, lookup_fold_add, Hhas. reflexivity. }
  split; [exact Hl|].
  destruct (Stats.own_key k _) eqn:Hown; [|reflexivity].
  apply own_key_lookup in Hown. congruence.
Qed.

Lemma EXCLUDED_LANGS_ignore_letter_case_witness :
  let env := Images.mkEnv (Some "ghp_0123456789abcdefghij"%string) (Some "u"%string)
               None (Some "html, Jupyter Notebook"%string) None in
  let s := Stats.create "u" [] ["html"; "Jupyter Notebook"]%string false in
  let w := Stats.mkWorld
             [Props.overview None
                (Props.page
                   [Props.repo "u/a" 1 0
                      [("HTML"%string, 10); ("C"%string, 5)]]
                   false None)
                (Props.page [] false None)] [] [] in
  Images.main env = Images.Generate "ghp_0123456789abcdefghij" s
  /\ exists o,
       Stats._languages (fst (Stats.getStats s w)) = Some o
       /\ Dict.lookup "HTML" o = None
       /\ Stats.own_key "HTML" o = false.
Proof.
  cbn zeta. split; [reflexivity|].
  match goal with |- context [Stats.getStats ?s ?w] =>
    apply (EXCLUDED_LANGS_ignore_letter_case
             (Images.mkEnv (Some "ghp_0123456789abcdefghij"%string) (Some "u"%string)
                None (Some "html, Jupyter Notebook"%string) None)
             "ghp_0123456789abcdefghij" s
             [Images.mkEntry "" "html" ""; Images.mkEntry " " "Jupyter Notebook" ""]
             w "HTML"%string)
  end; try reflexivity; discriminate.
Defined.

(** X24.  EXCLUDE_FORKED_REPOS turns the option on for every value that is
    not empty, except the word [false] in any letter case with white space
    around it: [0], [no] and a value of white space alone turn it on.
    Without the variable the option is off. *)
Theorem EXCLUDE_FORKED_REPOS_is_on_unless_false env accessToken s :
  Images.main env = Images.Generate accessToken s ->
  (Images.EXCLUDE_FORKED_REPOS env = None -> Stats.ignoreForkedRepos s = false)
  /\ (forall e,
        Images.EXCLUDE_FORKED_REPOS env = Some (Images.written e) ->
        Images.blank (Images.lead e) = true ->
        Images.blank (Images.trail e) = true ->
        Images.tight (Images.word e) = true ->
        Stats.ignoreForkedRepos s
        = negb (String.eqb (Images.written e) EmptyString)
          && negb (String.eqb (JS.toLowerCase (Images.word e)) "false")).
Proof.
  intros Hmain. destruct (main_Generate env accessToken s Hmain) as (user & ->).
  cbn [Stats.create Stats.ignoreForkedRepos]. split.
  - intros ->. reflexivity.
  - intros e -> Hl Ht Hw. unfold Images.parse_flag.
    rewrite (trim_written e Hl Ht Hw). reflexivity.
Qed.

Lemma EXCLUDE_FORKED_REPOS_is_on_unless_false_witness :
  let env flag := Images.mkEnv (Some "ghp_0123456789abcdefghij"%string) (Some "u"%string)
                    None None flag in
  Images.main (env (Some " False "%string))
  = Images.Generate "ghp_0123456789abcdefghij" (Stats.create "u" [] [] false)
  /\ Images.main (env (Some "0"%string))
     = Images.Generate "ghp_0123456789abcdefghij" (Stats.create "u" [] [] true)
  /\ Images.main (env (Some " "%string))
     = Images.Generate "ghp_0123456789abcdefghij" (Stats.create "u" [] [] true)
  /\ Stats.ignoreForkedRepos (Stats.create "u" [] [] false)
     = negb (String.eqb " False " EmptyString)
       && negb (String.eqb (JS.toLowerCase "False") "false").
Proof.
  cbn zeta. split; [reflexivity|]. split; [reflexivity|]. split; [reflexivity|].
  apply (EXCLUDE_FORKED_REPOS_is_on_unless_false
           (Images.mkEnv (Some "ghp_0123456789abcdefghij"%string) (Some "u"%string)
              None None (Some " False "%string))
           "ghp_0123456789abcdefghij" (Stats.create "u" [] [] false) eq_refl)
    with (e := Images.mkEntry " " "False" " "); reflexivity.
Defined.

Lemma main_generates_with_a_long_token_and_an_actor_witness :
  let env := Images.mkEnv (Some "YOUR_GITHUB_TOKEN"%string) (Some "u"%string) None None None in
  Images.main env = Images.Exit 0 Images.TokenInvalid
  /\ forall code warning, Images.main env = Images.Exit code warning -> code = 0.
Proof.
  cbn zeta. split; [reflexivity|].
  apply (main_generates_with_a_long_token_and_an_actor
           (Images.mkEnv (Some "YOUR_GITHUB_TOKEN"%string) (Some "u"%string) None None None)).
Defined.

End Configuration.

Section Languages_image.
Import Types.

Lemma insert_Permutation {A} (cmp : A -> A -> Z) x l :
  Permutation (Images.insert cmp x l) (x :: l).
Proof.
  induction l as [|y l IH]; cbn; [reflexivity|].
  destruct (cmp x y <=? 0); [reflexivity|].
  rewrite IH. apply perm_swap.
Qed.

Lemma sort_Permutation {A} (cmp : A -> A -> Z) l : Permutation (Images.sort cmp l) l.
Proof.
  induction l as [|x l IH]; cbn; [reflexivity|].
  rewrite insert_Permutation. now constructor.
Qed.

Lemma filter_split {A} (p : A -> bool) l :
  Permutation (filter p l ++ filter (fun x => negb (p x)) l) l.
Proof.
  induction l as [|x l IH]; cbn; [reflexivity|].
  destruct (p x); cbn.
  - now constructor.
  - rewrite <- Permutation_middle. now constructor.
Qed.

Lemma Object_entries_Permutation o : Permutation (Images.Object_entries o) o.
Proof.
  unfold Images.Object_entries. rewrite sort_Permutation. apply filter_split.
Qed.

Lemma Object_entries_plain o :
  forallb (fun kv => negb (Images.is_index kv)) o = true -> Images.Object_entries o = o.
Proof.
  unfold Images.Object_entries. intros H.
  assert (H1 : filter Images.is_index o = []).
  { induction o as [|kv o IH]; [reflexivity|].
    cbn in H |- *. apply andb_prop in H as [Hkv Ho].
    apply negb_true_iff in Hkv. rewrite Hkv. auto. }
  assert (H2 : filter (fun kv => negb (Images.is_index kv)) o = o).
  { induction o as [|kv o IH]; [reflexivity|].
    cbn in H, H1 |- *. apply andb_prop in H as [Hkv Ho]. rewrite Hkv.
    apply negb_true_iff in Hkv. rewrite Hkv in H1. f_equal. auto. }
  rewrite H1, H2. reflexivity.
Qed.

Lemma by_size_le x y : (Images.by_size x y <=? 0) = (lang_size (snd y) <=? lang_size (snd x)).
Proof.
  unfold Images.by_size, JS.num_or.
  destruct (Z.eqb_spec (lang_size (snd y)) 0) as [Hy|Hy];
    destruct (Z.eqb_spec (lang_size (snd x)) 0) as [Hx|Hx];
    rewrite ?Hx, ?Hy;
    destruct (Z.leb_spec (lang_size (snd y)) (lang_size (snd x)));
    destruct (Z.leb_spec0 (lang_size (snd y) - lang_size (snd x)) 0);
    try reflexivity; try lia;
    destruct (Z.leb_spec0 (0 - lang_size (snd x)) 0); try reflexivity; try lia;
    destruct (Z.leb_spec0 (lang_size (snd y) - 0) 0); try reflexivity; try lia;
    destruct (Z.leb_spec0 (0 - 0) 0); try reflexivity; lia.
Qed.

Lemma insert_sorted x l :
  StronglySorted Images.larger l -> StronglySorted Images.larger (Images.insert Images.by_size x l).
Proof.
  induction 1 as [|y l Hl IH Hy]; cbn [Images.insert]; [repeat constructor|].
  rewrite by_size_le. destruct (Z.leb_spec (lang_size (snd y)) (lang_size (snd x))) as [Hle|Hgt].
  - constructor; [now constructor|].
    constructor; [exact Hle|].
    rewrite Forall_forall in Hy |- *. intros z Hz. specialize (Hy z Hz).
    unfold Images.larger in *. lia.
  - constructor; [exact IH|].
    rewrite Forall_forall in Hy |- *. intros z Hz.
    apply (Permutation_in _ (insert_Permutation Images.by_size x l)) in Hz.
    destruct Hz as [<-|Hz]; [unfold Images.larger; lia|auto].
Qed.

Lemma insert_stable z x l :
  filter (Images.same_size z) (Images.insert Images.by_size x l)
  = filter (Images.same_size z) (x :: l).
Proof.
  induction l as [|y l IH]; [reflexivity|].
  cbn [Images.insert]. rewrite by_size_le.
  destruct (Z.leb_spec (lang_size (snd y)) (lang_size (snd x))) as [Hle|Hgt]; [reflexivity|].
  cbn [filter] in IH |- *. rewrite IH. unfold Images.same_size.
  destruct (Z.eqb_spec (lang_size (snd x)) z) as [Hx|Hx]; [|reflexivity].
  destruct (Z.eqb_spec (lang_size (snd y)) z) as [Hy|Hy]; [lia|reflexivity].
Qed.

Lemma rows_from_delays l : forall i,
  map Images.delay (Images.rows_from i l)
  = map (fun j => Z.of_nat j * 150) (seq i (List.length l)).
Proof.
  induction l as [|kv l IH]; intros i; [reflexivity|].
  cbn [Images.rows_from map List.length seq Images.row Images.delay]. now rewrite IH.
Qed.

(** X25.  The rows of the languages image are the entries of the
    aggregate, each once, the largest size first; languages of the same
    size stay in the order of the entries of the object (the order in
    which the pass met them, when no name is an array index); the row
    number i is delayed by 150 i ms. *)
Theorem generateLanguages_lists_the_largest_first languages :
  let sorted := Images.sortedLanguages languages in
  Permutation sorted languages
  /\ StronglySorted Images.larger sorted
  /\ (forall z, filter (Images.same_size z) sorted
                = filter (Images.same_size z) (Images.Object_entries languages))
  /\ (forallb (fun kv => negb (Images.is_index kv)) languages = true ->
      Images.Object_entries languages = languages)
  /\ map Images.row_lang (Images.rows languages) = map fst sorted
  /\ map Images.delay (Images.rows languages)
     = map (fun i => Z.of_nat i * 150) (seq 0 (List.length languages)).
Proof.
  cbn zeta. unfold Images.sortedLanguages.
  split; [|split; [|split; [|split; [|split]]]].
  - rewrite sort_Permutation. apply Object_entries_Permutation.
  - induction (Images.Object_entries languages) as [|x l IH]; [constructor|].
    cbn [Images.sort fold_right]. now apply insert_sorted.
  - intros z. induction (Images.Object_entries languages) as [|x l IH]; [reflexivity|].
    cbn [Images.sort fold_right]. rewrite insert_stable. cbn [filter].
    fold (Images.sort Images.by_size l). now rewrite IH.
  - apply Object_entries_plain.
  - unfold Images.rows, Images.sortedLanguages.
    generalize (Images.sort Images.by_size (Images.Object_entries languages)).
    intros l. generalize 0%nat. induction l as [|kv l IH]; intros i; [reflexivity|].
    cbn [Images.rows_from map Images.row Images.row_lang]. now rewrite IH.
  - unfold Images.rows, Images.sortedLanguages. rewrite rows_from_delays.
    f_equal. f_equal. apply Permutation_length.
    rewrite sort_Permutation. apply Object_entries_Permutation.
Qed.

Lemma generateLanguages_lists_the_largest_first_witness :
  let languages :=
    [("C"%string, mkLanguageData 10 1 None None);
     ("TS"%string, mkLanguageData 150 2 (Some "#3178c6"%string) (Some (JS.Finite 75)));
     ("10"%string, mkLanguageData 10 1 None None);
     ("JS"%string, mkLanguageData 150 1 None None)] in
  map fst (Images.sortedLanguages languages) = ["TS"; "JS"; "10"; "C"]%string
  /\ map Images.row_lang (Images.rows languages) = map fst (Images.sortedLanguages languages)
  /\ map Images.delay (Images.rows languages) = [0; 150; 300; 450]
  /\ map Images.row_color (Images.rows languages)
     = ["#3178c6"; "#000000"; "#000000"; "#000000"]%string.
Proof.
  cbn zeta. split; [reflexivity|]. split; [|split; reflexivity].
  apply (generateLanguages_lists_the_largest_first
           [("C"%string, mkLanguageData 10 1 None None);
            ("TS"%string, mkLanguageData 150 2 (Some "#3178c6"%string) (Some (JS.Finite 75)));
            ("10"%string, mkLanguageData 10 1 None None);
            ("JS"%string, mkLanguageData 150 1 None None)]).
Defined.

End Languages_image.

(* ------------------------------------------------------------------ *)
(** ** Two passes at the same time *)

Section Together.
Import Http Types Overlap.

Variable answers : QueryDoc -> GraphQLResponse.
Variable s : Stats.t.

Lemma swap_swap sys : swap (swap sys) = sys.
Proof. now destruct sys. Qed.

Lemma step_swap sys c : step answers s (swap sys) c = swap (step answers s sys (other c)).
Proof.
  destruct sys as [n t p1 p2 ps s1 s2], c; cbn.
  - destruct p2 as [o c|]; [|reflexivity].
    destruct (turn answers s t o c) as [[[n1 a1] p] q]. reflexivity.
  - destruct p1 as [o c|]; [|reflexivity].
    destruct (turn answers s t o c) as [[[n1 a1] p] q]. reflexivity.
Qed.

Lemma with_proportions_twice acc :
  with_proportions (with_proportions acc) = with_proportions acc.
Proof.
  unfold with_proportions. cbn [Stats.repos Stats.stargazers_sum Stats.forks_sum Stats.langs].
  f_equal. unfold Stats.proportions. rewrite langsTotal_proportions, map_map.
  apply map_ext. intros [k v]. reflexivity.
Qed.

Lemma counted_from_none excludeRepos seen l :
  (forall n, In n (Props.names_of l) -> In n seen \/ In n excludeRepos) ->
  Props.counted_from excludeRepos seen l = [].
Proof.
  intros H.
  destruct (Props.counted_from excludeRepos seen l) as [|r rest] eqn:E; [reflexivity|].
  exfalso.
  assert (Hin : In (nameWithOwner r)
                  (map nameWithOwner (Props.counted_from excludeRepos seen l)))
    by (rewrite E; left; reflexivity).
  apply counted_from_In in Hin as (H1 & H2 & H3).
  destruct (H _ H1); contradiction.
Qed.

(** A page whose repositories are all known leaves the fields as they are. *)
Lemma visit_covered acc rawResults :
  covered s acc rawResults ->
  fold_left (Stats.visit (Stats.excludeRepos s) (map JS.toLowerCase (Stats.excludeLangs s)))
    (Stats.page_repos (Stats.ignoreForkedRepos s) rawResults) acc
  = acc.
Proof.
  intros H. rewrite visit_counts_first, counted_from_none; [reflexivity|exact H].
Qed.

Lemma visit_repos l : forall acc,
  Stats.repos
    (fold_left (Stats.visit (Stats.excludeRepos s) (map JS.toLowerCase (Stats.excludeLangs s)))
       l acc)
  = Stats.repos acc
    ++ map nameWithOwner (Props.counted_from (Stats.excludeRepos s) (Stats.repos acc) l).
Proof.
  intros acc. rewrite visit_counts_first.
  now destruct (count_repo_totals (map JS.toLowerCase (Stats.excludeLangs s))
                  (Props.counted_from (Stats.excludeRepos s) (Stats.repos acc) l) acc)
    as (-> & _).
Qed.

(** What a turn does to the repository set: it keeps what was there and
    covers its page. *)
Lemma turn_repos acc o c :
  let '(_, acc1, _, _) := turn answers s acc o c in
  (forall n, In n (Stats.repos acc) -> In n (Stats.repos acc1))
  /\ covered s acc1 (answers (Queries.reposOverview o c)).
Proof.
  unfold turn. cbn zeta.
  set (raw := answers (Queries.reposOverview o c)).
  set (l := Stats.page_repos (Stats.ignoreForkedRepos s) raw).
  assert (H : forall acc1,
             Stats.repos acc1
             = Stats.repos acc
               ++ map nameWithOwner
                    (Props.counted_from (Stats.excludeRepos s) (Stats.repos acc) l) ->
             (forall n, In n (Stats.repos acc) -> In n (Stats.repos acc1))
             /\ covered s acc1 raw).
  { intros acc1 Heq. split.
    - intros n Hn. rewrite Heq, in_app_iff. now left.
    - intros n Hn. fold l in Hn. rewrite Heq, in_app_iff, counted_from_In.
      destruct (in_dec string_dec n (Stats.repos acc)); [now left; left|].
      destruct (in_dec string_dec n (Stats.excludeRepos s)); [now right|].
      left; right. auto. }
  destruct (Stats.hasMore raw); apply H; [|unfold with_proportions; cbn [Stats.repos]];
    apply visit_repos.
Qed.

Lemma solo_succ k :
  alone_after answers s (S k) = step answers s (alone_after answers s k) generateLanguages.
Proof. reflexivity. Qed.

Lemma solo_overview k :
  overview_call (alone_after answers s k) = Returned
  /\ overview_sees (alone_after answers s k) = None.
Proof.
  induction k as [|k [IH1 IH2]]; [split; reflexivity|].
  rewrite solo_succ. unfold step.
  destruct (languages_call (alone_after answers s k)) as [o c|]; [|auto].
  destruct (turn answers s (the_totals (alone_after answers s k)) o c) as [[[n1 a1] p] q]. auto.
Qed.

(** Once the call has returned nothing changes. *)
Lemma solo_returned k m :
  languages_call (alone_after answers s k) = Returned -> (k <= m)%nat ->
  alone_after answers s m = alone_after answers s k.
Proof.
  intros Hk Hle. induction Hle as [|m Hle IH]; [reflexivity|].
  rewrite solo_succ, IH. unfold step. now rewrite Hk.
Qed.

Lemma solo_same k m :
  languages_call (alone_after answers s k) = Returned ->
  languages_call (alone_after answers s m) = Returned ->
  alone_after answers s k = alone_after answers s m.
Proof.
  intros Hk Hm. destruct (Nat.le_ge_cases k m).
  - symmetry. now apply solo_returned.
  - now apply solo_returned.
Qed.

Lemma solo_asking k m o c :
  languages_call (alone_after answers s m) = Asking o c -> (k <= m)%nat ->
  exists o' c', languages_call (alone_after answers s k) = Asking o' c'.
Proof.
  intros Hm Hle. destruct (languages_call (alone_after answers s k)) as [o' c'|] eqn:Hk; [eauto|].
  rewrite (solo_returned k m Hk Hle), Hk in Hm. discriminate.
Qed.

(** The set only grows. *)
Lemma solo_grows k m n :
  (k <= m)%nat ->
  In n (Stats.repos (the_totals (alone_after answers s k))) ->
  In n (Stats.repos (the_totals (alone_after answers s m))).
Proof.
  intros Hle. induction Hle as [|m Hle IH]; [auto|].
  intros Hn. specialize (IH Hn). rewrite solo_succ. unfold step.
  destruct (languages_call (alone_after answers s m)) as [o c|]; [|exact IH].
  pose proof (turn_repos (the_totals (alone_after answers s m)) o c) as H.
  destruct (turn answers s (the_totals (alone_after answers s m)) o c) as [[[n1 a1] p] q].
  cbn [the_totals]. now apply H.
Qed.

(** The page a turn has read is covered from then on. *)
Lemma solo_covered k m o c :
  languages_call (alone_after answers s k) = Asking o c -> (k < m)%nat ->
  covered s (the_totals (alone_after answers s m)) (answers (Queries.reposOverview o c)).
Proof.
  intros Hk Hlt.
  assert (H : covered s (the_totals (alone_after answers s (S k)))
                (answers (Queries.reposOverview o c))).
  { rewrite solo_succ. unfold step. rewrite Hk.
    pose proof (turn_repos (the_totals (alone_after answers s k)) o c) as H.
    destruct (turn answers s (the_totals (alone_after answers s k)) o c) as [[[n1 a1] p] q].
    cbn [the_totals]. apply H. }
  intros n Hn. destruct (H n Hn) as [Hin|Hex]; [left|now right].
  now apply (solo_grows (S k) m).
Qed.

(** A call that has returned has left the percentages and what it saw. *)
Lemma solo_final k :
  languages_call (alone_after answers s k) = Returned ->
  with_proportions (the_totals (alone_after answers s k)) = the_totals (alone_after answers s k)
  /\ languages_sees (alone_after answers s k)
     = Some (the_name (alone_after answers s k), the_totals (alone_after answers s k)).
Proof.
  induction k as [|k IH]; [discriminate|].
  rewrite solo_succ. unfold step.
  destruct (languages_call (alone_after answers s k)) as [o c|] eqn:Hk;
    [|intros _; exact (IH eq_refl)].
  unfold turn. cbn zeta.
  destruct (Stats.hasMore _); cbn [languages_call the_totals the_name languages_sees];
    [discriminate|].
  intros _. split; [apply with_proportions_twice|reflexivity].
Qed.

Lemma Inv_swap i j sys : Inv answers s i j sys -> Inv answers s j i (swap sys).
Proof.
  intros (H1 & H2 & H3 & H4 & H5 & H6 & H7).
  unfold Inv, swap. cbn [languages_call overview_call the_totals the_name languages_sees
                         overview_sees posts].
  rewrite Nat.max_comm. repeat split; auto; [tauto|].
  rewrite H7. apply Permutation_app_comm.
Qed.

Lemma Inv_languages i j sys :
  Inv answers s i j sys -> Inv answers s (S i) j (step answers s sys generateLanguages).
Proof.
  intros (H1 & H2 & H3 & H4 & H5 & H6 & H7).
  unfold step. rewrite H1.
  destruct (languages_call (alone_after answers s i)) as [o c|] eqn:Hi.
  2:{ assert (Hs : alone_after answers s (S i) = alone_after answers s i)
        by (apply solo_returned; auto).
      assert (Hm : alone_after answers s (Nat.max (S i) j)
                   = alone_after answers s (Nat.max i j)).
      { destruct (Nat.le_gt_cases j i).
        - replace (Nat.max (S i) j) with (S i) by lia.
          replace (Nat.max i j) with i by lia. exact Hs.
        - replace (Nat.max (S i) j) with j by lia.
          replace (Nat.max i j) with j by lia. reflexivity. }
      unfold Inv. rewrite Hs, Hm, Hi. repeat split; auto. }
  assert (Hnext : alone_after answers s (S i)
                  = let '(name1, acc1, pass, sent) :=
                      turn answers s (the_totals (alone_after answers s i)) o c in
                    mkSystem name1 acc1 pass Returned (posts (alone_after answers s i) ++ sent)
                      (match pass with
                       | Returned => Some (name1, acc1)
                       | Asking _ _ => languages_sees (alone_after answers s i)
                       end)
                      None).
  { rewrite solo_succ. unfold step. rewrite Hi.
    destruct (solo_overview i) as [-> ->]. reflexivity. }
  assert (Htotals :
            let '(_, acc1, pass, _) := turn answers s (the_totals sys) o c in
            let '(_, acc2, pass2, _) := turn answers s (the_totals (alone_after answers s i)) o c in
            pass = pass2 /\ acc1 = the_totals (alone_after answers s (Nat.max (S i) j))
            /\ (pass = Returned -> acc1 = acc2)).
  { destruct (Nat.le_gt_cases j i) as [Hji|Hij].
    - rewrite H3. replace (Nat.max i j) with i by lia.
      replace (Nat.max (S i) j) with (S i) by lia. rewrite Hnext.
      destruct (turn answers s (the_totals (alone_after answers s i)) o c)
        as [[[n1 a1] p] q]. auto.
    - rewrite H3. replace (Nat.max i j) with j by lia.
      replace (Nat.max (S i) j) with j by lia.
      pose proof (solo_covered i j o c Hi Hij) as Hcov.
      unfold turn. cbn zeta. rewrite (visit_covered _ _ Hcov).
      destruct (Stats.hasMore (answers (Queries.reposOverview o c))) eqn:Hmore.
      + split; [reflexivity|]. split; [reflexivity|discriminate].
      + assert (Hret : languages_call (alone_after answers s (S i)) = Returned).
        { rewrite Hnext. unfold turn. cbn zeta. rewrite Hmore. reflexivity. }
        assert (Hj : alone_after answers s j = alone_after answers s (S i))
          by (apply solo_returned; auto; lia).
        destruct (solo_final (S i) Hret) as [Hfin _].
        rewrite Hj. split; [reflexivity|]. split; [exact Hfin|]. intros _.
        rewrite <- Hfin at 1. rewrite Hnext. unfold turn. cbn zeta. rewrite Hmore.
        cbn [the_totals]. rewrite !with_proportions_twice. reflexivity. }
  assert (Hsame : forall acc,
             fst (fst (fst (turn answers s acc o c)))
             = fst (fst (fst (turn answers s (the_totals (alone_after answers s i)) o c)))
             /\ snd (turn answers s acc o c)
                = snd (turn answers s (the_totals (alone_after answers s i)) o c)).
  { intros acc. unfold turn. cbn zeta. destruct (Stats.hasMore _); auto. }
  specialize (Hsame (the_totals sys)).
  unfold Inv. rewrite Hnext.
  destruct (turn answers s (the_totals sys) o c) as [[[n1 a1] p1] q1].
  destruct (turn answers s (the_totals (alone_after answers s i)) o c) as [[[n2 a2] p2] q2].
  cbn [fst snd] in Hsame. destruct Hsame as [<- <-].
  destruct Htotals as (<- & Ht & Hret).
  unfold Inv. cbn [languages_call overview_call the_totals the_name languages_sees
                   overview_sees posts].
  repeat split; auto.
  - destruct p1; [exact H5|]. now rewrite Hret.
  - rewrite H7, <- !app_assoc. apply Permutation_app_head, Permutation_app_comm.
Qed.

Lemma Inv_step i j sys c :
  Inv answers s i j sys -> exists i' j', Inv answers s i' j' (step answers s sys c).
Proof.
  intros H. destruct c.
  - exists (S i), j. now apply Inv_languages.
  - exists i, (S j).
    apply Inv_swap in H. apply Inv_languages in H. apply Inv_swap in H.
    rewrite step_swap, swap_swap in H. exact H.
Qed.

Lemma Inv_run schedule : forall i j sys,
  Inv answers s i j sys -> exists i' j', Inv answers s i' j' (run answers s schedule sys).
Proof.
  induction schedule as [|c schedule IH]; intros i j sys H; [eauto|].
  destruct (Inv_step i j sys c H) as (i' & j' & H'). exact (IH _ _ _ H').
Qed.

Lemma Inv_start : Inv answers s 0 0 start.
Proof. unfold Inv, start. cbn. repeat split; auto. Qed.

Lemma together schedule n :
  languages_call (alone_after answers s n) = Returned ->
  languages_call (run answers s schedule start) = Returned ->
  overview_call (run answers s schedule start) = Returned ->
  languages_sees (run answers s schedule start)
  = Some (the_name (alone_after answers s n), the_totals (alone_after answers s n))
  /\ overview_sees (run answers s schedule start)
     = Some (the_name (alone_after answers s n), the_totals (alone_after answers s n))
  /\ the_name (run answers s schedule start) = the_name (alone_after answers s n)
  /\ the_totals (run answers s schedule start) = the_totals (alone_after answers s n)
  /\ Permutation (posts (run answers s schedule start))
       (posts (alone_after answers s n) ++ posts (alone_after answers s n)).
Proof.
  intros Hn H1 H2.
  destruct (Inv_run schedule 0 0 start Inv_start)
    as (i & j & (I1 & I2 & I3 & I4 & I5 & I6 & I7)).
  rewrite H1 in I1. rewrite H2 in I2. symmetry in I1, I2.
  pose proof (solo_same i n I1 Hn) as Hi. pose proof (solo_same j n I2 Hn) as Hj.
  assert (Hm : alone_after answers s (Nat.max i j) = alone_after answers s n)
    by (destruct (Nat.max_spec i j) as [[_ ->]|[_ ->]]; assumption).
  destruct (solo_final n Hn) as [_ Hsees].
  rewrite I5, I6, I3, I7, Hi, Hj, Hm, Hsees.
  repeat split; auto.
  destruct I4 as [->| ->]; [now rewrite Hi|now rewrite Hj].
Qed.

Lemma run_returned k sys :
  languages_call sys = Returned -> run answers s (repeat generateLanguages k) sys = sys.
Proof.
  intros H. induction k as [|k IH]; [reflexivity|].
  cbn [repeat]. unfold run in *. cbn [fold_left step]. now rewrite H.
Qed.

Lemma run_snoc k : forall sys,
  run answers s (repeat generateLanguages (S k)) sys
  = step answers s (run answers s (repeat generateLanguages k) sys) generateLanguages.
Proof.
  induction k as [|k IH]; intros sys; [reflexivity|].
  change (run answers s (repeat generateLanguages (S (S k))) sys)
    with (run answers s (repeat generateLanguages (S k)) (step answers s sys generateLanguages)).
  rewrite IH. reflexivity.
Qed.

Lemma alone_after_run k :
  alone_after answers s k = run answers s (repeat generateLanguages k) alone.
Proof.
  induction k as [|k IH]; [reflexivity|].
  rewrite run_snoc, <- IH. reflexivity.
Qed.

(** The single call, turn by turn, is the loop of [getStats] on the
    network that gives its answers. *)
Lemma run_is_getStats_loop k : forall sys o c,
  languages_call sys = Asking o c ->
  languages_call (run answers s (repeat generateLanguages k) sys) = Returned ->
  exists later,
    posts (run answers s (repeat generateLanguages k) sys) = posts sys ++ later
    /\ forall fuel name rest evs,
         (List.length later < fuel)%nat ->
         exists acc w,
           Stats.getStats_loop fuel s o c name (the_totals sys)
             (Stats.mkWorld (script_of answers (Queries.reposOverview o c :: later)) rest evs)
           = (the_name (run answers s (repeat generateLanguages k) sys), acc, w, false)
           /\ with_proportions acc
              = the_totals (run answers s (repeat generateLanguages k) sys).
Proof.
  induction k as [|k IH]; intros sys o c Hask Hret.
  { cbn in Hret. congruence. }
  change (run answers s (repeat generateLanguages (S k)) sys)
    with (run answers s (repeat generateLanguages k) (step answers s sys generateLanguages))
    in Hret |- *.
  remember (step answers s sys generateLanguages) as sys1 eqn:Hsys1.
  unfold step in Hsys1. rewrite Hask in Hsys1. unfold turn in Hsys1. cbn zeta in Hsys1.
  destruct (Stats.hasMore (answers (Queries.reposOverview o c))) eqn:Hmore.
  - destruct (IH sys1 _ _ ltac:(subst sys1; reflexivity) Hret) as (later & Hposts & Hloop).
    eexists. split.
    { rewrite Hposts. subst sys1. cbn [posts]. rewrite <- app_assoc. reflexivity. }
    intros fuel name rest evs Hfuel. cbn [app List.length] in Hfuel.
    destruct fuel as [|fuel]; [lia|].
    cbn [Stats.getStats_loop script_of map Stats.graphql Queries.query next_outcome
         Queries.gql_or_empty data Stats.rest Stats.events].
    rewrite Hmore.
    destruct (Hloop fuel (Stats.resolved_name (answers (Queries.reposOverview o c))) rest
                (evs ++ [EvAcquire; EvSend true (Post (Queries.reposOverview o c)); EvSettle]
                     ++ [EvRelease])
                ltac:(lia)) as (acc & w & Hl & Hp).
    exists acc, w. split; [|exact Hp].
    rewrite <- Hl. subst sys1. reflexivity.
  - assert (Hr : languages_call sys1 = Returned) by (subst sys1; reflexivity).
    rewrite (run_returned k sys1 Hr).
    exists []. split; [subst sys1; reflexivity|].
    intros fuel name rest evs Hfuel.
    destruct fuel as [|fuel]; [cbn in Hfuel; lia|].
    cbn [Stats.getStats_loop script_of map Stats.graphql Queries.query next_outcome
         Queries.gql_or_empty data Stats.rest Stats.events].
    rewrite Hmore. eexists. eexists. subst sys1. split; reflexivity.
Qed.

Lemma alone_is_getStats n rest evs :
  languages_call (alone_after answers s n) = Returned ->
  fst (Stats.getStats s
         (Stats.mkWorld (script_of answers (posts (alone_after answers s n))) rest evs))
  = written s (the_name (alone_after answers s n), the_totals (alone_after answers s n)).
Proof.
  rewrite alone_after_run. intros Hret.
  destruct (run_is_getStats_loop n alone None None eq_refl Hret) as (later & Hposts & Hloop).
  rewrite Hposts. cbn [alone posts app].
  unfold Stats.getStats, Stats.getStats_run.
  match goal with |- context [Stats.getStats_loop ?f s None None ?nm ?a ?w] =>
    destruct (Hloop f nm rest evs) as (acc & w1 & Hl & Hp)
  end.
  { unfold Stats.enough_fuel, script_of. cbn [Stats.graphql]. rewrite length_map.
    cbn [List.length]. lia. }
  cbn [alone the_totals] in Hl. rewrite Hl. cbn [fst].
  rewrite <- Hp. reflexivity.
Qed.

(** X26.  Promise.all runs the pass of [getStats] twice on the new
    aggregator, the two calls taking turns on the same fields, and every
    query of the pass is sent twice.  When the server answers a query the
    same way both times, each repository is still counted once: whatever
    the order of the answers, each generator finds, when its call returns,
    the name and the totals that one call of [getStats] alone computes. *)
Theorem Promise_all_runs_the_pass_twice schedule n rest evs :
  let single := alone_after answers s n in
  let both := run answers s schedule start in
  languages_call single = Returned ->
  languages_call both = Returned ->
  overview_call both = Returned ->
  languages_sees both = Some (the_name single, the_totals single)
  /\ overview_sees both = Some (the_name single, the_totals single)
  /\ (the_name both, the_totals both) = (the_name single, the_totals single)
  /\ written s (the_name single, the_totals single)
     = fst (Stats.getStats s (Stats.mkWorld (script_of answers (posts single)) rest evs))
  /\ Permutation (posts both) (posts single ++ posts single).
Proof.
  intros single both Hn H1 H2.
  destruct (together schedule n Hn H1 H2) as (T1 & T2 & T3 & T4 & T5).
  fold single in T1, T2, T3, T4, T5. fold both in T1, T2, T3, T4, T5.
  split; [exact T1|]. split; [exact T2|]. split; [now rewrite T3, T4|].
  split; [|exact T5].
  symmetry. now apply alone_is_getStats.
Qed.

End Together.

Section Together_example.
Import Http Types Overlap.

Lemma Promise_all_runs_the_pass_twice_witness :
  let s := Stats.create "u" [] [] false in
  let schedule := [generateOverview; generateLanguages; generateLanguages; generateOverview] in
  let both := run two_pages s schedule start in
  let single := alone_after two_pages s 2 in
  languages_sees both = Some (the_name single, the_totals single)
  /\ overview_sees both = Some (the_name single, the_totals single)
  /\ (the_name both, the_totals both) = (the_name single, the_totals single)
  /\ written s (the_name single, the_totals single)
     = fst (Stats.getStats s (Stats.mkWorld (script_of two_pages (posts single)) [] []))
  /\ Permutation (posts both) (posts single ++ posts single)
  /\ Stats.repos (the_totals single) = ["u/a"; "v/x"; "u/b"]%string
  /\ Stats.stargazers_sum (the_totals single) = 15
  /\ List.length (posts both) = 4%nat.
Proof.
  cbn zeta.
  pose proof (Promise_all_runs_the_pass_twice two_pages (Stats.create "u" [] [] false)
                [generateOverview; generateLanguages; generateLanguages; generateOverview]
                2 [] [] eq_refl eq_refl eq_refl) as (H1 & H2 & H3 & H4 & H5).
  split; [exact H1|]. split; [exact H2|]. split; [exact H3|]. split; [exact H4|].
  split; [exact H5|]. split; [reflexivity|]. split; reflexivity.
Defined.

End Together_example.

(* ------------------------------------------------------------------ *)
(** ** Calls of [query] at the same time *)

Section Capacity.
Import Http Types.

Lemma gatherer_counter_and_order_witness :
  let '(q, admitted) :=
    Sched.run_ops [Sched.Acquire 7; Sched.Acquire 8; Sched.Acquire 9; Sched.Release]
      (Queries.create 1) [] in
  Queries.activeRequests q <= 1
  /\ admitted ++ Queries.requestQueue q = [7; 8; 9]%nat.
Proof.
  apply (gatherer_counter_and_order 1
           [Sched.Acquire 7; Sched.Acquire 8; Sched.Acquire 9; Sched.Release]).
  lia.
Defined.

(** X27.  Any number of calls of [query] running at the same time,
    whatever their documents, whatever the network answers and in whatever
    order they advance: the requests out through the pooled client never
    exceed the callers that hold a slot, whose number is the counter,
    which never exceeds the capacity. *)
Theorem concurrent_queries_stay_within_capacity capacity
    (calls : list (QueryDoc * list (Outcome GraphQLResponse))) schedule :
  0 <= capacity ->
  let callers := map (fun call => snd (fst (Queries.query (fst call) (snd call)))) calls in
  let sys := Sched.run schedule
               (Sched.mkSystem (Queries.create capacity) (map Sched.spawn callers)) in
  Sched.active sys <= Sched.holders sys
  /\ Sched.holders sys = Queries.activeRequests (Sched.sem sys)
  /\ Queries.activeRequests (Sched.sem sys) <= capacity.
Proof.
  intros Hc callers. apply bracketed_callers_stay_within_capacity; [exact Hc|].
  apply forallb_forall. intros evs Hin.
  apply in_map_iff in Hin as (call & <- & _). apply query_is_bracketed.
Qed.

Lemma concurrent_queries_stay_within_capacity_witness :
  let callers :=
    map (fun call => snd (fst (Queries.query (fst call) (snd call))))
      [(Queries.contribYears, [Rejected OtherError]);
       (Queries.contribYears, [Resolved (mkResponse 200 None (Some emptyGraphQL))])] in
  let sys := Sched.run [0; 1; 0; 0; 1]%nat
               (Sched.mkSystem (Queries.create 1) (map Sched.spawn callers)) in
  Sched.active sys <= Sched.holders sys
  /\ Sched.holders sys = Queries.activeRequests (Sched.sem sys)
  /\ Queries.activeRequests (Sched.sem sys) <= 1.
Proof.
  apply (concurrent_queries_stay_within_capacity 1
           [(Queries.contribYears, [Rejected OtherError]);
            (Queries.contribYears, [Resolved (mkResponse 200 None (Some emptyGraphQL))])]
           [0; 1; 0; 0; 1]%nat).
  lia.
Defined.

End Capacity.
